(** * AiAnnotate: the text-matching and annotation engine of
      [server/src/utils/pdfAnnotator.ts], embedded in Rocq.

    JavaScript strings are sequences of UTF-16 code units; they are modelled
    as [list N].  JavaScript numbers that the engine only ever uses as
    integers (indices, lengths, distances, estimated coordinates) are [Z] or
    [nat]; the tolerance, page sizes and colour channels are rationals [Q],
    the numbers as they are written in the source or in the JSON of a
    request.  Where the code tests such a number or takes the floor of a
    product, the rational is first rounded to the binary64 value JavaScript
    computes with (see [doubleOfQ]).  Console logging has no effect on
    results and is left out. *)

From Stdlib Require Import ZArith NArith QArith Qround Qabs String Ascii Lia.
From Stdlib Require Import SpecFloat.
From stdpp Require Import base list option.

Local Open Scope Z_scope.

(** ** JavaScript strings *)

Abbreviation jsstring := (list N).

(** The code units of an ASCII literal. *)
Fixpoint str (s : string) : jsstring :=
  match s with
  | EmptyString => []
  | String a r => N_of_ascii a :: str r
  end.

Definition len (s : jsstring) : Z := Z.of_nat (length s).

(** The class [\s] of JavaScript regular expressions, which is also the set
    of characters [String.prototype.trim] strips: WhiteSpace and
    LineTerminator code points. *)
Definition isWhitespace (c : N) : bool :=
  ((9 <=? c) && (c <=? 13) || (c =? 32) || (c =? 160) || (c =? 5760)
   || (8192 <=? c) && (c <=? 8202) || (c =? 8232) || (c =? 8233)
   || (c =? 8239) || (c =? 8287) || (c =? 12288) || (c =? 65279))%N.

(** [t.startsWith(p)] at position 0. *)
Fixpoint startsWith (p t : jsstring) : bool :=
  match p, t with
  | [], _ => true
  | _ :: _, [] => false
  | a :: p', b :: t' => (a =? b)%N && startsWith p' t'
  end.

Fixpoint indexOfFrom (t p : jsstring) (i : Z) {struct t} : Z :=
  if startsWith p t then i
  else match t with
       | [] => -1
       | _ :: t' => indexOfFrom t' p (i + 1)
       end.

(** [t.indexOf(p)]: the least position at which [p] occurs, or -1. *)
Definition indexOf (t p : jsstring) : Z := indexOfFrom t p 0.

Definition clampIndex (s : jsstring) (i : Z) : Z := Z.max 0 (Z.min i (len s)).

(** [s.substring(a, b)]: both ends are clamped to [0, length] and swapped
    when out of order. *)
Definition substring (s : jsstring) (a b : Z) : jsstring :=
  let a' := clampIndex s a in
  let b' := clampIndex s b in
  let lo := Z.min a' b' in
  let hi := Z.max a' b' in
  take (Z.to_nat (hi - lo)) (drop (Z.to_nat lo) s).

(** [s.charAt(i)]: [None] stands for the empty string returned out of range. *)
Definition charAt (s : jsstring) (i : nat) : option N := s !! i.

(** ** JavaScript numbers *)

(** The binary64 value of a number written as the rational [q]: [q] rounded
    to the nearest double (53 bits of mantissa, infinities at exponent
    1024), ties to even. *)
Definition doubleOfQ (q : Q) : spec_float :=
  let round (s : bool) (n : positive) :=
    let '(m, e, l) :=
      SFdiv_core_binary 53 1024 (Zpos n) 0 (Zpos (Qden q)) 0 in
    binary_round_aux 53 1024 s m e l in
  match Qnum q with
  | Z0 => S754_zero false
  | Zpos n => round false n
  | Zneg n => round true n
  end.

(** A length is an integer below 2^53, which is a double. *)
Definition doubleOfZ (z : Z) : spec_float := binary_normalize 53 1024 z 0 false.

(** The value of [Math.floor]: an integer, an infinity or NaN. *)
Inductive Floored :=
  | Integer (z : Z)
  | PlusInfinity
  | MinusInfinity
  | NotANumber.

Definition mathFloor (x : spec_float) : Floored :=
  match x with
  | S754_zero _ => Integer 0
  | S754_infinity false => PlusInfinity
  | S754_infinity true => MinusInfinity
  | S754_nan => NotANumber
  | S754_finite s m e => Integer (Z.shiftl (cond_Zopp s (Zpos m)) e)
  end.

(** [distance <= maxDistance] for a distance that is a natural number; a
    comparison with NaN is false. *)
Definition leFloored (distance : nat) (maxDistance : Floored) : bool :=
  match maxDistance with
  | Integer z => Z.of_nat distance <=? z
  | PlusInfinity => true
  | MinusInfinity | NotANumber => false
  end.

(** [q > 0], [q === 0] and [0 <= q && q <= 1] on the double of [q]. *)
Definition positive (q : Q) : bool := SFltb (S754_zero false) (doubleOfQ q).

Definition isZero (q : Q) : bool := SFeqb (doubleOfQ q) (S754_zero false).

Definition inUnit (q : Q) : bool :=
  SFleb (S754_zero false) (doubleOfQ q) && SFleb (doubleOfQ q) (doubleOfZ 1).

(** The tests and the floor are evaluated on concrete numbers only. *)
Arguments doubleOfQ : simpl never.
Arguments doubleOfZ : simpl never.
Arguments positive : simpl never.
Arguments isZero : simpl never.
Arguments inUnit : simpl never.

(** A number that is not known to be an integer: a page number handed to
    [extractTextFromPage]. *)
Inductive JsNumber :=
  | Finite (q : Q)
  | Infinite (negative : bool)
  | NaN.

(** [n < z], [n > z] and [z === n] for an integer [z]; every comparison with
    NaN is false. *)
Definition ltNumber (n : JsNumber) (z : Z) : bool :=
  match n with
  | Finite q => negb (Qle_bool (inject_Z z) q)
  | Infinite negative => negative
  | NaN => false
  end.

Definition gtNumber (n : JsNumber) (z : Z) : bool :=
  match n with
  | Finite q => negb (Qle_bool q (inject_Z z))
  | Infinite negative => negb negative
  | NaN => false
  end.

Definition eqNumber (z : Z) (n : JsNumber) : bool :=
  match n with
  | Finite q => Qeq_bool (inject_Z z) q
  | _ => false
  end.

(** ** Text normalizer *)

(** [.replace(/\s+/g, ' ')]: every maximal run of whitespace becomes one
    space.  [inRun] tells whether the previous character was whitespace. *)
Fixpoint replaceWsRuns (inRun : bool) (s : jsstring) : jsstring :=
  match s with
  | [] => []
  | c :: r =>
      if isWhitespace c
      then (if inRun then replaceWsRuns true r else 32%N :: replaceWsRuns true r)
      else c :: replaceWsRuns false r
  end.

(** [.replace(/[cls]/g, r)] for a character class and a one-character
    replacement. *)
Definition replaceChar (cls : list N) (r c : N) : N :=
  if existsb (N.eqb c) cls then r else c.

Definition replaceClass (cls : list N) (r : N) (s : jsstring) : jsstring :=
  map (replaceChar cls r) s.

Fixpoint trimStart (s : jsstring) : jsstring :=
  match s with
  | [] => []
  | c :: r => if isWhitespace c then trimStart r else s
  end.

Fixpoint trimEnd (s : jsstring) : jsstring :=
  match s with
  | [] => []
  | c :: r =>
      match trimEnd r with
      | [] => if isWhitespace c then [] else [c]
      | r' => c :: r'
      end
  end.

Definition trim (s : jsstring) : jsstring := trimEnd (trimStart s).

(** The two quote classes of the source hold the ASCII apostrophe (code 39)
    and the ASCII double quote (code 34), each written twice; the dash class
    holds U+2013 and U+2014. *)
Definition singleQuoteClass : list N := [39; 39]%N.
Definition doubleQuoteClass : list N := [34; 34]%N.
Definition dashClass : list N := [8211; 8212]%N.

Definition normalizeText (text : jsstring) : jsstring :=
  trim
    (replaceClass dashClass 45
       (replaceClass doubleQuoteClass 34
          (replaceClass singleQuoteClass 39
             (replaceWsRuns false text)))).

(** What the three character-class replacements do to one character. *)
Definition normChar (c : N) : N :=
  replaceChar dashClass 45
    (replaceChar doubleQuoteClass 34 (replaceChar singleQuoteClass 39 c)).

(** ** Edit-distance scorer *)

(** A [for (let i = a; ...; i++)] loop that runs [n] times over a state;
    [None] is a step the model does not cover (see [arraySet]). *)
Fixpoint forLoop {St : Type} (n i : nat) (body : nat -> St -> option St)
    (s : St) : option St :=
  match n with
  | O => Some s
  | S n' =>
      match body i s with
      | Some s' => forLoop n' (S i) body s'
      | None => None
      end
  end.

(** [a[i] = v] on a JavaScript array: replaces inside the array and extends
    it by one at [i = a.length].  Writing further out would leave holes,
    which the model does not represent: [None]. *)
Definition arraySet {A : Type} (a : list A) (i : nat) (v : A) : option (list A) :=
  if decide (i < length a)%nat then Some (<[i:=v]> a)
  else if decide (i = length a) then Some (a ++ [v])
  else None.

(** [matrix[i][j]]: [None] is a read of [undefined]. *)
Definition matrixGet (m : list (list nat)) (i j : nat) : option nat :=
  row ← m !! i; row !! j.

(** [matrix[i][j] = v]. *)
Definition matrixSet (m : list (list nat)) (i j v : nat)
  : option (list (list nat)) :=
  row ← m !! i; row' ← arraySet row j v; arraySet m i row'.

(** The body of the inner loop of [levenshteinDistance]. *)
Definition levenshteinCell (str1 str2 : jsstring) (i j : nat)
    (matrix : list (list nat)) : option (list (list nat)) :=
  if decide (charAt str2 (i - 1) = charAt str1 (j - 1))
  then
    d ← matrixGet matrix (i - 1) (j - 1);
    matrixSet matrix i j d
  else
    d ← matrixGet matrix (i - 1) (j - 1);
    l ← matrixGet matrix i (j - 1);
    u ← matrixGet matrix (i - 1) j;
    matrixSet matrix i j (Nat.min (d + 1) (Nat.min (l + 1) (u + 1))).

Definition levenshteinDistance (str1 str2 : jsstring) : option nat :=
  let n1 := length str1 in
  let n2 := length str2 in
  m0 ← forLoop (S n2) 0 (fun i matrix => arraySet matrix i [i]) [];
  m1 ← forLoop (S n1) 0 (fun j matrix => matrixSet matrix 0 j j) m0;
  m2 ← forLoop n2 1
          (fun i matrix => forLoop n1 1 (levenshteinCell str1 str2 i) matrix) m1;
  matrixGet m2 n2 n1.

(** *** The Levenshtein distance itself *)

(** Edit scripts: [edits s t n] holds when [s] is turned into [t] by [n]
    unit-cost insertions, deletions and substitutions. *)
Inductive edits : jsstring -> jsstring -> nat -> Prop :=
  | edits_nil : edits [] [] 0
  | edits_keep a s t n : edits s t n -> edits (a :: s) (a :: t) n
  | edits_subst a b s t n : edits s t n -> edits (a :: s) (b :: t) (S n)
  | edits_delete a s t n : edits s t n -> edits (a :: s) t (S n)
  | edits_insert b s t n : edits s t n -> edits s (b :: t) (S n).

(** The least cost of an edit script. *)
Definition isLevenshtein (s t : jsstring) (d : nat) : Prop :=
  edits s t d /\ forall n, edits s t n -> (d <= n)%nat.

(** The textbook recursion, used to relate the matrix to edit scripts. *)
Fixpoint lev (s t : jsstring) {struct s} : nat :=
  match s with
  | [] => length t
  | a :: s' =>
      (fix levRow (t : jsstring) : nat :=
         match t with
         | [] => length s
         | b :: t' =>
             if (a =? b)%N then lev s' t'
             else S (Nat.min (lev s' t') (Nat.min (levRow t') (lev s' t)))
         end) t
  end.

(** *** The contents of the matrix while it is being filled *)

(** What [matrix[i][j]] is meant to hold: the distance between the first
    [i] characters of [str2] and the first [j] characters of [str1]. *)
Definition levCell (str1 str2 : jsstring) (i j : nat) : nat :=
  lev (reverse (take i str2)) (reverse (take j str1)).

(** Row [i] filled up to column [j] (excluded). *)
Definition filledRow (str1 str2 : jsstring) (i j : nat) : list nat :=
  levCell str1 str2 i <$> seq 0 j.

(** Rows [i], [i+1], ... as the first loop leaves them: [[k]]. *)
Definition stubRows (i n : nat) : list (list nat) :=
  (fun k => [k]) <$> seq i n.

(** The matrix when rows below [i] are complete and row [i] is filled up
    to column [j]. *)
Definition matrixAt (str1 str2 : jsstring) (i j : nat) : list (list nat) :=
  ((fun k => filledRow str1 str2 k (S (length str1))) <$> seq 0 i)
  ++ [filledRow str1 str2 i j] ++ stubRows (S i) (length str2 - i).

(** ** Fuzzy strategy *)

(** [distance = None] is the initial [Infinity]. *)
Record FuzzyMatch := mkFuzzyMatch {
  fm_index : Z;
  fm_distance : option nat;
  fm_matchedText : jsstring
}.

Definition noFuzzyMatch : FuzzyMatch := mkFuzzyMatch (-1) None [].

(** [distance < bestMatch.distance]. *)
Definition ltDistance (d : nat) (best : option nat) : bool :=
  match best with
  | None => true
  | Some b => (d <? b)%nat
  end.

(** [Math.floor(length * tolerance)]: the product is the binary64 product,
    rounded to nearest, of the length and the double of the tolerance. *)
Definition floorOfProduct (length : Z) (tolerance : Q) : Floored :=
  mathFloor (SFmul 53 1024 (doubleOfZ length) (doubleOfQ tolerance)).

Definition maxDistanceOf (pattern : jsstring) (tolerance : Q) : Floored :=
  floorOfProduct (len pattern) tolerance.

Arguments floorOfProduct : simpl never.

(** The last window offset the scan reaches. *)
Definition scanBound (text pattern : jsstring) : Z :=
  let maxSearchLength := Z.min (len text) (len pattern * 100) in
  Z.min (len text - len pattern) maxSearchLength.

(** The scanning loop, [n] iterations starting at offset [i].  A distance
    that is not a number fails every comparison, so such a window is
    skipped. *)
Fixpoint fuzzyScan (text pattern : jsstring) (maxDistance : Floored)
    (n : nat) (i : Z) (bestMatch : FuzzyMatch) : FuzzyMatch :=
  match n with
  | O => bestMatch
  | S n' =>
      let substring := substring text i (i + len pattern) in
      match levenshteinDistance substring pattern with
      | Some distance =>
          if leFloored distance maxDistance then
            let bestMatch' :=
              if ltDistance distance (fm_distance bestMatch)
              then mkFuzzyMatch i (Some distance) substring
              else bestMatch in
            if (distance <=? 2)%nat then bestMatch'
            else fuzzyScan text pattern maxDistance n' (i + 1) bestMatch'
          else fuzzyScan text pattern maxDistance n' (i + 1) bestMatch
      | None => fuzzyScan text pattern maxDistance n' (i + 1) bestMatch
      end
  end.

Definition fuzzySearchWithNormalization (text pattern : jsstring) (tolerance : Q)
  : FuzzyMatch :=
  let maxDistance := maxDistanceOf pattern tolerance in
  fuzzyScan text pattern maxDistance
    (Z.to_nat (scanBound text pattern + 1)) 0 noFuzzyMatch.

(** What a result of the scan over offsets up to [hi] can be: nothing, or
    a window within the scan whose distance is the Levenshtein distance to
    the pattern and is within [maxDistance]. *)
Definition fuzzyReport (text pattern : jsstring) (maxDistance : Floored)
    (hi : Z) (r : FuzzyMatch) : Prop :=
  fm_index r = -1 \/
  exists d, fm_distance r = Some d
    /\ isLevenshtein (fm_matchedText r) pattern d
    /\ leFloored d maxDistance = true
    /\ fm_matchedText r = substring text (fm_index r) (fm_index r + len pattern)
    /\ 0 <= fm_index r <= hi.

(** The best match while the scan stands before offset [i]: none, every
    window so far being out of tolerance; or a window of distance above 2,
    the leftmost of least distance among those scanned. *)
Definition scannedBest (text pattern : jsstring) (maxDistance : Floored)
    (i : Z) (best : FuzzyMatch) : Prop :=
  let dist k := lev (substring text k (k + len pattern)) pattern in
  (fm_index best = -1 /\ fm_distance best = None
   /\ forall k, 0 <= k < i -> leFloored (dist k) maxDistance = false)
  \/ exists d, fm_distance best = Some d
       /\ 0 <= fm_index best < i
       /\ d = dist (fm_index best)
       /\ leFloored d maxDistance = true
       /\ (2 < d)%nat
       /\ (forall k, 0 <= k < fm_index best -> (d < dist k)%nat)
       /\ (forall k, 0 <= k < i -> (d <= dist k)%nat).

(** What the scan over offsets 0 to [hi] returns. *)
Definition scanOutcome (text pattern : jsstring) (maxDistance : Floored)
    (hi : Z) (r : FuzzyMatch) : Prop :=
  let dist k := lev (substring text k (k + len pattern)) pattern in
  (fm_index r = -1
   /\ forall k, 0 <= k <= hi -> leFloored (dist k) maxDistance = false)
  \/ exists d, fm_distance r = Some d
       /\ 0 <= fm_index r <= hi
       /\ d = dist (fm_index r)
       /\ leFloored d maxDistance = true
       /\ (forall k, 0 <= k < fm_index r -> (d < dist k)%nat)
       /\ ((2 < d)%nat -> forall k, 0 <= k <= hi -> (d <= dist k)%nat).

(** ** Data model ([types/annotations.ts]) *)

(** [OtherType] is a [type] field outside the enum, as untyped JSON can
    carry; it reaches the [default] branch of [applyAnnotation]. *)
Inductive AnnotationType :=
  | HIGHLIGHT
  | UNDERLINE
  | COMMENT
  | OtherType (name : jsstring).

Record AnnotationColor := mkColor {
  color_r : Q;
  color_g : Q;
  color_b : Q;
  color_a : option Q
}.

Record TextPosition := mkTextPosition {
  tp_pageNumber : Z;
  tp_text : jsstring;
  tp_x : Z;
  tp_y : Z;
  tp_width : Z;
  tp_height : Z
}.

Record AnnotationInstruction := mkInstruction {
  instr_type : AnnotationType;
  instr_text : jsstring;
  instr_pageNumber : option Z;
  instr_color : option AnnotationColor;
  instr_comment : option jsstring;
  instr_caseSensitive : option bool
}.

(** [AnnotationOptions], every field optional. *)
Record AnnotationOptions := mkAnnotationOptions {
  opt_matchTolerance : option Q;
  opt_firstMatchOnly : option bool;
  opt_skipNotFound : option bool;
  opt_logNotFound : option bool
}.

(** [Required<AnnotationOptions>]. *)
Record RequiredOptions := mkOptions {
  matchTolerance : Q;
  firstMatchOnly : bool;
  skipNotFound : bool;
  logNotFound : bool
}.

Record AnnotationRequest := mkRequest {
  req_instructions : list AnnotationInstruction;
  req_options : option AnnotationOptions
}.

Record AnnotationResult := mkResult {
  res_instruction : AnnotationInstruction;
  res_success : bool;
  res_matchedText : option jsstring;
  res_position : option TextPosition;
  res_error : option jsstring
}.

Record PageText := mkPageText {
  pageNumber : Z;
  text : jsstring
}.

Record ExtractedText := mkExtractedText {
  pages : list PageText;
  totalPages : Z
}.

Definition DEFAULT_COLORS (t : AnnotationType) : option AnnotationColor :=
  match t with
  | HIGHLIGHT => Some (mkColor 1 1 0 (Some (3 # 10)))
  | UNDERLINE => Some (mkColor 1 0 0 (Some 1%Q))
  | COMMENT => Some (mkColor 0 (1 # 2) 1 (Some (8 # 10)))
  | OtherType _ => None
  end.

Definition DEFAULT_ANNOTATION_OPTIONS : RequiredOptions :=
  {| matchTolerance := 1 # 10;
     firstMatchOnly := true;
     skipNotFound := true;
     logNotFound := true |}.

(** [{ ...DEFAULT_ANNOTATION_OPTIONS, ...request.options }]. *)
Definition mergeOptions (o : option AnnotationOptions) : RequiredOptions :=
  match o with
  | None => DEFAULT_ANNOTATION_OPTIONS
  | Some o =>
      {| matchTolerance :=
           default (matchTolerance DEFAULT_ANNOTATION_OPTIONS) (opt_matchTolerance o);
         firstMatchOnly :=
           default (firstMatchOnly DEFAULT_ANNOTATION_OPTIONS) (opt_firstMatchOnly o);
         skipNotFound :=
           default (skipNotFound DEFAULT_ANNOTATION_OPTIONS) (opt_skipNotFound o);
         logNotFound :=
           default (logNotFound DEFAULT_ANNOTATION_OPTIONS) (opt_logNotFound o) |}
  end.

(** *** The document being drawn on (pdf-lib) *)

Definition RGB : Type := Q * Q * Q.

(** [rgb(0, 0, 0)]. *)
Definition black : RGB := (0%Q, 0%Q, 0%Q).

(** The calls made on a page that pdf-lib has accepted, with the options
    they were given. *)
Inductive DrawOp :=
  | DrawRectangle (x y width height : Q) (color : RGB) (opacity : Q)
      (border : option (RGB * Q))
  | DrawLine (x1 y1 x2 y2 thickness : Q) (color : RGB) (opacity : Q)
  | DrawText (line : jsstring) (x y size : Q) (color : RGB).

Record PDFPage := mkPage {
  page_width : Q;
  page_height : Q;
  page_ops : list DrawOp
}.

Record PDFDocument := mkDocument {
  doc_pages : list PDFPage;
  doc_fonts : nat
}.

Record AnnotationResponse := mkResponse {
  resp_success : bool;
  resp_results : list AnnotationResult;
  resp_warnings : option (list jsstring);
  resp_pdfBuffer : option PDFDocument
}.

Definition nonEmpty' {A : Type} (l : list A) : bool :=
  match l with
  | [] => false
  | _ :: _ => true
  end.

(** ** What the engine takes from its platform *)

(** The exceptions pdf-lib raises on the calls the engine makes: [rgb]
    rejects a channel outside [0, 1]; [drawRectangle] and [drawLine] reject
    an opacity outside [0, 1]; [font.widthOfTextAtSize] rejects a text with
    a character the font's encoding (WinAnsi, for the embedded Helvetica)
    does not have. *)
Inductive DrawError :=
  | ChannelOutOfRange
  | OpacityOutOfRange
  | CannotEncode (text : jsstring).

(** [String.prototype.toLowerCase] (full Unicode case mapping), the embedded
    font of pdf-lib (the characters it encodes and the width
    [font.widthOfTextAtSize] returns for a text it encodes) and the messages
    of the exceptions pdf-lib throws are not part of the repository. *)
Record Runtime := mkRuntime {
  toLowerCase : jsstring -> jsstring;
  canEncode : N -> bool;
  widthOfTextAtSize : jsstring -> Q -> Q;
  pageIndexError : Z -> jsstring;
  drawErrorMessage : DrawError -> jsstring
}.

(** ** Position estimator *)

Definition createTextPosition (pageNumber : Z) (originalText : jsstring)
    (charIndex : Z) (matchedText : jsstring) : TextPosition :=
  {| tp_pageNumber := pageNumber;
     tp_text := originalText;
     tp_x := 50;
     tp_y := 700 - (charIndex / 100) * 20;
     tp_width := len matchedText * 6;
     tp_height := 12 |}.

(** ** Match strategies *)

(** Which [return] of the per-page strategy chain fired (the source names
    it in its log line). *)
Inductive Strategy := Exact | Partial50 | Partial30 | Fuzzy | RawFallback.

(** The arguments a successful strategy hands to [createTextPosition]. *)
Record MatchCandidate := mkCandidate {
  mc_strategy : Strategy;
  mc_page : PageText;
  mc_charOffset : Z;
  mc_matchedSubstring : jsstring;
  mc_editDistance : option nat
}.

Definition truthyNumber (n : option Z) : bool :=
  match n with
  | Some n => negb (n =? 0)
  | None => false
  end.

Definition truthyBool (b : option bool) : bool := default false b.

Section Engine.

Context (rt : Runtime).

(** [instruction.caseSensitive ? s : s.toLowerCase()]. *)
Definition foldCase (instruction : AnnotationInstruction) (s : jsstring)
  : jsstring :=
  if truthyBool (instr_caseSensitive instruction) then s else toLowerCase rt s.

(** One iteration of the page loop of [findTextPosition], up to its
    [return]s. *)
Definition searchPage (instruction : AnnotationInstruction)
    (options : RequiredOptions) (page : PageText) : option MatchCandidate :=
  let searchText := foldCase instruction (instr_text instruction) in
  let normalizedSearchText := normalizeText searchText in
  let pageText := foldCase instruction (text page) in
  let normalizedPageText := normalizeText pageText in
  let index := indexOf normalizedPageText normalizedSearchText in
  if negb (index =? -1) then
    Some (mkCandidate Exact page index normalizedSearchText None)
  else
    let partialSearch50 := substring normalizedSearchText 0 50 in
    let index50 := indexOf normalizedPageText partialSearch50 in
    if (50 <? len normalizedSearchText) && negb (index50 =? -1) then
      Some (mkCandidate Partial50 page index50 partialSearch50 None)
    else
      let partialSearch30 := substring normalizedSearchText 0 30 in
      let index30 := indexOf normalizedPageText partialSearch30 in
      if (30 <? len normalizedSearchText) && negb (index30 =? -1) then
        Some (mkCandidate Partial30 page index30 partialSearch30 None)
      else
        let fuzzyResult :=
          fuzzySearchWithNormalization normalizedPageText normalizedSearchText
            (matchTolerance options) in
        if positive (matchTolerance options)
           && negb (fm_index fuzzyResult =? -1) then
          Some (mkCandidate Fuzzy page (fm_index fuzzyResult)
                  (fm_matchedText fuzzyResult) (fm_distance fuzzyResult))
        else
          let indexRaw := indexOf pageText searchText in
          if negb (indexRaw =? -1) then
            Some (mkCandidate RawFallback page indexRaw searchText None)
          else None.

(** The page loop: a page without a match ends the loop when
    [options.firstMatchOnly] is set ([break]), whatever pages remain. *)
Fixpoint searchPages (instruction : AnnotationInstruction)
    (options : RequiredOptions) (pagesToSearch : list PageText)
  : option MatchCandidate :=
  match pagesToSearch with
  | [] => None
  | page :: rest =>
      match searchPage instruction options page with
      | Some c => Some c
      | None =>
          if firstMatchOnly options then None
          else searchPages instruction options rest
      end
  end.

Definition pagesToSearch (extractedText : ExtractedText)
    (instruction : AnnotationInstruction) : list PageText :=
  if truthyNumber (instr_pageNumber instruction)
  then filter (fun p => Some (pageNumber p) = instr_pageNumber instruction)
         (pages extractedText)
  else pages extractedText.

Definition findMatch (extractedText : ExtractedText)
    (instruction : AnnotationInstruction) (options : RequiredOptions)
  : option MatchCandidate :=
  searchPages instruction options (pagesToSearch extractedText instruction).

Definition findTextPosition (extractedText : ExtractedText)
    (instruction : AnnotationInstruction) (options : RequiredOptions)
  : option TextPosition :=
  c ← findMatch extractedText instruction options;
  Some (createTextPosition (pageNumber (mc_page c)) (instr_text instruction)
          (mc_charOffset c) (mc_matchedSubstring c)).

(** ** Annotation geometry builder *)

Local Open Scope Q_scope.

(** [position.x || d]: zero is falsy. *)
Definition orElseZ (v : Z) (d : Q) : Q :=
  if (v =? 0)%Z then d else inject_Z v.

(** [color.a || d]: a missing or zero alpha is falsy. *)
Definition orElseQ (a : option Q) (d : Q) : Q :=
  match a with
  | Some a => if isZero a then d else a
  | None => d
  end.

Definition rgbOf (color : AnnotationColor) : RGB :=
  (color_r color, color_g color, color_b color).

(** The exception, if any, of a call that fills with [color]:
    [rgb(color.r, color.g, color.b)] checks the channels while the options
    are built, then the drawing call checks [opacity]. *)
Definition fillError (color : AnnotationColor) (opacity : Q)
  : option DrawError :=
  if negb (inUnit (color_r color) && inUnit (color_g color)
           && inUnit (color_b color))
  then Some ChannelOutOfRange
  else if negb (inUnit opacity) then Some OpacityOutOfRange
  else None.

Arguments fillError : simpl never.

Definition drawOn (page : PDFPage) (op : DrawOp) : PDFPage :=
  {| page_width := page_width page;
     page_height := page_height page;
     page_ops := page_ops page ++ [op] |}.

(** [inl] is an exception, thrown before anything is drawn. *)
Definition drawHighlight (page : PDFPage) (position : TextPosition)
    (color : AnnotationColor) (_pageWidth pageHeight : Q)
  : DrawError + PDFPage :=
  let x := orElseZ (tp_x position) 50 in
  let y := orElseZ (tp_y position) (pageHeight - 100) in
  let width := orElseZ (tp_width position) 100 in
  let height := orElseZ (tp_height position) 12 in
  let opacity := orElseQ (color_a color) (3 # 10) in
  match fillError color opacity with
  | Some e => inl e
  | None =>
      inr (drawOn page
             (DrawRectangle (x - 2) (y - 2) (width + 4) (height + 4)
                (rgbOf color) opacity None))
  end.

Definition drawUnderline (page : PDFPage) (position : TextPosition)
    (color : AnnotationColor) (_pageWidth pageHeight : Q)
  : DrawError + PDFPage :=
  let x := orElseZ (tp_x position) 50 in
  let y := orElseZ (tp_y position) (pageHeight - 100) in
  let width := orElseZ (tp_width position) 100 in
  let opacity := orElseQ (color_a color) 1 in
  match fillError color opacity with
  | Some e => inl e
  | None =>
      inr (drawOn page
             (DrawLine x (y - 2) (x + width) (y - 2) (3 # 2) (rgbOf color)
                opacity))
  end.

(** [comment.split(' ')]. *)
Fixpoint splitSpace (s : jsstring) : list jsstring :=
  match s with
  | [] => [[]]
  | c :: r =>
      if (c =? 32)%N then [] :: splitSpace r
      else match splitSpace r with
           | w :: ws => (c :: w) :: ws
           | [] => [[c]]
           end
  end.

Definition nonEmpty (s : jsstring) : bool :=
  match s with
  | [] => false
  | _ :: _ => true
  end.

(** The font encodes every character of the text. *)
Definition encodable (s : jsstring) : bool := forallb (canEncode rt) s.

(** One step of the greedy wrap, its test line measured; the state is
    [(lines, currentLine)]. *)
Definition wrapStep (commentWidth fontSize : Q)
    (st : list jsstring * jsstring) (word : jsstring)
  : list jsstring * jsstring :=
  let '(lines, currentLine) := st in
  let testLine :=
    if nonEmpty currentLine then currentLine ++ 32%N :: word else word in
  let textWidth := widthOfTextAtSize rt testLine fontSize in
  if negb (Qle_bool (commentWidth - 10) textWidth) then (lines, testLine)
  else ((if nonEmpty currentLine then lines ++ [currentLine] else lines), word).

(** The lines the wrap loop gives when every measurement succeeds. *)
Definition wrapComment (comment : jsstring) (commentWidth fontSize : Q)
  : list jsstring :=
  let '(lines, currentLine) :=
    fold_left (wrapStep commentWidth fontSize) (splitSpace comment) ([], []) in
  if nonEmpty currentLine then lines ++ [currentLine] else lines.

(** The wrap loop: [font.widthOfTextAtSize(testLine, fontSize)] throws on a
    test line the font does not encode, which ends the loop. *)
Fixpoint wrapWords (commentWidth fontSize : Q) (words : list jsstring)
    (st : list jsstring * jsstring)
  : DrawError + (list jsstring * jsstring) :=
  match words with
  | [] => inr st
  | word :: rest =>
      let testLine :=
        if nonEmpty (snd st) then snd st ++ 32%N :: word else word in
      if encodable testLine
      then wrapWords commentWidth fontSize rest
             (wrapStep commentWidth fontSize st word)
      else inl (CannotEncode testLine)
  end.

(** The [drawText] calls of the last loop of [drawComment], line [i] first.
    The lines have been measured with the font that draws them, so it
    encodes them. *)
Fixpoint drawLines (page : PDFPage) (lines : list jsstring) (i : nat)
    (commentX commentY commentHeight fontSize : Q) : PDFPage :=
  match lines with
  | [] => page
  | line :: rest =>
      drawLines
        (drawOn page
           (DrawText line (commentX + 5)
              (commentY - commentHeight + 45 - inject_Z (Z.of_nat i) * 10)
              fontSize black))
        rest (S i) commentX commentY commentHeight fontSize
  end.

(** [drawComment] returns the page and the document as it leaves them, and
    the exception if it threw: a colour that is rejected throws before
    anything is drawn; a comment that cannot be measured throws after the
    box and the connector are drawn and the font is embedded. *)
Definition drawComment (page : PDFPage) (pdfDoc : PDFDocument)
    (position : TextPosition) (comment : jsstring) (color : AnnotationColor)
    (pageWidth pageHeight : Q) : PDFPage * PDFDocument * option DrawError :=
  let x := orElseZ (tp_x position) 50 in
  let y := orElseZ (tp_y position) (pageHeight - 100) in
  let commentX := pageWidth - 150 in
  let commentY := y in
  let commentWidth := 140 in
  let commentHeight := 60 in
  let opacity := orElseQ (color_a color) (8 # 10) in
  match fillError color opacity with
  | Some e => (page, pdfDoc, Some e)
  | None =>
      let page1 :=
        drawOn page
          (DrawRectangle commentX (commentY - commentHeight) commentWidth
             commentHeight (rgbOf color) opacity (Some (black, 1))) in
      let page2 :=
        drawOn page1
          (DrawLine (x + orElseZ (tp_width position) 100) (y + 6)
             commentX (commentY - commentHeight / 2) (1 # 2) black (1 # 2)) in
      let pdfDoc' :=
        {| doc_pages := doc_pages pdfDoc;
           doc_fonts := S (doc_fonts pdfDoc) |} in
      let fontSize := 8 in
      match wrapWords commentWidth fontSize (splitSpace comment) ([], []) with
      | inl e => (page2, pdfDoc', Some e)
      | inr (lines0, currentLine) =>
          let lines :=
            if nonEmpty currentLine then lines0 ++ [currentLine] else lines0 in
          let maxLines := Nat.min (length lines) 5%nat in
          (drawLines page2 (take maxLines lines) 0%nat commentX commentY
             commentHeight fontSize,
           pdfDoc', None)
      end
  end.

Local Close Scope Q_scope.

(** ** Orchestrator *)

(** [pdfDoc.getPage(index)]; [None] is the exception for a bad index. *)
Definition getPage (pdfDoc : PDFDocument) (index : Z) : option PDFPage :=
  if (0 <=? index) && (index <? Z.of_nat (length (doc_pages pdfDoc)))
  then doc_pages pdfDoc !! Z.to_nat index
  else None.

(** The page object is shared with the document: drawing on it changes the
    document. *)
Definition putPage (pdfDoc : PDFDocument) (index : Z) (page : PDFPage)
  : PDFDocument :=
  {| doc_pages := <[Z.to_nat index := page]> (doc_pages pdfDoc);
     doc_fonts := doc_fonts pdfDoc |}.

Definition failure (instruction : AnnotationInstruction) (error : jsstring)
  : AnnotationResult :=
  {| res_instruction := instruction;
     res_success := false;
     res_matchedText := None;
     res_position := None;
     res_error := Some error |}.

Definition textNotFound : jsstring := str "Text not found in document".

(** [instruction.comment || 'Comment']: a missing or empty body is falsy. *)
Definition commentOrDefault (comment : option jsstring) : jsstring :=
  match comment with
  | Some (c :: r) => c :: r
  | _ => str "Comment"
  end.

Definition typeName (t : AnnotationType) : jsstring :=
  match t with
  | HIGHLIGHT => str "highlight"
  | UNDERLINE => str "underline"
  | COMMENT => str "comment"
  | OtherType name => name
  end.

(** The message of the [TypeError] raised by reading a field of an
    [undefined] colour. *)
Definition undefinedColorError : jsstring :=
  str "Cannot read properties of undefined (reading 'r')".

(** [applyAnnotation]: the whole body is inside [try], so every exception
    becomes a failed result; what was drawn before the exception stays. *)
Definition applyAnnotation (pdfDoc : PDFDocument) (extractedText : ExtractedText)
    (instruction : AnnotationInstruction) (options : RequiredOptions)
  : PDFDocument * AnnotationResult :=
  match findTextPosition extractedText instruction options with
  | None => (pdfDoc, failure instruction textNotFound)
  | Some textPosition =>
      let index := tp_pageNumber textPosition - 1 in
      match getPage pdfDoc index with
      | None => (pdfDoc, failure instruction (pageIndexError rt index))
      | Some page =>
          let width := page_width page in
          let height := page_height page in
          let color :=
            match instr_color instruction with
            | Some c => Some c
            | None => DEFAULT_COLORS (instr_type instruction)
            end in
          let ok (pdfDoc' : PDFDocument) :=
            (pdfDoc',
             {| res_instruction := instruction;
                res_success := true;
                res_matchedText := Some (tp_text textPosition);
                res_position := Some textPosition;
                res_error := None |}) in
          let thrown (pdfDoc' : PDFDocument) (e : DrawError) :=
            (pdfDoc', failure instruction (drawErrorMessage rt e)) in
          match instr_type instruction, color with
          | OtherType name, _ =>
              (pdfDoc,
               failure instruction (str "Unknown annotation type: " ++ name))
          | _, None => (pdfDoc, failure instruction undefinedColorError)
          | HIGHLIGHT, Some color =>
              match drawHighlight page textPosition color width height with
              | inr page' => ok (putPage pdfDoc index page')
              | inl e => thrown pdfDoc e
              end
          | UNDERLINE, Some color =>
              match drawUnderline page textPosition color width height with
              | inr page' => ok (putPage pdfDoc index page')
              | inl e => thrown pdfDoc e
              end
          | COMMENT, Some color =>
              let '(page', pdfDoc', exception) :=
                drawComment page pdfDoc textPosition
                  (commentOrDefault (instr_comment instruction))
                  color width height in
              match exception with
              | None => ok (putPage pdfDoc' index page')
              | Some e => thrown (putPage pdfDoc' index page') e
              end
          end
      end
  end.

(** The warning pushed for a failed instruction. *)
Definition warningMessage (instruction : AnnotationInstruction)
    (result : AnnotationResult) : jsstring :=
  str "Failed to apply " ++ typeName (instr_type instruction)
  ++ str " annotation for text " ++ [34%N] ++ instr_text instruction
  ++ [34%N] ++ str ": " ++ default (str "undefined") (res_error result).

(** The instruction loop of [annotatePDF]; the state is the document, the
    results and the warnings so far. *)
Fixpoint processInstructions (extractedText : ExtractedText)
    (options : RequiredOptions) (instructions : list AnnotationInstruction)
    (st : PDFDocument * list AnnotationResult * list jsstring)
  : PDFDocument * list AnnotationResult * list jsstring :=
  match instructions with
  | [] => st
  | instruction :: rest =>
      let '(pdfDoc, results, warnings) := st in
      let '(pdfDoc', result) :=
        applyAnnotation pdfDoc extractedText instruction options in
      let warnings' :=
        if negb (res_success result) && logNotFound options
           && negb (skipNotFound options)
        then warnings ++ [warningMessage instruction result]
        else warnings in
      processInstructions extractedText options rest
        (pdfDoc', results ++ [result], warnings')
  end.

(** [annotatePDF] once [PDFDocument.load] and [extractTextFromPDF] have
    succeeded with [pdfDoc] and [extractedText]; the returned buffer is the
    saved document ([pdfDoc.save()] is taken to succeed). *)
Definition annotatePDF (pdfDoc : PDFDocument) (extractedText : ExtractedText)
    (request : AnnotationRequest) : AnnotationResponse :=
  let options := mergeOptions (req_options request) in
  let '(pdfDoc', results, warnings) :=
    processInstructions extractedText options (req_instructions request)
      (pdfDoc, [], []) in
  let successCount := length (filter (fun r => res_success r = true) results) in
  {| resp_success := (0 <? successCount)%nat;
     resp_results := results;
     resp_warnings := if nonEmpty' warnings then Some warnings else None;
     resp_pdfBuffer := Some pdfDoc' |}.

End Engine.

(** ** Text extraction ([utils/pdfExtractor.ts]) *)

(** An item of a page's text content as pdfjs hands it over: [item_str] is
    [None] for an item without a [str] property, [item_y] is [transform[5]]
    when the item has a transform. *)
Record TextItem := mkTextItem {
  item_str : option jsstring;
  item_y : option Q
}.

Fixpoint lastChar (s : jsstring) : option N :=
  match s with
  | [] => None
  | [c] => Some c
  | _ :: r => lastChar r
  end.

(** [s.endsWith(c)] for a one-character string. *)
Definition endsWith (s : jsstring) (c : N) : bool :=
  match lastChar s with
  | Some d => (d =? c)%N
  | None => false
  end.

(** One call of the [forEach] callback of [extractTextFromPDF]; the state is
    [(pageText, lastY)].  An item whose [str] is missing or empty is
    skipped. *)
Definition addItem (st : jsstring * Q) (index : nat) (item : TextItem)
  : jsstring * Q :=
  let '(pageText, lastY) := st in
  match item_str item with
  | Some (c :: r) =>
      let currentY := default 0%Q (item_y item) in
      let separator :=
        if negb (Qeq_bool lastY (-1))
           && negb (Qle_bool (Qabs (currentY - lastY)) 5)
        then [10%N]
        else if (0 <? index)%nat && negb (endsWith pageText 32)
                && negb (endsWith pageText 10)
        then [32%N]
        else [] in
      (pageText ++ separator ++ c :: r, currentY)
  | _ => st
  end.

Fixpoint addItems (items : list TextItem) (index : nat) (st : jsstring * Q)
  : jsstring * Q :=
  match items with
  | [] => st
  | item :: rest => addItems rest (S index) (addItem st index item)
  end.

(** The [pageText] built from the items of one page. *)
Definition pageTextOf (items : list TextItem) : jsstring :=
  fst (addItems items 0 ([], (-1)%Q)).

(** [s.split(sep)] for a one-character separator. *)
Fixpoint splitOn (sep : N) (s : jsstring) : list jsstring :=
  match s with
  | [] => [[]]
  | c :: r =>
      if (c =? sep)%N then [] :: splitOn sep r
      else match splitOn sep r with
           | w :: ws => (c :: w) :: ws
           | [] => [[c]]
           end
  end.

(** The [lines] field of an extracted page:
    [pageText.split('\n').filter(line => line.trim().length > 0)]. *)
Definition pageLines (pageText : jsstring) : list jsstring :=
  filter (fun line => trim line <> []) (splitOn 10 pageText).

(** The page loop, [i] being the number of the next page. *)
Fixpoint extractPages (contents : list (list TextItem)) (i : Z)
  : list PageText :=
  match contents with
  | [] => []
  | items :: rest =>
      mkPageText i (trim (pageTextOf items)) :: extractPages rest (i + 1)
  end.

(** [extractTextFromPDF] on a document whose pages have the text contents
    [contents].  The [lines] of a page are [pageLines]; the metadata, read
    by pdf-parse, is left out. *)
Definition extractTextFromPDF (contents : list (list TextItem))
  : ExtractedText :=
  mkExtractedText (extractPages contents 1) (Z.of_nat (length contents)).

Inductive PageError :=
  | InvalidPageNumber (pageNumber : JsNumber) (totalPages : Z)
  | CouldNotExtract (pageNumber : JsNumber).

(** [extractTextFromPage] once the extraction has given [extracted]; the
    two [throw]s are the two errors.  The page number is any number. *)
Definition extractTextFromPage (extracted : ExtractedText)
    (pageNumber' : JsNumber) : PageText + PageError :=
  if ltNumber pageNumber' 1 || gtNumber pageNumber' (totalPages extracted)
  then inr (InvalidPageNumber pageNumber' (totalPages extracted))
  else match List.find (fun p => eqNumber (pageNumber p) pageNumber')
               (pages extracted) with
       | Some page => inl page
       | None => inr (CouldNotExtract pageNumber')
       end.

(** [pageText.includes(searchTerm)]. *)
Definition includes (t s : jsstring) : bool := negb (indexOf t s =? -1).

Definition findTextInPages (rt : Runtime) (extracted : ExtractedText)
    (searchText : jsstring) (caseSensitive : bool) : list Z :=
  let searchTerm :=
    if caseSensitive then searchText else toLowerCase rt searchText in
  map pageNumber
    (filter
       (fun page =>
          includes
            (if caseSensitive then text page else toLowerCase rt (text page))
            searchTerm = true)
       (pages extracted)).

(** The non-empty strings of a page's items, in order. *)
Definition itemStrings (items : list TextItem) : list jsstring :=
  omap (fun item =>
          match item_str item with
          | Some (c :: r) => Some (c :: r)
          | _ => None
          end) items.

(** Two texts that collapse alike whatever comes before and after them. *)
Definition sameLayout (x y : jsstring) : Prop :=
  forall b tail, replaceWsRuns b (x ++ tail) = replaceWsRuns b (y ++ tail).

(** ** How a document grows *)

(** [new] is [old] with further drawing calls, on a page of the same size. *)
Definition extendsPage (old new : PDFPage) : Prop :=
  page_width new = page_width old
  /\ page_height new = page_height old
  /\ exists ops, page_ops new = page_ops old ++ ops.

(** [new] has the pages of [old], each possibly drawn on further, and at
    least its fonts. *)
Definition extendsDocument (old new : PDFDocument) : Prop :=
  length (doc_pages new) = length (doc_pages old)
  /\ (doc_fonts old <= doc_fonts new)%nat
  /\ forall k page, doc_pages old !! k = Some page ->
       exists page', doc_pages new !! k = Some page' /\ extendsPage page page'.

(** [parts.join(sep)]. *)
Fixpoint joinWith (sep : jsstring) (parts : list jsstring) : jsstring :=
  match parts with
  | [] => []
  | [p] => p
  | p :: rest => p ++ sep ++ joinWith sep rest
  end.

(** ** How a result reads *)

(** The per-instruction outcome NotFound. *)
Definition reportsNotFound (r : AnnotationResult) : Prop :=
  res_success r = false /\ res_error r = Some textNotFound.

(** A rejection that can be told apart from NotFound. *)
Definition reportsInvalidSpec (r : AnnotationResult) : Prop :=
  res_success r = false
  /\ exists e, res_error r = Some e /\ e <> textNotFound.

(** The instruction with its comment body replaced. *)
Definition withComment (instruction : AnnotationInstruction)
    (comment : option jsstring) : AnnotationInstruction :=
  {| instr_type := instr_type instruction;
     instr_text := instr_text instruction;
     instr_pageNumber := instr_pageNumber instruction;
     instr_color := instr_color instruction;
     instr_comment := comment;
     instr_caseSensitive := instr_caseSensitive instruction |}.

(** The text lines a document shows on its pages. *)
Definition drawnText (op : DrawOp) : list jsstring :=
  match op with
  | DrawText line _ _ _ _ => [line]
  | _ => []
  end.

Definition textsOnPage (page : PDFPage) : list jsstring :=
  concat (map drawnText (page_ops page)).

(** ** A runtime for the examples *)

(** [toLowerCase] on ASCII text. *)
Definition asciiLower (s : jsstring) : jsstring :=
  map (fun c => if (65 <=? c)%N && (c <=? 90)%N then (c + 32)%N else c) s.

(** The printable characters of ASCII and Latin-1. *)
Definition latin1 (c : N) : bool :=
  ((32 <=? c) && (c <=? 126) || (160 <=? c) && (c <=? 255))%N.

Definition sampleMessage (e : DrawError) : jsstring :=
  match e with
  | ChannelOutOfRange => str "colour channel out of range"
  | OpacityOutOfRange => str "opacity out of range"
  | CannotEncode _ => str "cannot encode text"
  end.

(** A font that encodes [latin1] and in which every glyph is half the font
    size wide. *)
Definition sampleRuntime : Runtime :=
  {| toLowerCase := asciiLower;
     canEncode := latin1;
     widthOfTextAtSize := fun s size => (inject_Z (len s) * size / 2)%Q;
     pageIndexError := fun _ => str "page index out of range";
     drawErrorMessage := sampleMessage |}.

(** [toLowerCase] on ASCII text and on U+0130, the capital I with dot above,
    whose lower case is two code units long (i, U+0307). *)
Definition dottedLower (s : jsstring) : jsstring :=
  flat_map (fun c => if (c =? 304)%N then [105; 775]%N else asciiLower [c]) s.

Definition dottedRuntime : Runtime :=
  {| toLowerCase := dottedLower;
     canEncode := latin1;
     widthOfTextAtSize := fun s size => (inject_Z (len s) * size / 2)%Q;
     pageIndexError := fun _ => str "page index out of range";
     drawErrorMessage := sampleMessage |}.

Definition letterPage : PDFPage := mkPage 612 792 [].

Definition highlightOf (t : string) : AnnotationInstruction :=
  mkInstruction HIGHLIGHT (str t) None None None None.

Definition fourPages : ExtractedText :=
  mkExtractedText
    [mkPageText 1 (str "nothing of interest here");
     mkPageText 2 (str "the total revenue grew");
     mkPageText 3 (str "an empty chapter");
     mkPageText 4 (str "again total revenue fell")] 4.

Definition fourPageDoc : PDFDocument :=
  mkDocument [letterPage; letterPage; letterPage; letterPage] 0.

Definition twoShortPages : ExtractedText :=
  mkExtractedText [mkPageText 1 (str "abc"); mkPageText 2 (str "de")] 2.

Definition twoPageDoc : PDFDocument := mkDocument [letterPage; letterPage] 0.

(** * Properties *)

(** ** The Levenshtein recursion is the least edit cost *)

Section LevenshteinSpec.

Lemma lev_nil_r s : lev s [] = length s.
Proof. by destruct s. Qed.

Lemma lev_cons a b s t :
  lev (a :: s) (b :: t) =
  if (a =? b)%N then lev s t
  else S (Nat.min (lev s t) (Nat.min (lev (a :: s) t) (lev s (b :: t)))).
Proof. reflexivity. Qed.

(** Adding or dropping one character on either side moves the distance by
    at most one. *)
Lemma lev_step_bounds n : forall s t, (length s + length t <= n)%nat ->
  (forall a, lev (a :: s) t <= S (lev s t))%nat /\
  (forall b, lev s (b :: t) <= S (lev s t))%nat /\
  (forall a, lev s t <= S (lev (a :: s) t))%nat /\
  (forall b, lev s t <= S (lev s (b :: t)))%nat.
Proof.
  induction n as [|n IH]; intros s t Hn.
  - destruct s; destruct t; simpl in Hn; try lia.
    repeat split; intros; simpl; lia.
  - assert (Hsmall : forall s' t', (length s' + length t' <= n)%nat ->
      (forall a, lev (a :: s') t' <= S (lev s' t'))%nat /\
      (forall b, lev s' (b :: t') <= S (lev s' t'))%nat /\
      (forall a, lev s' t' <= S (lev (a :: s') t'))%nat /\
      (forall b, lev s' t' <= S (lev s' (b :: t')))%nat) by exact IH.
    clear IH. split; [|split; [|split]].
    + intros a. destruct t as [|b t'].
      * rewrite !lev_nil_r. simpl. lia.
      * rewrite lev_cons. simpl in Hn.
        destruct (Hsmall s t' ltac:(lia)) as (_ & _ & _ & H4).
        destruct (a =? b)%N; [apply H4 | lia].
    + intros b. destruct s as [|a s'].
      * simpl. lia.
      * rewrite lev_cons. simpl in Hn.
        destruct (Hsmall s' t ltac:(lia)) as (_ & _ & H3 & _).
        destruct (a =? b)%N; [apply H3 | lia].
    + intros a. destruct t as [|b t'].
      * rewrite !lev_nil_r. simpl. lia.
      * rewrite lev_cons. simpl in Hn.
        destruct (Hsmall s t' ltac:(lia)) as (_ & H2 & H3 & _).
        specialize (H2 b). specialize (H3 a).
        destruct (a =? b)%N; lia.
    + intros b. destruct s as [|a s'].
      * simpl. lia.
      * rewrite lev_cons. simpl in Hn.
        destruct (Hsmall s' t ltac:(lia)) as (H1 & _ & _ & H4).
        specialize (H1 a). specialize (H4 b).
        destruct (a =? b)%N; lia.
Qed.

Lemma lev_delete_le a s t : (lev (a :: s) t <= S (lev s t))%nat.
Proof. by apply (lev_step_bounds (length s + length t) s t). Qed.

Lemma lev_insert_le b s t : (lev s (b :: t) <= S (lev s t))%nat.
Proof. by apply (lev_step_bounds (length s + length t) s t). Qed.

Lemma lev_subst_le a b s t : (lev (a :: s) (b :: t) <= S (lev s t))%nat.
Proof. rewrite lev_cons. destruct (a =? b)%N; lia. Qed.

Lemma lev_keep a s t : lev (a :: s) (a :: t) = lev s t.
Proof. rewrite lev_cons. by rewrite N.eqb_refl. Qed.

(** No edit script is cheaper than [lev]. *)
Lemma lev_lower_bound s t n : edits s t n -> (lev s t <= n)%nat.
Proof.
  induction 1 as [|a s t n _ IH|a b s t n _ IH|a s t n _ IH|b s t n _ IH].
  - simpl. lia.
  - by rewrite lev_keep.
  - pose proof (lev_subst_le a b s t). lia.
  - pose proof (lev_delete_le a s t). lia.
  - pose proof (lev_insert_le b s t). lia.
Qed.

Lemma edits_insert_all t : edits [] t (length t).
Proof. induction t as [|b t IH]; simpl; [constructor | by apply edits_insert]. Qed.

Lemma edits_delete_all s : edits s [] (length s).
Proof. induction s as [|a s IH]; simpl; [constructor | by apply edits_delete]. Qed.

(** Some edit script costs exactly [lev]. *)
Lemma lev_attained s t : edits s t (lev s t).
Proof.
  revert t. induction s as [|a s IHs]; intros t.
  - apply edits_insert_all.
  - induction t as [|b t IHt].
    + rewrite lev_nil_r. apply edits_delete_all.
    + rewrite lev_cons. destruct (a =? b)%N eqn:Hab.
      * apply N.eqb_eq in Hab as ->. apply edits_keep, IHs.
      * destruct (Nat.min_spec (lev s t)
                    (Nat.min (lev (a :: s) t) (lev s (b :: t)))) as [[_ ->]|[_ ->]].
        { apply edits_subst, IHs. }
        destruct (Nat.min_spec (lev (a :: s) t) (lev s (b :: t)))
          as [[_ ->]|[_ ->]].
        { by apply edits_insert. }
        { apply edits_delete, IHs. }
Qed.

Lemma lev_isLevenshtein s t : isLevenshtein s t (lev s t).
Proof. split; [apply lev_attained | apply lev_lower_bound]. Qed.

Lemma isLevenshtein_unique s t d1 d2 :
  isLevenshtein s t d1 -> isLevenshtein s t d2 -> d1 = d2.
Proof.
  intros [H1 L1] [H2 L2]. apply L1 in H2. apply L2 in H1. lia.
Qed.

Lemma edits_swap s t n : edits s t n -> edits t s n.
Proof. induction 1; by constructor. Qed.

Lemma edits_app s t n s' t' n' :
  edits s t n -> edits s' t' n' -> edits (s ++ s') (t ++ t') (n + n').
Proof. intros H H'. induction H; simpl; [done | by constructor ..]. Qed.

Lemma edits_reverse s t n : edits s t n -> edits (reverse s) (reverse t) n.
Proof.
  induction 1 as [|a s t n _ IH|a b s t n _ IH|a s t n _ IH|b s t n _ IH];
    rewrite ?reverse_nil, ?reverse_cons.
  - constructor.
  - replace n with (n + 0)%nat by lia.
    apply edits_app; [done | apply edits_keep, edits_nil].
  - replace (S n) with (n + 1)%nat by lia.
    apply edits_app; [done | apply edits_subst, edits_nil].
  - replace (S n) with (n + 1)%nat by lia.
    rewrite <- (app_nil_r (reverse t)).
    apply edits_app; [done | apply edits_delete, edits_nil].
  - replace (S n) with (n + 1)%nat by lia.
    rewrite <- (app_nil_r (reverse s)).
    apply edits_app; [done | apply edits_insert, edits_nil].
Qed.

Lemma lev_sym s t : lev s t = lev t s.
Proof.
  apply (isLevenshtein_unique s t); [apply lev_isLevenshtein|].
  destruct (lev_isLevenshtein t s) as [H L]. split.
  - by apply edits_swap.
  - intros n Hn. by apply L, edits_swap.
Qed.

Lemma lev_reverse s t : lev (reverse s) (reverse t) = lev s t.
Proof.
  apply (isLevenshtein_unique s t); [|apply lev_isLevenshtein].
  destruct (lev_isLevenshtein (reverse s) (reverse t)) as [H L]. split.
  - apply edits_reverse in H. by rewrite !reverse_involutive in H.
  - intros n Hn. by apply L, edits_reverse.
Qed.

End LevenshteinSpec.

(** ** The matrix code computes the Levenshtein distance *)

Section LevenshteinMatrix.

Variables str1 str2 : jsstring.

Local Abbreviation n1 := (length str1).
Local Abbreviation n2 := (length str2).
Local Abbreviation cell := (levCell str1 str2).
Local Abbreviation row := (filledRow str1 str2).
Local Abbreviation mat := (matrixAt str1 str2).

Lemma levCell_row0 j : (j <= n1)%nat -> cell 0 j = j.
Proof.
  intros Hj. unfold levCell. rewrite take_0. simpl.
  rewrite length_reverse, length_take. lia.
Qed.

Lemma levCell_col0 i : (i <= n2)%nat -> cell i 0 = i.
Proof.
  intros Hi. unfold levCell. rewrite take_0, lev_nil_r.
  rewrite length_reverse, length_take. lia.
Qed.

Lemma levCell_step i j :
  (i < n2)%nat -> (j < n1)%nat ->
  cell (S i) (S j) =
  if decide (charAt str2 i = charAt str1 j) then cell i j
  else Nat.min (cell i j + 1) (Nat.min (cell (S i) j + 1) (cell i (S j) + 1)).
Proof.
  intros Hi Hj. unfold charAt.
  destruct (lookup_lt_is_Some_2 str2 i Hi) as [x Hx].
  destruct (lookup_lt_is_Some_2 str1 j Hj) as [y Hy].
  unfold levCell. rewrite (take_S_r _ _ _ Hx), (take_S_r _ _ _ Hy).
  rewrite !reverse_snoc, lev_cons, Hx, Hy.
  destruct (x =? y)%N eqn:Hxy.
  - apply N.eqb_eq in Hxy as ->. by rewrite decide_True.
  - apply N.eqb_neq in Hxy. rewrite decide_False by congruence. lia.
Qed.

Lemma length_filledRow i j : length (row i j) = j.
Proof. unfold filledRow. by rewrite length_fmap, length_seq. Qed.

Lemma filledRow_lookup i j c :
  (c < j)%nat -> row i j !! c = Some (cell i c).
Proof.
  intros Hc. unfold filledRow.
  by rewrite list_lookup_fmap, lookup_seq_lt.
Qed.

Lemma filledRow_snoc i j : row i j ++ [cell i j] = row i (S j).
Proof. unfold filledRow. by rewrite seq_S, fmap_app. Qed.

Lemma filledRow_0 : row 0 (S n1) = seq 0 (S n1).
Proof.
  unfold filledRow. apply list_eq. intros c.
  rewrite list_lookup_fmap.
  destruct (decide (c < S n1)%nat) as [Hc|Hc].
  - rewrite lookup_seq_lt by done. simpl. f_equal. apply levCell_row0. lia.
  - by rewrite lookup_seq_ge by lia.
Qed.

Lemma stubRows_cons i n : stubRows i (S n) = [i] :: stubRows (S i) n.
Proof. reflexivity. Qed.

Lemma stubRows_snoc i : stubRows 0 i ++ [[i]] = stubRows 0 (S i).
Proof. unfold stubRows. by rewrite seq_S, fmap_app. Qed.

Lemma matrixAt_lookup_below i j k :
  (k < i)%nat -> mat i j !! k = Some (row k (S n1)).
Proof.
  intros Hk. unfold matrixAt.
  rewrite lookup_app_l by (rewrite length_fmap, length_seq; lia).
  by rewrite list_lookup_fmap, lookup_seq_lt.
Qed.

Lemma matrixAt_lookup_current i j : mat i j !! i = Some (row i j).
Proof.
  unfold matrixAt.
  rewrite lookup_app_r by (rewrite length_fmap, length_seq; lia).
  rewrite length_fmap, length_seq.
  by replace (i - i)%nat with 0%nat by lia.
Qed.

Lemma matrixGet_below i j k c :
  (k < i)%nat -> (c <= n1)%nat -> matrixGet (mat i j) k c = Some (cell k c).
Proof.
  intros Hk Hc. unfold matrixGet.
  rewrite matrixAt_lookup_below by done. simpl.
  apply filledRow_lookup. lia.
Qed.

Lemma matrixGet_current i j c :
  (c < j)%nat -> matrixGet (mat i j) i c = Some (cell i c).
Proof.
  intros Hc. unfold matrixGet. rewrite matrixAt_lookup_current. simpl.
  by apply filledRow_lookup.
Qed.

Lemma arraySet_push {A : Type} (a : list A) (v : A) :
  arraySet a (length a) v = Some (a ++ [v]).
Proof.
  unfold arraySet. rewrite decide_False by lia. by rewrite decide_True.
Qed.

Lemma arraySet_inside {A : Type} (a : list A) (i : nat) (v : A) :
  (i < length a)%nat -> arraySet a i v = Some (<[i:=v]> a).
Proof. intros Hi. unfold arraySet. by rewrite decide_True. Qed.

Lemma matrixSet_current i j :
  matrixSet (mat i j) i j (cell i j) = Some (mat i (S j)).
Proof.
  unfold matrixSet. rewrite matrixAt_lookup_current. simpl.
  rewrite <- (length_filledRow i j) at 2.
  rewrite arraySet_push, filledRow_snoc. simpl.
  rewrite arraySet_inside.
  2:{ unfold matrixAt. rewrite !length_app, length_fmap, length_seq. simpl. lia. }
  f_equal. unfold matrixAt.
  rewrite insert_app_r_alt by (rewrite length_fmap, length_seq; lia).
  rewrite length_fmap, length_seq.
  by replace (i - i)%nat with 0%nat by lia.
Qed.

(** Row [i] complete is row [i+1] started. *)
Lemma matrixAt_next_row i :
  (i < n2)%nat -> mat i (S n1) = mat (S i) 1.
Proof.
  intros Hi. unfold matrixAt.
  rewrite seq_S, fmap_app. simpl.
  rewrite <- app_assoc. simpl. f_equal. f_equal.
  replace (n2 - i)%nat with (S (n2 - S i)) by lia.
  rewrite stubRows_cons. f_equal.
  unfold filledRow. simpl. f_equal. symmetry. apply levCell_col0. lia.
Qed.

Lemma forLoop_S {St : Type} n i (body : nat -> St -> option St) s :
  forLoop (S n) i body s = body i s ≫= forLoop n (S i) body.
Proof. reflexivity. Qed.

Lemma first_loop n i :
  forLoop n i (fun i matrix => arraySet matrix i [i]) (stubRows 0 i)
  = Some (stubRows 0 (i + n)).
Proof.
  revert i. induction n as [|n IH]; intros i.
  - simpl. by rewrite Nat.add_0_r.
  - rewrite forLoop_S.
    pose proof (arraySet_push (stubRows 0 i) [i]) as Hpush.
    unfold stubRows at 2 in Hpush. rewrite length_fmap, length_seq in Hpush.
    rewrite Hpush, stubRows_snoc. simpl. rewrite IH. do 2 f_equal. lia.
Qed.

Lemma matrixSet_row0_push r rest v :
  matrixSet (r :: rest) 0 (length r) v = Some ((r ++ [v]) :: rest).
Proof.
  unfold matrixSet.
  change ((r :: rest) !! 0%nat) with (Some r).
  cbn [mbind option_bind]. rewrite arraySet_push. cbn [mbind option_bind].
  rewrite arraySet_inside by (simpl; lia). reflexivity.
Qed.

Lemma second_loop n j rest :
  (1 <= j)%nat ->
  forLoop n j (fun j matrix => matrixSet matrix 0 j j) (seq 0 j :: rest)
  = Some (seq 0 (j + n) :: rest).
Proof.
  revert j. induction n as [|n IH]; intros j Hj.
  - simpl. by rewrite Nat.add_0_r.
  - rewrite forLoop_S.
    pose proof (matrixSet_row0_push (seq 0 j) rest j) as Hpush.
    rewrite length_seq in Hpush. rewrite Hpush. cbn [mbind option_bind].
    rewrite <- seq_S. rewrite IH by lia. do 3 f_equal. lia.
Qed.

Lemma inner_loop i n j :
  (1 <= i <= n2)%nat -> (1 <= j)%nat -> (j + n = S n1)%nat ->
  forLoop n j (levenshteinCell str1 str2 i) (mat i j) = Some (mat i (S n1)).
Proof.
  intros Hi. revert j. induction n as [|n IH]; intros j Hj Hn.
  - simpl. do 2 f_equal. lia.
  - simpl.
    assert (Hcell : levenshteinCell str1 str2 i j (mat i j) = Some (mat i (S j))).
    { destruct i as [|i']; [lia|]. destruct j as [|j']; [lia|].
      pose proof (levCell_step i' j' ltac:(lia) ltac:(lia)) as Hstep.
      unfold levenshteinCell. simpl Nat.sub. rewrite !Nat.sub_0_r.
      rewrite (matrixGet_below (S i') (S j') i' j') by lia.
      rewrite (matrixGet_below (S i') (S j') i' (S j')) by lia.
      rewrite (matrixGet_current (S i') (S j') j') by lia.
      cbn [mbind option_bind].
      destruct (decide (charAt str2 i' = charAt str1 j'));
        rewrite <- Hstep; apply matrixSet_current. }
    rewrite Hcell. apply IH; lia.
Qed.

Lemma outer_loop n k :
  (k + n <= n2)%nat ->
  forLoop n (S k)
    (fun i matrix => forLoop n1 1 (levenshteinCell str1 str2 i) matrix)
    (mat k (S n1))
  = Some (mat (k + n) (S n1)).
Proof.
  revert k. induction n as [|n IH]; intros k Hk.
  - simpl. by rewrite Nat.add_0_r.
  - simpl. rewrite matrixAt_next_row by lia.
    rewrite inner_loop by lia. rewrite IH by lia. do 2 f_equal. lia.
Qed.

(** The distance is always a number, and it is the recursion [lev]. *)
Lemma levenshteinDistance_lev : levenshteinDistance str1 str2 = Some (lev str1 str2).
Proof.
  unfold levenshteinDistance.
  pose proof (first_loop (S n2) 0) as H1.
  change (stubRows 0 0) with (@nil (list nat)) in H1.
  change (0 + S n2)%nat with (S n2) in H1.
  rewrite H1. cbn [mbind option_bind]. clear H1.
  assert (H2 : forLoop (S n1) 0 (fun j matrix => matrixSet matrix 0 j j)
                 (stubRows 0 (S n2)) = Some (mat 0 (S n1))).
  { rewrite forLoop_S, stubRows_cons.
    change (matrixSet ([0%nat] :: stubRows 1 n2) 0 0 0)
      with (Some (seq 0 1 :: stubRows 1 n2)).
    cbn [mbind option_bind]. rewrite second_loop by lia.
    unfold matrixAt. rewrite filledRow_0, Nat.sub_0_r. reflexivity. }
  rewrite H2. cbn [mbind option_bind]. clear H2.
  rewrite (outer_loop n2 0) by lia. cbn [mbind option_bind].
  rewrite Nat.add_0_l, matrixGet_current by lia. f_equal.
  unfold levCell. rewrite !take_ge by lia.
  rewrite lev_reverse. apply lev_sym.
Qed.

End LevenshteinMatrix.

(** ** The fuzzy scan *)

(** The double of 0.1 is 7205759403792794 * 2^-56, and the bound of the
    scan is the floor of a rounded product: 50 * 0.58 gives 28 (the exact
    product is 29), 20 * 0.15 gives 3, 3 * (1/3) gives 1, 18 * 0.1 gives 1.
    A product that overflows gives no bound at all, and 0 * Infinity is
    NaN, which no distance is below. *)
Lemma floorOfProduct_examples :
  doubleOfQ (1 # 10) = S754_finite false 7205759403792794 (-56)
  /\ floorOfProduct 50 (58 # 100) = Integer 28
  /\ floorOfProduct 20 (15 # 100) = Integer 3
  /\ floorOfProduct 3 (1 # 3) = Integer 1
  /\ floorOfProduct 18 (1 # 10) = Integer 1
  /\ floorOfProduct 5 (10 ^ 400 # 1) = PlusInfinity
  /\ floorOfProduct 0 (10 ^ 400 # 1) = NotANumber
  /\ positive (1 # 10 ^ 400) = false.
Proof. by vm_compute. Qed.

Section FuzzyScan.

Variables text pattern : jsstring.
Variable maxDistance : Floored.

(** A distance within the bound is below every distance beyond it. *)
Lemma leFloored_lt a b :
  leFloored a maxDistance = true -> leFloored b maxDistance = false ->
  (a < b)%nat.
Proof. destruct maxDistance; simpl; try done. lia. Qed.

Lemma leFloored_le a b :
  (a <= b)%nat -> leFloored b maxDistance = true ->
  leFloored a maxDistance = true.
Proof. destruct maxDistance; simpl; try done. lia. Qed.

Lemma fuzzyScan_reports n : forall i best hi,
  0 <= i -> ((0 < n)%nat -> i + Z.of_nat n - 1 <= hi) ->
  fuzzyReport text pattern maxDistance hi best ->
  fuzzyReport text pattern maxDistance hi
    (fuzzyScan text pattern maxDistance n i best).
Proof.
  induction n as [|n IH]; intros i best hi Hi Hhi Hbest; [done|].
  specialize (Hhi ltac:(lia)).
  cbn [fuzzyScan]. rewrite levenshteinDistance_lev.
  set (w := substring text i (i + len pattern)).
  assert (Hnew : leFloored (lev w pattern) maxDistance = true ->
                 fuzzyReport text pattern maxDistance hi
                   (mkFuzzyMatch i (Some (lev w pattern)) w)).
  { intros Hle. right. exists (lev w pattern). simpl.
    repeat split; try lia; try done.
    - apply lev_attained.
    - apply lev_lower_bound. }
  destruct (leFloored (lev w pattern) maxDistance) eqn:Hle.
  - destruct (ltDistance (lev w pattern) (fm_distance best));
      destruct (lev w pattern <=? 2)%nat; auto; apply IH; auto; lia.
  - apply IH; auto; lia.
Qed.

Lemma fuzzyScan_nothing n : forall i best,
  fm_index best = -1 ->
  (forall k, i <= k < i + Z.of_nat n ->
     leFloored (lev (substring text k (k + len pattern)) pattern) maxDistance
     = false) ->
  fm_index (fuzzyScan text pattern maxDistance n i best) = -1.
Proof.
  induction n as [|n IH]; intros i best Hbest Hall; [done|].
  cbn [fuzzyScan]. rewrite levenshteinDistance_lev.
  rewrite (Hall i) by lia.
  apply IH; [done|]. intros k Hk. apply Hall. lia.
Qed.

End FuzzyScan.

Lemma fuzzySearch_reports text pattern tolerance :
  fuzzyReport text pattern (maxDistanceOf pattern tolerance)
    (scanBound text pattern)
    (fuzzySearchWithNormalization text pattern tolerance).
Proof.
  unfold fuzzySearchWithNormalization.
  apply fuzzyScan_reports; [lia|lia|by left].
Qed.

Lemma fuzzySearch_nothing text pattern tolerance :
  (forall k, 0 <= k <= scanBound text pattern ->
     leFloored (lev (substring text k (k + len pattern)) pattern)
       (maxDistanceOf pattern tolerance) = false) ->
  fm_index (fuzzySearchWithNormalization text pattern tolerance) = -1.
Proof.
  intros Hall. unfold fuzzySearchWithNormalization.
  apply fuzzyScan_nothing; [done|]. intros k Hk. apply Hall. lia.
Qed.

Lemma scanBound_fits text pattern :
  scanBound text pattern <= len text - len pattern.
Proof. unfold scanBound. lia. Qed.

Lemma len_substring s a b :
  0 <= a <= b -> b <= len s -> len (substring s a b) = b - a.
Proof.
  intros Ha Hb. unfold substring, clampIndex, len in *.
  rewrite length_take, length_drop. lia.
Qed.

(** ** [indexOf] finds exactly the infixes *)

Section IndexOf.

Lemma len_app (s t : jsstring) : len (s ++ t) = len s + len t.
Proof. unfold len. rewrite length_app. lia. Qed.

Lemma len_nonneg (s : jsstring) : 0 <= len s.
Proof. unfold len. lia. Qed.

Lemma startsWith_prefix p t : startsWith p t = true <-> exists r, t = p ++ r.
Proof.
  revert t. induction p as [|a p IH]; intros t; simpl.
  - split; [eauto | done].
  - destruct t as [|b t].
    + split; [done | intros [r Hr]; discriminate].
    + rewrite andb_true_iff, N.eqb_eq, IH. split.
      * intros [-> [r ->]]. eauto.
      * intros [r Hr]. injection Hr as -> ->. eauto.
Qed.

Lemma indexOfFrom_result p t : forall i,
  indexOfFrom t p i = -1 \/
  exists u v, t = u ++ p ++ v /\ indexOfFrom t p i = i + len u.
Proof.
  induction t as [|c t IH]; intros i; simpl.
  - destruct (startsWith p []) eqn:Hp; [|by left].
    right. apply startsWith_prefix in Hp as [r Hr].
    exists [], r. simpl. split; [done | unfold len; simpl; lia].
  - destruct (startsWith p (c :: t)) eqn:Hp.
    + right. apply startsWith_prefix in Hp as [r Hr].
      exists [], r. simpl. split; [done | unfold len; simpl; lia].
    + destruct (IH (i + 1)) as [Hn|(u & v & -> & Hr)]; [by left|].
      right. exists (c :: u), v. split; [done|].
      rewrite Hr. unfold len. simpl length. lia.
Qed.

Lemma indexOfFrom_infix p u v : forall t i,
  t = u ++ p ++ v -> i <= indexOfFrom t p i.
Proof.
  induction u as [|c u IH]; intros t i ->.
  - destruct (p ++ v) eqn:E; simpl;
      (replace (startsWith p _) with true; [lia|]);
      symmetry; apply startsWith_prefix; exists v; by rewrite <- E.
  - simpl. destruct (startsWith p (c :: u ++ p ++ v)); [lia|].
    specialize (IH (u ++ p ++ v) (i + 1) eq_refl). lia.
Qed.

(** A successful [indexOf] is an offset at which the pattern fits. *)
Lemma indexOf_bounds t p :
  indexOf t p <> -1 -> 0 <= indexOf t p /\ indexOf t p + len p <= len t.
Proof.
  unfold indexOf. intros Hne.
  destruct (indexOfFrom_result p t 0) as [|(u & v & -> & Hr)]; [done|].
  rewrite Hr, !len_app.
  pose proof (len_nonneg u). pose proof (len_nonneg v). lia.
Qed.

Lemma indexOf_found t p : indexOf t p <> -1 -> exists u v, t = u ++ p ++ v.
Proof.
  unfold indexOf. intros Hne.
  destruct (indexOfFrom_result p t 0) as [|(u & v & -> & Hr)]; [done|eauto].
Qed.

Lemma indexOf_of_infix u p v : indexOf (u ++ p ++ v) p <> -1.
Proof.
  unfold indexOf.
  pose proof (indexOfFrom_infix p u v (u ++ p ++ v) 0 eq_refl). lia.
Qed.

Lemma indexOf_empty t : indexOf t [] = 0.
Proof. unfold indexOf. by destruct t. Qed.

Lemma indexOf_too_long t p : len t < len p -> indexOf t p = -1.
Proof.
  intros Hlt. destruct (decide (indexOf t p = -1)) as [|Hne]; [done|].
  apply indexOf_bounds in Hne. lia.
Qed.

End IndexOf.

(** ** The normalizer *)

Section Normalizer.

Lemma normalizeText_unfold x :
  normalizeText x = trimEnd (trimStart (map normChar (replaceWsRuns false x))).
Proof.
  unfold normalizeText, trim, replaceClass. by rewrite !map_map.
Qed.

Lemma quote_classes_do_nothing c :
  replaceChar doubleQuoteClass 34 (replaceChar singleQuoteClass 39 c) = c.
Proof.
  unfold replaceChar, singleQuoteClass, doubleQuoteClass. simpl.
  destruct (c =? 39)%N eqn:E1; simpl.
  - by apply N.eqb_eq in E1 as ->.
  - destruct (c =? 34)%N eqn:E2; simpl; [by apply N.eqb_eq in E2 as ->|done].
Qed.

Lemma normChar_cases c :
  (c = 8211%N \/ c = 8212%N) /\ normChar c = 45%N
  \/ c <> 8211%N /\ c <> 8212%N /\ normChar c = c.
Proof.
  unfold normChar. rewrite quote_classes_do_nothing.
  unfold replaceChar, dashClass. simpl.
  destruct (c =? 8211)%N eqn:E1; simpl.
  - apply N.eqb_eq in E1. auto.
  - destruct (c =? 8212)%N eqn:E2; simpl.
    + apply N.eqb_eq in E2. auto.
    + apply N.eqb_neq in E1, E2. auto.
Qed.

Lemma normChar_whitespace c : isWhitespace (normChar c) = isWhitespace c.
Proof.
  destruct (normChar_cases c) as [[[->| ->] ->]|(_ & _ & ->)]; reflexivity.
Qed.

Lemma normChar_idem c : normChar (normChar c) = normChar c.
Proof.
  destruct (normChar_cases c) as [[_ ->]|(_ & _ & H)]; [reflexivity|].
  by rewrite !H.
Qed.

Lemma normChar_space : normChar 32 = 32%N.
Proof. reflexivity. Qed.

Lemma map_normChar_idem x : map normChar (map normChar x) = map normChar x.
Proof. rewrite map_map. apply map_ext. intros c. apply normChar_idem. Qed.

(** *** Collapsing whitespace runs *)

Lemma replaceWsRuns_idem x : forall b' b : bool,
  (b' = true -> b = true) ->
  replaceWsRuns b' (replaceWsRuns b x) = replaceWsRuns b x.
Proof.
  induction x as [|c r IH]; intros b' b Hb; [done|].
  simpl. destruct (isWhitespace c) eqn:Hc.
  - destruct b.
    + by apply IH.
    + destruct b'; [by specialize (Hb eq_refl)|].
      simpl. change (isWhitespace 32) with true. cbn iota.
      f_equal. by apply IH.
  - simpl. rewrite Hc. f_equal. by apply IH.
Qed.

Lemma replaceWsRuns_map b x :
  replaceWsRuns b (map normChar x) = map normChar (replaceWsRuns b x).
Proof.
  revert b. induction x as [|c r IH]; intros b; [done|].
  simpl. rewrite normChar_whitespace.
  destruct (isWhitespace c); [destruct b|]; simpl; by rewrite IH.
Qed.

Lemma replaceWsRuns_app_nonws a : isWhitespace a = false ->
  forall x b r,
  replaceWsRuns b (x ++ a :: r) = replaceWsRuns b x ++ replaceWsRuns false (a :: r).
Proof.
  intros Ha. induction x as [|c x IH]; intros b r.
  - simpl. by rewrite Ha.
  - simpl. destruct (isWhitespace c); [destruct b|]; simpl; by rewrite IH.
Qed.

Lemma replaceWsRuns_app_prefix x : forall b y,
  exists y', replaceWsRuns b (x ++ y) = replaceWsRuns b x ++ y'.
Proof.
  induction x as [|c x IH]; intros b y.
  - simpl. eauto.
  - simpl. destruct (isWhitespace c); [destruct b|];
      (match goal with |- context [replaceWsRuns ?f (x ++ y)] =>
         destruct (IH f y) as [y' ->] end); eauto.
Qed.

(** *** Trimming *)

Lemma trimStart_map x : trimStart (map normChar x) = map normChar (trimStart x).
Proof.
  induction x as [|c r IH]; [done|].
  simpl. rewrite normChar_whitespace. by destruct (isWhitespace c).
Qed.

Lemma trimEnd_map x : trimEnd (map normChar x) = map normChar (trimEnd x).
Proof.
  induction x as [|c r IH]; [done|].
  simpl. rewrite IH, normChar_whitespace.
  destruct (trimEnd r); simpl; [by destruct (isWhitespace c)|done].
Qed.

Lemma trimStart_idem x : trimStart (trimStart x) = trimStart x.
Proof.
  induction x as [|c r IH]; [done|].
  simpl. destruct (isWhitespace c) eqn:Hc; [done|]. simpl. by rewrite Hc.
Qed.

Lemma trimEnd_cons_nonempty c r :
  trimEnd r <> [] -> trimEnd (c :: r) = c :: trimEnd r.
Proof. simpl. by destruct (trimEnd r). Qed.

Lemma trimEnd_cons_empty c r :
  trimEnd r = [] -> trimEnd (c :: r) = if isWhitespace c then [] else [c].
Proof. simpl. by intros ->. Qed.

Lemma trimEnd_idem x : trimEnd (trimEnd x) = trimEnd x.
Proof.
  induction x as [|c r IH]; [done|].
  destruct (decide (trimEnd r = [])) as [He|Hne].
  - rewrite trimEnd_cons_empty by done.
    destruct (isWhitespace c) eqn:Hc; [done|]. simpl. by rewrite Hc.
  - rewrite trimEnd_cons_nonempty by done.
    rewrite trimEnd_cons_nonempty by (by rewrite IH). by rewrite IH.
Qed.

Lemma trimStart_head x a r : trimStart x = a :: r -> isWhitespace a = false.
Proof.
  induction x as [|c x IH]; [done|].
  simpl. destruct (isWhitespace c) eqn:Hc; [done|]. by intros [= <- _].
Qed.

Lemma trimStart_nonws a r : isWhitespace a = false -> trimStart (a :: r) = a :: r.
Proof. simpl. by intros ->. Qed.

Lemma trimStart_trimEnd x : trimStart (trimEnd x) = trimEnd (trimStart x).
Proof.
  induction x as [|c r IH]; [done|].
  destruct (isWhitespace c) eqn:Hc.
  - simpl trimStart at 2. rewrite Hc, <- IH.
    destruct (decide (trimEnd r = [])) as [He|Hne].
    + rewrite trimEnd_cons_empty, Hc, He by done. done.
    + rewrite trimEnd_cons_nonempty by done. simpl. by rewrite Hc.
  - rewrite (trimStart_nonws c r Hc).
    destruct (decide (trimEnd r = [])) as [He|Hne].
    + rewrite trimEnd_cons_empty, Hc by done. simpl. by rewrite Hc.
    + rewrite trimEnd_cons_nonempty by done. simpl. by rewrite Hc.
Qed.

Lemma trimStart_split x : exists w, x = w ++ trimStart x.
Proof.
  induction x as [|c r [w IH]]; [by exists []|].
  simpl. destruct (isWhitespace c).
  - exists (c :: w). simpl. by rewrite <- IH.
  - by exists [].
Qed.

Lemma trimEnd_split x : exists w, x = trimEnd x ++ w.
Proof.
  induction x as [|c r [w IH]]; [by exists []|].
  destruct (decide (trimEnd r = [])) as [He|Hne].
  - rewrite trimEnd_cons_empty by done. rewrite He in IH. simpl in IH.
    destruct (isWhitespace c); [by exists (c :: r)|exists r; done].
  - rewrite trimEnd_cons_nonempty by done. exists w. simpl. by rewrite <- IH.
Qed.

Lemma trimStart_app_nonws a : isWhitespace a = false ->
  forall x r, exists x', trimStart (x ++ a :: r) = x' ++ a :: r.
Proof.
  intros Ha. induction x as [|c x IH]; intros r.
  - exists []. simpl. by rewrite Ha.
  - simpl. destruct (isWhitespace c); [apply IH|by exists (c :: x)].
Qed.

Lemma trimEnd_app_nonempty x r :
  trimEnd r <> [] -> trimEnd (x ++ r) = x ++ trimEnd r.
Proof.
  intros Hr. induction x as [|c x IH]; [done|].
  simpl app. rewrite trimEnd_cons_nonempty; rewrite IH; [done|].
  by destruct x.
Qed.

Lemma trimEnd_app_blank y z : trimEnd z = [] -> trimEnd (y ++ z) = trimEnd y.
Proof.
  intros Hz. induction y as [|c y IH]; [done|].
  simpl. by rewrite IH.
Qed.

Lemma trimEnd_app_kept y z :
  trimEnd y = y -> y <> [] -> exists z', trimEnd (y ++ z) = y ++ z'.
Proof.
  intros Hy Hne. destruct (decide (trimEnd z = [])) as [He|Hz].
  - exists []. by rewrite trimEnd_app_blank, app_nil_r.
  - exists (trimEnd z). by apply trimEnd_app_nonempty.
Qed.

(** *** Collapsing commutes with trimming *)

Lemma replaceWsRuns_true_trimmed x :
  trimStart (replaceWsRuns true x) = replaceWsRuns true x.
Proof.
  induction x as [|c r IH]; [done|].
  simpl. destruct (isWhitespace c) eqn:Hc; [done|]. simpl. by rewrite Hc.
Qed.

Lemma replaceWsRuns_trimStart x :
  replaceWsRuns false (trimStart x) = trimStart (replaceWsRuns false x).
Proof.
  induction x as [|c r IH]; [done|].
  simpl. destruct (isWhitespace c) eqn:Hc.
  - simpl. rewrite replaceWsRuns_true_trimmed.
    clear IH. induction r as [|d r IH]; [done|].
    simpl. destruct (isWhitespace d) eqn:Hd; [done|]. simpl. by rewrite Hd.
  - simpl. by rewrite Hc.
Qed.

Lemma replaceWsRuns_nil b x : replaceWsRuns b x = [] -> trimEnd x = [].
Proof.
  revert b. induction x as [|c r IH]; intros b; [done|].
  simpl. destruct (isWhitespace c); [destruct b|]; try done.
  intros H. by rewrite (IH _ H).
Qed.

Lemma replaceWsRuns_trimEnd x : forall b,
  replaceWsRuns b (trimEnd x) = trimEnd (replaceWsRuns b x).
Proof.
  induction x as [|c r IH]; intros b; [done|].
  destruct (decide (trimEnd r = [])) as [He|Hne].
  - rewrite trimEnd_cons_empty by done.
    assert (Hr : forall f, trimEnd (replaceWsRuns f r) = [])
      by (intros f; by rewrite <- IH, He).
    cbn [replaceWsRuns]. destruct (isWhitespace c) eqn:Hc.
    + destruct b; [by rewrite Hr|].
      rewrite trimEnd_cons_empty by apply Hr. done.
    + cbn [replaceWsRuns]. rewrite Hc.
      rewrite trimEnd_cons_empty by apply Hr. by rewrite Hc.
  - rewrite trimEnd_cons_nonempty by done.
    assert (Hr : forall f, trimEnd (replaceWsRuns f r) <> []).
    { intros f Hf. rewrite <- IH in Hf. apply replaceWsRuns_nil in Hf.
      by rewrite trimEnd_idem in Hf. }
    cbn [replaceWsRuns]. destruct (isWhitespace c) eqn:Hc.
    + destruct b; [apply IH|].
      rewrite trimEnd_cons_nonempty by apply Hr. by rewrite IH.
    + rewrite trimEnd_cons_nonempty by apply Hr. by rewrite IH.
Qed.

(** Normalizing is collapsing and mapping the trimmed text. *)
Lemma normalizeText_trim_first x :
  normalizeText x = map normChar (replaceWsRuns false (trim x)).
Proof.
  rewrite normalizeText_unfold. unfold trim.
  by rewrite trimStart_map, trimEnd_map, <- replaceWsRuns_trimStart,
    <- replaceWsRuns_trimEnd.
Qed.

Lemma trim_idem x : trim (trim x) = trim x.
Proof.
  unfold trim.
  by rewrite <- trimStart_trimEnd, trimEnd_idem, trimStart_trimEnd,
    trimStart_idem.
Qed.

Lemma normalizeText_idempotent x :
  normalizeText (normalizeText x) = normalizeText x.
Proof.
  rewrite (normalizeText_unfold (normalizeText x)).
  rewrite (normalizeText_trim_first x).
  rewrite replaceWsRuns_map, replaceWsRuns_idem by done.
  rewrite map_normChar_idem.
  by rewrite <- normalizeText_unfold, normalizeText_trim_first, trim_idem.
Qed.

(** A text found inside another is still found inside it after both are
    normalized. *)
Lemma normalizeText_infix u s v :
  exists u' v', normalizeText (u ++ s ++ v) = u' ++ normalizeText s ++ v'.
Proof.
  rewrite (normalizeText_trim_first s).
  destruct (trim s) as [|a c'] eqn:Hc; [by exists [], (normalizeText (u ++ s ++ v))|].
  assert (Ha : isWhitespace a = false).
  { unfold trim in Hc. rewrite <- trimStart_trimEnd in Hc.
    by apply trimStart_head in Hc. }
  assert (Hkeep : trimEnd (a :: c') = a :: c')
    by (rewrite <- Hc; unfold trim; apply trimEnd_idem).
  destruct (trimStart_split s) as [w1 Hs].
  destruct (trimEnd_split (trimStart s)) as [w2 Hs'].
  fold (trim s) in Hs'. rewrite Hc in Hs'.
  assert (Hp : u ++ s ++ v = (u ++ w1) ++ a :: (c' ++ w2 ++ v)).
  { rewrite Hs, Hs'. by rewrite <- !app_assoc. }
  rewrite normalizeText_unfold, Hp, (replaceWsRuns_app_nonws a Ha).
  destruct (replaceWsRuns_app_prefix (a :: c') false (w2 ++ v)) as [y' Hy'].
  change (a :: c' ++ w2 ++ v) with ((a :: c') ++ w2 ++ v). rewrite Hy'.
  rewrite !map_app.
  set (Y := map normChar (replaceWsRuns false (a :: c'))).
  assert (HY : exists rest, Y = normChar a :: rest).
  { unfold Y. simpl. rewrite Ha. simpl. eauto. }
  destruct HY as [rest HY].
  assert (HYkeep : trimEnd Y = Y).
  { unfold Y. by rewrite trimEnd_map, <- replaceWsRuns_trimEnd, Hkeep. }
  assert (HYne : Y <> []) by (by rewrite HY).
  destruct (trimStart_app_nonws (normChar a)
              ltac:(by rewrite normChar_whitespace)
              (map normChar (replaceWsRuns false (u ++ w1)))
              (rest ++ map normChar y')) as [x' Hx'].
  change (normChar a :: rest ++ map normChar y')
    with ((normChar a :: rest) ++ map normChar y') in Hx'.
  rewrite <- HY in Hx'. rewrite Hx'.
  destruct (trimEnd_app_kept Y (map normChar y') HYkeep HYne) as [z' Hz'].
  rewrite trimEnd_app_nonempty; rewrite Hz'.
  - by exists x', z'.
  - by destruct Y.
Qed.

(** Hence the last strategy can only find what the first one has found. *)
Lemma raw_match_is_exact_match pageText searchText :
  indexOf pageText searchText <> -1 ->
  indexOf (normalizeText pageText) (normalizeText searchText) <> -1.
Proof.
  intros Hraw. apply indexOf_found in Hraw as (u & v & ->).
  destruct (normalizeText_infix u searchText v) as (u' & v' & ->).
  apply indexOf_of_infix.
Qed.

End Normalizer.

(** ** The strategy chain on one page *)

Section MatchStrategies.

Context (rt : Runtime).

(** Which strategies can answer, and with what.  The raw fallback is
    absent: it is tried only after the exact strategy has failed, and
    then it fails as well. *)
Lemma searchPage_cases instruction options page c :
  searchPage rt instruction options page = Some c ->
  let ns := normalizeText (foldCase rt instruction (instr_text instruction)) in
  let np := normalizeText (foldCase rt instruction (text page)) in
  let r := fuzzySearchWithNormalization np ns (matchTolerance options) in
  mc_page c = page /\
  ((mc_strategy c = Exact /\ mc_matchedSubstring c = ns
    /\ mc_charOffset c = indexOf np ns /\ indexOf np ns <> -1
    /\ mc_editDistance c = None)
   \/ (mc_strategy c = Partial50 /\ 50 < len ns
       /\ mc_matchedSubstring c = substring ns 0 50
       /\ mc_charOffset c = indexOf np (substring ns 0 50)
       /\ indexOf np (substring ns 0 50) <> -1
       /\ mc_editDistance c = None)
   \/ (mc_strategy c = Partial30 /\ 30 < len ns
       /\ mc_matchedSubstring c = substring ns 0 30
       /\ mc_charOffset c = indexOf np (substring ns 0 30)
       /\ indexOf np (substring ns 0 30) <> -1
       /\ mc_editDistance c = None)
   \/ (mc_strategy c = Fuzzy /\ positive (matchTolerance options) = true
       /\ mc_matchedSubstring c = fm_matchedText r
       /\ mc_charOffset c = fm_index r /\ fm_index r <> -1
       /\ mc_editDistance c = fm_distance r)).
Proof.
  intros Hc ns np r. unfold searchPage in Hc. fold ns np r in Hc.
  destruct (indexOf np ns =? -1) eqn:E0; simpl in Hc.
  2:{ apply Z.eqb_neq in E0. injection Hc as <-. simpl. auto 10. }
  destruct ((50 <? len ns) && negb (indexOf np (substring ns 0 50) =? -1))
    eqn:E50.
  { apply andb_true_iff in E50 as [H50 Hi].
    apply Z.ltb_lt in H50. apply negb_true_iff, Z.eqb_neq in Hi.
    injection Hc as <-. simpl. auto 10. }
  destruct ((30 <? len ns) && negb (indexOf np (substring ns 0 30) =? -1))
    eqn:E30.
  { apply andb_true_iff in E30 as [H30 Hi].
    apply Z.ltb_lt in H30. apply negb_true_iff, Z.eqb_neq in Hi.
    injection Hc as <-. simpl. auto 10. }
  destruct (positive (matchTolerance options) && negb (fm_index r =? -1))
    eqn:Ef.
  { apply andb_true_iff in Ef as [Hpos Hi].
    apply negb_true_iff, Z.eqb_neq in Hi.
    injection Hc as <-. simpl. auto 15. }
  destruct (indexOf (foldCase rt instruction (text page))
              (foldCase rt instruction (instr_text instruction)) =? -1)
    eqn:Eraw; simpl in Hc; [done|].
  apply Z.eqb_neq, raw_match_is_exact_match in Eraw.
  apply Z.eqb_eq in E0. by fold ns np in Eraw.
Qed.

Lemma searchPage_within_page instruction options page c :
  searchPage rt instruction options page = Some c ->
  0 <= mc_charOffset c
  /\ mc_charOffset c + len (mc_matchedSubstring c)
     <= len (normalizeText (foldCase rt instruction (text page))).
Proof.
  intros Hc. apply searchPage_cases in Hc as (_ & Hcases).
  destruct Hcases as [H|[H|[H|H]]].
  - destruct H as (_ & -> & -> & Hi & _). by apply indexOf_bounds.
  - destruct H as (_ & _ & -> & -> & Hi & _). by apply indexOf_bounds.
  - destruct H as (_ & _ & -> & -> & Hi & _). by apply indexOf_bounds.
  - destruct H as (_ & _ & -> & -> & Hi & _).
    destruct (fuzzySearch_reports
                (normalizeText (foldCase rt instruction (text page)))
                (normalizeText (foldCase rt instruction (instr_text instruction)))
                (matchTolerance options))
      as [|(d & _ & _ & _ & Hm & Hlo & Hhi)]; [done|].
    pose proof (scanBound_fits
                  (normalizeText (foldCase rt instruction (text page)))
                  (normalizeText (foldCase rt instruction (instr_text instruction)))).
    pose proof (len_nonneg
                  (normalizeText (foldCase rt instruction (instr_text instruction)))).
    rewrite Hm. rewrite len_substring by lia. lia.
Qed.

Lemma searchPage_not_raw instruction options page c :
  searchPage rt instruction options page = Some c ->
  mc_strategy c <> RawFallback.
Proof.
  intros Hc. apply searchPage_cases in Hc as (_ & Hcases).
  destruct Hcases as [H|[H|[H|H]]]; destruct H as (-> & _); done.
Qed.

Lemma searchPages_found instruction options ps c :
  searchPages rt instruction options ps = Some c ->
  exists page, page ∈ ps /\ searchPage rt instruction options page = Some c.
Proof.
  induction ps as [|page rest IH]; [done|]. simpl.
  destruct (searchPage rt instruction options page) as [c'|] eqn:Hp.
  - intros [= ->]. exists page. split; [left|done].
  - destruct (firstMatchOnly options); [done|].
    intros H. destruct (IH H) as (q & Hq & Hs). exists q. split; [by right|done].
Qed.

Lemma pagesToSearch_subset extractedText instruction page :
  page ∈ pagesToSearch extractedText instruction -> page ∈ pages extractedText.
Proof.
  unfold pagesToSearch. destruct (truthyNumber _); [|done].
  intros H. by apply list_elem_of_filter in H as [_ H].
Qed.

End MatchStrategies.

(** ** Fuzzy candidates stay within the tolerance *)

(** C5, as the code has it.  A result of [fuzzySearchWithNormalization]
    other than index -1 carries a distance that is the Levenshtein distance
    (least number of unit-cost insertions, deletions and substitutions)
    between the matched window and the pattern, the window being the one at
    the reported index inside the scan bound, and that distance is at most
    [Math.floor(pattern.length * tolerance)] as JavaScript computes it: the
    floor of the binary64 product.  The result is index -1 whenever every
    window within the scan bound has a Levenshtein distance above that
    bound.  The same bound holds for every candidate the Fuzzy strategy
    reports through [searchPage]. *)
Theorem fuzzy_candidate_within_tolerance :
  (forall (text pattern : jsstring) (tolerance : Q),
     let r := fuzzySearchWithNormalization text pattern tolerance in
     let maxDistance := floorOfProduct (len pattern) tolerance in
     (fm_index r <> -1 ->
      exists d, fm_distance r = Some d
        /\ isLevenshtein (fm_matchedText r) pattern d
        /\ leFloored d maxDistance = true
        /\ fm_matchedText r
           = substring text (fm_index r) (fm_index r + len pattern)
        /\ 0 <= fm_index r <= scanBound text pattern)
     /\ ((forall i d, 0 <= i <= scanBound text pattern ->
            isLevenshtein (substring text i (i + len pattern)) pattern d ->
            leFloored d maxDistance = false) ->
         fm_index r = -1))
  /\ (forall rt instruction options page c,
        searchPage rt instruction options page = Some c ->
        mc_strategy c = Fuzzy ->
        let pattern :=
          normalizeText (foldCase rt instruction (instr_text instruction)) in
        exists d, mc_editDistance c = Some d
          /\ isLevenshtein (mc_matchedSubstring c) pattern d
          /\ leFloored d (floorOfProduct (len pattern) (matchTolerance options))
             = true).
Proof.
  split.
  - intros text pattern tolerance r maxDistance. split.
    + intros Hfound.
      destruct (fuzzySearch_reports text pattern tolerance) as [|H]; [done|].
      exact H.
    + intros Hall. apply fuzzySearch_nothing. intros k Hk.
      apply (Hall k); [done | apply lev_isLevenshtein].
  - intros rt instruction options page c Hc Hs pattern.
    apply searchPage_cases in Hc as (_ & [H|[H|[H|H]]]);
      try (destruct H as (Hs' & _); congruence).
    destruct H as (_ & _ & -> & _ & Hi & ->).
    destruct (fuzzySearch_reports
                (normalizeText (foldCase rt instruction (text page)))
                pattern (matchTolerance options))
      as [|(d & Hd & Hlev & Hle & _)]; [done|].
    exists d. auto.
Qed.

(** On a page that holds a misspelt word the bound, floor(9 * 0.2) = 1, is
    met with distance 1. *)
Lemma fuzzy_candidate_within_tolerance_witness :
  let text := str "the important findings" in
  let pattern := str "importent" in
  let r := fuzzySearchWithNormalization text pattern (2 # 10) in
  fm_index r = 4
  /\ floorOfProduct (len pattern) (2 # 10) = Integer 1
  /\ exists d, fm_distance r = Some d
       /\ isLevenshtein (fm_matchedText r) pattern d
       /\ leFloored d (floorOfProduct (len pattern) (2 # 10)) = true
       /\ fm_matchedText r = substring text (fm_index r) (fm_index r + len pattern)
       /\ 0 <= fm_index r <= scanBound text pattern.
Proof.
  split; [by vm_compute|]. split; [by vm_compute|].
  apply (proj1 fuzzy_candidate_within_tolerance
           (str "the important findings") (str "importent") (2 # 10)).
  by vm_compute.
Defined.

(** The bound of the code is not the floor of the exact product.  With the
    tolerance 0.3333333333333333 and a pattern of 3 characters the exact
    product is below 1, but the binary64 product is 1: the window "abd" is
    reported for the pattern "abc" at distance 1, above
    floor(3 * 0.3333333333333333) = 0.  With the tolerance 0.58 and a
    length of 50 the code's bound, 28, is below the exact floor, 29. *)
Lemma fuzzy_candidate_above_exact_floor :
  let tolerance := 3333333333333333 # 10000000000000000 in
  let r := fuzzySearchWithNormalization (str "abd") (str "abc") tolerance in
  fm_index r = 0
  /\ fm_distance r = Some 1%nat
  /\ isLevenshtein (fm_matchedText r) (str "abc") 1
  /\ Qfloor (inject_Z (len (str "abc")) * tolerance) = 0
  /\ ~ (forall d, fm_distance r = Some d ->
          Z.of_nat d <= Qfloor (inject_Z (len (str "abc")) * tolerance))
  /\ (mc_editDistance
        <$> searchPage sampleRuntime (highlightOf "abc")
              (mkOptions tolerance true true true) (mkPageText 1 (str "abd")))
     = Some (Some 1%nat)
  /\ floorOfProduct 50 (58 # 100) = Integer 28
  /\ Qfloor (inject_Z 50 * (58 # 100)) = 29.
Proof.
  intros tolerance r.
  split; [by vm_compute|]. split; [by vm_compute|]. split.
  { replace (fm_matchedText r) with (str "abd") by (by vm_compute).
    apply (lev_isLevenshtein (str "abd") (str "abc")). }
  split; [by vm_compute|]. split; [|by vm_compute].
  intros H. specialize (H 1%nat ltac:(by vm_compute)). by vm_compute in H.
Qed.

(** ** Matches lie inside the page *)

(** C6, as the code has it.  Whatever strategy produced a candidate, on
    whatever page, the reported offset is non-negative and the matched
    substring fits between it and the end of the text the strategies
    search: the page's text lower-cased, unless the instruction is
    case-sensitive, and then normalized.  For a case-sensitive instruction
    that text is the page's normalized text.  The page is one of the
    document's. *)
Theorem match_lies_within_page rt extractedText instruction options c :
  findMatch rt extractedText instruction options = Some c ->
  mc_page c ∈ pages extractedText
  /\ 0 <= mc_charOffset c
  /\ mc_charOffset c + len (mc_matchedSubstring c)
     <= len (normalizeText (foldCase rt instruction (text (mc_page c))))
  /\ (instr_caseSensitive instruction = Some true ->
      mc_charOffset c + len (mc_matchedSubstring c)
      <= len (normalizeText (text (mc_page c)))).
Proof.
  unfold findMatch. intros Hc.
  apply searchPages_found in Hc as (page & Hin & Hc).
  pose proof (searchPage_cases rt _ _ _ _ Hc) as [-> _].
  split; [by apply pagesToSearch_subset in Hin|].
  apply searchPage_within_page in Hc as [H0 Hfit].
  split; [done|]. split; [done|].
  intros Hcs. unfold foldCase in Hfit. by rewrite Hcs in Hfit.
Qed.

Lemma match_lies_within_page_witness :
  let c := mkCandidate Exact (mkPageText 1 (str "nothing of interest here"))
             11 (str "interest") None in
  mc_page c ∈ pages fourPages
  /\ 0 <= mc_charOffset c
  /\ mc_charOffset c + len (mc_matchedSubstring c)
     <= len (normalizeText
               (foldCase sampleRuntime (highlightOf "Interest") (text (mc_page c))))
  /\ (instr_caseSensitive (highlightOf "Interest") = Some true ->
      mc_charOffset c + len (mc_matchedSubstring c)
      <= len (normalizeText (text (mc_page c)))).
Proof.
  apply (match_lies_within_page sampleRuntime fourPages (highlightOf "Interest")
           DEFAULT_ANNOTATION_OPTIONS).
  by vm_compute.
Defined.

(** The bound is not the length of the page's normalized text when
    lower-casing lengthens the page: the lower case of U+0130 is two code
    units long.  On a page of five U+0130 followed by "abc", 8 characters
    once normalized, the pattern "abc" is matched at offset 10. *)
Lemma match_beyond_normalized_page :
  let page := mkPageText 1 ([304; 304; 304; 304; 304]%N ++ str "abc") in
  let found :=
    findMatch dottedRuntime (mkExtractedText [page] 1) (highlightOf "abc")
      DEFAULT_ANNOTATION_OPTIONS in
  found = Some (mkCandidate Exact page 10 (str "abc") None)
  /\ len (normalizeText (text page)) = 8
  /\ ~ (forall c, found = Some c ->
          mc_charOffset c + len (mc_matchedSubstring c)
          <= len (normalizeText (text (mc_page c)))).
Proof.
  split; [by vm_compute|]. split; [by vm_compute|].
  intros H. specialize (H _ ltac:(by vm_compute)). by vm_compute in H.
Qed.

(** ** The page loop under [firstMatchOnly] *)

Section PageLoop.

Context (rt : Runtime).

(** With [firstMatchOnly] set, only the first page to search is examined. *)
Lemma searchPages_first_page_only instruction options page rest :
  firstMatchOnly options = true ->
  searchPages rt instruction options (page :: rest)
  = searchPage rt instruction options page.
Proof.
  intros Hf. simpl. rewrite Hf.
  by destruct (searchPage rt instruction options page).
Qed.

(** Without it, the first page with a match answers. *)
Lemma searchPages_skips_failures instruction options page rest :
  firstMatchOnly options = false ->
  searchPage rt instruction options page = None ->
  searchPages rt instruction options (page :: rest)
  = searchPages rt instruction options rest.
Proof. intros Hf Hp. simpl. by rewrite Hp, Hf. Qed.

Lemma searchPages_all_fail instruction options ps :
  (forall page, page ∈ ps -> searchPage rt instruction options page = None) ->
  searchPages rt instruction options ps = None.
Proof.
  induction ps as [|page rest IH]; intros Hall; [done|].
  simpl. rewrite (Hall page) by left.
  destruct (firstMatchOnly options); [done|].
  apply IH. intros q Hq. apply Hall. by right.
Qed.

End PageLoop.

(** C1 (code defect).  On a document whose page 1 lacks the pattern and
    whose pages 2 and 4 hold it verbatim, [findTextPosition] with
    [firstMatchOnly = true] and no page restriction returns no candidate:
    the loop ends after page 1.  With [firstMatchOnly = false] the same
    search reports page 2. *)
Theorem first_match_only_misses_later_pages :
  let pattern := highlightOf "total revenue" in
  indexOf (str "nothing of interest here") (instr_text pattern) = -1
  /\ indexOf (str "the total revenue grew") (instr_text pattern) = 4
  /\ indexOf (str "again total revenue fell") (instr_text pattern) = 6
  /\ firstMatchOnly DEFAULT_ANNOTATION_OPTIONS = true
  /\ findTextPosition sampleRuntime fourPages pattern DEFAULT_ANNOTATION_OPTIONS
     = None
  /\ tp_pageNumber
       <$> findTextPosition sampleRuntime fourPages pattern
             (mkOptions (1 # 10) false true true)
     = Some 2.
Proof. by vm_compute. Qed.

(** ** The normalizer on quotes, dashes and whitespace *)

Lemma normalizeText_example :
  normalizeText (str "a" ++ [10; 9; 32; 32]%N ++ str "b") = str "a b".
Proof. reflexivity. Qed.

Lemma normalizeText_dashes :
  normalizeText (str "a" ++ [8211]%N ++ str "b" ++ [8212]%N ++ str "c")
  = str "a-b-c".
Proof. reflexivity. Qed.

(** C7 (code defect).  [normalizeText] leaves the curly quotes U+2018 and
    U+2019 (and U+201C, U+201D) as they are: the two quote classes of the
    source hold only the ASCII quotes.  So the text U+2018 x U+2019 is not
    normalized to 'x'. *)
Theorem normalizeText_keeps_curly_quotes :
  normalizeText ([8216]%N ++ str "x" ++ [8217]%N) = [8216; 120; 8217]%N
  /\ normalizeText ([8216]%N ++ str "x" ++ [8217]%N) <> str "'x'"
  /\ normalizeText [8220; 120; 8221]%N = [8220; 120; 8221]%N.
Proof. by vm_compute. Qed.

(** ** The position estimate *)

(** C8, as the code has it.  The estimated rectangle has x = 50,
    width = 6 per matched character, height = 12 and
    y = 700 - floor(charOffset / 100) * 20, with no clamping: y is at most
    700 for a non-negative offset, and it is below zero exactly when the
    offset is 3600 or more. *)
Theorem createTextPosition_formula pageNumber originalText charIndex matchedText :
  let p := createTextPosition pageNumber originalText charIndex matchedText in
  tp_pageNumber p = pageNumber
  /\ tp_x p = 50
  /\ tp_width p = len matchedText * 6
  /\ tp_height p = 12
  /\ tp_y p = 700 - (charIndex / 100) * 20
  /\ (0 <= charIndex -> tp_y p <= 700)
  /\ (tp_y p < 0 <-> 3600 <= charIndex).
Proof.
  simpl. repeat split; try lia.
  - intros H. pose proof (Z.div_pos charIndex 100 H). lia.
  - intros H. assert (35 < charIndex / 100) by lia.
    destruct (Z.lt_ge_cases charIndex 3600) as [Hlt|]; [|done].
    assert (charIndex / 100 <= 3599 / 100) by (apply Z.div_le_mono; lia).
    change (3599 / 100) with 35 in *. lia.
  - intros H. assert (3600 / 100 <= charIndex / 100)
      by (apply Z.div_le_mono; lia).
    change (3600 / 100) with 36 in *. lia.
Qed.

Lemma createTextPosition_formula_witness :
  let p := createTextPosition 1 (str "x") 250 (str "x") in
  tp_pageNumber p = 1
  /\ tp_x p = 50
  /\ tp_width p = len (str "x") * 6
  /\ tp_height p = 12
  /\ tp_y p = 700 - (250 / 100) * 20
  /\ (0 <= 250 -> tp_y p <= 700)
  /\ (tp_y p < 0 <-> 3600 <= 250).
Proof. apply (createTextPosition_formula 1 (str "x") 250 (str "x")). Defined.

(** At offset 3600 the estimate is 20 points below the page's lower edge,
    hence below every bottom margin. *)
Lemma createTextPosition_not_clamped :
  tp_y (createTextPosition 1 (str "x") 3600 (str "x")) = -20
  /\ ~ (forall bottomMargin charIndex,
          0 <= bottomMargin -> 0 <= charIndex ->
          bottomMargin
          <= tp_y (createTextPosition 1 (str "x") charIndex (str "x"))).
Proof.
  split; [reflexivity|].
  intros H. specialize (H 0 3600 ltac:(lia) ltac:(lia)). by vm_compute in H.
Qed.

(** ** Default options *)

(** C9 (code defect).  Without caller options the tolerance is 0.1, not
    0.15; [firstMatchOnly] is true and an instruction without
    [caseSensitive] is matched case-insensitively. *)
Theorem default_tolerance_is_one_tenth :
  matchTolerance (mergeOptions None) = 1 # 10
  /\ ~ (matchTolerance (mergeOptions None) == 15 # 100)
  /\ firstMatchOnly (mergeOptions None) = true
  /\ truthyBool (instr_caseSensitive (highlightOf "x")) = false.
Proof. repeat split. by vm_compute. Qed.

(** ** Degenerate patterns *)

Section Degenerate.

Context (rt : Runtime).

Lemma fuzzySearch_too_long text pattern tolerance :
  len text < len pattern ->
  fm_index (fuzzySearchWithNormalization text pattern tolerance) = -1.
Proof.
  intros Hlt. unfold fuzzySearchWithNormalization.
  pose proof (scanBound_fits text pattern).
  by replace (Z.to_nat (scanBound text pattern + 1)) with 0%nat by lia.
Qed.

(** A page whose normalized text is shorter than the normalized pattern
    and shorter than 30 characters matches by no strategy: it is too short
    for the pattern, for its first 50 and for its first 30 characters. *)
Lemma searchPage_too_long instruction options page :
  let ns := normalizeText (foldCase rt instruction (instr_text instruction)) in
  len (normalizeText (foldCase rt instruction (text page)))
  < Z.min (len ns) 30 ->
  searchPage rt instruction options page = None.
Proof.
  intros ns Hlt.
  destruct (searchPage rt instruction options page) as [c|] eqn:Hc; [|done].
  apply searchPage_cases in Hc as (_ & [H|[H|[H|H]]]); fold ns in H.
  - destruct H as (_ & _ & _ & Hi & _).
    rewrite indexOf_too_long in Hi; [done | lia].
  - destruct H as (_ & H50 & _ & _ & Hi & _).
    rewrite indexOf_too_long in Hi; [done|].
    rewrite len_substring; lia.
  - destruct H as (_ & H30 & _ & _ & Hi & _).
    rewrite indexOf_too_long in Hi; [done|].
    rewrite len_substring; lia.
  - destruct H as (_ & _ & _ & _ & Hi & _).
    rewrite fuzzySearch_too_long in Hi; [done | lia].
Qed.

Lemma searchPage_empty_pattern instruction options page :
  normalizeText (foldCase rt instruction (instr_text instruction)) = [] ->
  searchPage rt instruction options page = Some (mkCandidate Exact page 0 [] None).
Proof.
  intros Hns. unfold searchPage. by rewrite Hns, indexOf_empty.
Qed.

Lemma applyAnnotation_not_found pdfDoc extractedText instruction options :
  findTextPosition rt extractedText instruction options = None ->
  applyAnnotation rt pdfDoc extractedText instruction options
  = (pdfDoc, failure instruction textNotFound).
Proof. intros H. unfold applyAnnotation. by rewrite H. Qed.

Lemma findTextPosition_none extractedText instruction options :
  findMatch rt extractedText instruction options = None ->
  findTextPosition rt extractedText instruction options = None.
Proof. intros H. unfold findTextPosition. by rewrite H. Qed.

End Degenerate.

(** C2, as the code has it.  An instruction whose normalized pattern is
    longer than the normalized text of every page is NotFound when, in
    addition, every page is shorter than 30 characters (which is so whenever
    the pattern has at most 30): [findTextPosition] yields no candidate and
    the result is the failure 'Text not found in document', the document
    being left as it was.  An empty normalized pattern is not NotFound: the
    Exact strategy matches it at offset 0 of the first page searched. *)
Theorem degenerate_pattern_outcomes rt pdfDoc extractedText instruction options :
  let ns := normalizeText (foldCase rt instruction (instr_text instruction)) in
  (Forall (fun page =>
             len (normalizeText (foldCase rt instruction (text page)))
             < Z.min (len ns) 30)
     (pages extractedText) ->
   findTextPosition rt extractedText instruction options = None
   /\ applyAnnotation rt pdfDoc extractedText instruction options
      = (pdfDoc, failure instruction textNotFound))
  /\ (ns = [] ->
      forall page rest,
        pagesToSearch extractedText instruction = page :: rest ->
        findMatch rt extractedText instruction options
        = Some (mkCandidate Exact page 0 [] None)).
Proof.
  intros ns. split.
  - intros Hall.
    assert (Hnone : findTextPosition rt extractedText instruction options = None).
    { apply findTextPosition_none, searchPages_all_fail. intros page Hp.
      apply searchPage_too_long.
      apply pagesToSearch_subset in Hp.
      rewrite Forall_forall in Hall. apply Hall. by apply list_elem_of_In. }
    split; [done | by apply applyAnnotation_not_found].
  - intros Hns page rest Hp. unfold findMatch. rewrite Hp. simpl.
    by rewrite searchPage_empty_pattern.
Qed.

(** A pattern of 43 characters on pages of 3 and 2 characters. *)
Lemma degenerate_pattern_outcomes_witness :
  let instruction := highlightOf "the quick brown fox jumps over the lazy dog" in
  findTextPosition sampleRuntime twoShortPages instruction
    DEFAULT_ANNOTATION_OPTIONS = None
  /\ applyAnnotation sampleRuntime twoPageDoc twoShortPages instruction
       DEFAULT_ANNOTATION_OPTIONS
     = (twoPageDoc, failure instruction textNotFound).
Proof.
  apply (proj1 (degenerate_pattern_outcomes sampleRuntime twoPageDoc twoShortPages
                  (highlightOf "the quick brown fox jumps over the lazy dog")
                  DEFAULT_ANNOTATION_OPTIONS)).
  repeat (constructor; [vm_compute; reflexivity|]). constructor.
Defined.

(** The empty pattern is matched on page 1 and the instruction succeeds. *)
Lemma empty_pattern_is_matched :
  findTextPosition sampleRuntime fourPages (highlightOf "")
    DEFAULT_ANNOTATION_OPTIONS
  = Some (createTextPosition 1 [] 0 [])
  /\ res_success
       (snd (applyAnnotation sampleRuntime fourPageDoc fourPages (highlightOf "")
               DEFAULT_ANNOTATION_OPTIONS)) = true
  /\ ~ reportsNotFound
         (snd (applyAnnotation sampleRuntime fourPageDoc fourPages
                 (highlightOf "") DEFAULT_ANNOTATION_OPTIONS)).
Proof.
  split; [by vm_compute|]. split; [by vm_compute|].
  intros [H _]. by vm_compute in H.
Qed.

(** A pattern longer than the page is still matched through its first 30
    characters. *)
Lemma long_pattern_matched_by_prefix :
  let page := mkPageText 1 (str "the quick brown fox jumps over") in
  let instruction := highlightOf "the quick brown fox jumps over the lazy dog" in
  len (text page) < len (instr_text instruction)
  /\ mc_strategy
       <$> findMatch sampleRuntime (mkExtractedText [page] 1) instruction
             DEFAULT_ANNOTATION_OPTIONS
     = Some Partial30.
Proof. by vm_compute. Qed.

(** ** Page restrictions *)

Section PageRestriction.

Context (rt : Runtime).

Lemma filter_nothing {A : Type} (P : A -> Prop) `{forall x, Decision (P x)}
    (l : list A) :
  Forall (fun x => ~ P x) l -> filter P l = [].
Proof.
  induction 1 as [|x l Hx _ IH]; [done|].
  by rewrite filter_cons_False.
Qed.

(** A nonzero page number that no extracted page bears leaves nothing to
    search. *)
Lemma pagesToSearch_unknown_page extractedText instruction n :
  instr_pageNumber instruction = Some n -> n <> 0 ->
  Forall (fun page => pageNumber page <> n) (pages extractedText) ->
  pagesToSearch extractedText instruction = [].
Proof.
  intros Hn Hnz Hall. unfold pagesToSearch. rewrite Hn. simpl.
  destruct (Z.eqb_spec n 0) as [|_]; [done|]. simpl.
  apply filter_nothing. eapply Forall_impl; [|exact Hall].
  intros page Hp [= Heq]. done.
Qed.

End PageRestriction.

(** C3, as the code has it.  When the pages of the extracted text are
    numbered within [1, totalPages], an instruction whose requested page
    number is nonzero and outside that range finds nothing, and the engine
    reports for it the failure 'Text not found in document', which is the
    NotFound outcome; the document is left as it was and the call returns
    normally. *)
Theorem page_out_of_range_is_not_found
    rt pdfDoc extractedText instruction options n :
  instr_pageNumber instruction = Some n ->
  n <> 0 ->
  ~ (1 <= n <= totalPages extractedText) ->
  Forall (fun page => 1 <= pageNumber page <= totalPages extractedText)
    (pages extractedText) ->
  findTextPosition rt extractedText instruction options = None
  /\ applyAnnotation rt pdfDoc extractedText instruction options
     = (pdfDoc, failure instruction textNotFound)
  /\ reportsNotFound
       (snd (applyAnnotation rt pdfDoc extractedText instruction options)).
Proof.
  intros Hn Hnz Hout Hpages.
  assert (Hnone : findTextPosition rt extractedText instruction options = None).
  { apply findTextPosition_none. unfold findMatch.
    rewrite (pagesToSearch_unknown_page extractedText instruction n); try done.
    eapply Forall_impl; [|exact Hpages].
    intros page Hp Heq. apply Hout. by rewrite <- Heq. }
  split; [done|].
  rewrite (applyAnnotation_not_found rt _ _ _ _ Hnone). by repeat split.
Qed.

Lemma page_out_of_range_is_not_found_witness :
  let instruction :=
    mkInstruction HIGHLIGHT (str "total revenue") (Some 7) None None None in
  findTextPosition sampleRuntime fourPages instruction
    DEFAULT_ANNOTATION_OPTIONS = None
  /\ applyAnnotation sampleRuntime fourPageDoc fourPages instruction
       DEFAULT_ANNOTATION_OPTIONS
     = (fourPageDoc, failure instruction textNotFound)
  /\ reportsNotFound
       (snd (applyAnnotation sampleRuntime fourPageDoc fourPages instruction
               DEFAULT_ANNOTATION_OPTIONS)).
Proof.
  apply (page_out_of_range_is_not_found sampleRuntime fourPageDoc fourPages
           (mkInstruction HIGHLIGHT (str "total revenue") (Some 7) None None None)
           DEFAULT_ANNOTATION_OPTIONS 7).
  - reflexivity.
  - lia.
  - simpl. lia.
  - repeat (constructor; [simpl; lia|]). constructor.
Defined.

(** Page 7 of a four-page document is reported exactly as NotFound, not as a
    distinct error; page 0 is not rejected at all: the whole document is
    searched and the instruction succeeds. *)
Lemma page_out_of_range_not_invalid_spec :
  let page7 :=
    mkInstruction HIGHLIGHT (str "total revenue") (Some 7) None None None in
  let page0 :=
    mkInstruction HIGHLIGHT (str "nothing") (Some 0) None None None in
  ~ reportsInvalidSpec
      (snd (applyAnnotation sampleRuntime fourPageDoc fourPages page7
              DEFAULT_ANNOTATION_OPTIONS))
  /\ res_success
       (snd (applyAnnotation sampleRuntime fourPageDoc fourPages page0
               DEFAULT_ANNOTATION_OPTIONS)) = true.
Proof.
  split; [|by vm_compute].
  intros [_ (e & He & Hne)]. apply Hne. vm_compute in He. by injection He.
Qed.

(** ** Comment callouts *)

Section Callouts.

Context (rt : Runtime).

Lemma textsOnPage_drawOn page op :
  textsOnPage (drawOn page op) = textsOnPage page ++ drawnText op.
Proof.
  unfold textsOnPage. simpl. rewrite map_app, concat_app. simpl.
  by rewrite app_nil_r.
Qed.

Lemma textsOnPage_drawLines lines : forall page i commentX commentY h fontSize,
  textsOnPage (drawLines page lines i commentX commentY h fontSize)
  = textsOnPage page ++ lines.
Proof.
  induction lines as [|line rest IH]; intros; simpl.
  - by rewrite app_nil_r.
  - rewrite IH, textsOnPage_drawOn. simpl. by rewrite <- app_assoc.
Qed.

(** The default body is one word, so it is wrapped into one line whatever
    the font says. *)
Lemma wrapComment_default commentWidth fontSize :
  wrapComment rt (str "Comment") commentWidth fontSize = [str "Comment"].
Proof.
  unfold wrapComment. simpl.
  by destruct (negb (Qle_bool (commentWidth - 10)
                      (widthOfTextAtSize rt _ fontSize))).
Qed.

Lemma length_ops_drawLines lines : forall page i x y h fs,
  length (page_ops (drawLines page lines i x y h fs))
  = (length (page_ops page) + length lines)%nat.
Proof.
  induction lines as [|line rest IH]; intros; simpl; [lia|].
  rewrite IH. simpl. rewrite length_app. simpl. lia.
Qed.

Lemma take_min_length {A : Type} (l : list A) n :
  take (Nat.min (length l) n) l = take n l.
Proof.
  destruct (Nat.min_spec (length l) n) as [[Hlt ->]|[Hge ->]]; [|done].
  by rewrite !take_ge by lia.
Qed.

Lemma encodable_app s t :
  encodable rt (s ++ t) = encodable rt s && encodable rt t.
Proof. apply forallb_app. Qed.

(** A loop that completes has run [wrapStep] over every word. *)
Lemma wrapWords_completed commentWidth fontSize words : forall st st',
  wrapWords rt commentWidth fontSize words st = inr st' ->
  st' = fold_left (wrapStep rt commentWidth fontSize) words st.
Proof.
  induction words as [|word rest IH]; intros st st'; simpl.
  - by intros [= <-].
  - destruct (encodable rt _); [apply IH | done].
Qed.

(** A loop that throws has met a test line the font does not encode. *)
Lemma wrapWords_thrown commentWidth fontSize words : forall st e,
  wrapWords rt commentWidth fontSize words st = inl e ->
  exists testLine, e = CannotEncode testLine /\ encodable rt testLine = false.
Proof.
  induction words as [|word rest IH]; intros st e; simpl; [done|].
  destruct (encodable rt _) eqn:He; [apply IH|].
  intros [= <-]. eauto.
Qed.

Lemma encodable_wrapStep commentWidth fontSize st word :
  encodable rt (if nonEmpty (snd st) then snd st ++ 32%N :: word else word)
  = true ->
  encodable rt word = true ->
  encodable rt (snd (wrapStep rt commentWidth fontSize st word)) = true.
Proof.
  destruct st as [lines cur]. unfold wrapStep. cbn [snd].
  intros Ht Hw. by destruct (negb (Qle_bool _ _)).
Qed.

(** The loop completes on words the font encodes, the space between them
    included. *)
Lemma wrapWords_encodable commentWidth fontSize words : forall st,
  canEncode rt 32 = true ->
  Forall (fun word => encodable rt word = true) words ->
  encodable rt (snd st) = true ->
  exists st', wrapWords rt commentWidth fontSize words st = inr st'.
Proof.
  induction words as [|word rest IH]; intros st Hsp Hw Hcur; simpl; [eauto|].
  inversion Hw as [|? ? Hword Hrest]; subst.
  assert (Ht : encodable rt
                 (if nonEmpty (snd st) then snd st ++ 32%N :: word else word)
               = true).
  { destruct (nonEmpty (snd st)); [|done].
    rewrite encodable_app, Hcur. simpl. by rewrite Hsp. }
  rewrite Ht. apply IH; [done | done | by apply encodable_wrapStep].
Qed.

Lemma splitSpace_cases s :
  splitSpace s = [s] \/ 32%N ∈ s.
Proof.
  induction s as [|c r IH]; [by left|]. simpl.
  destruct (N.eqb_spec c 32) as [->|Hc]; [right; left|].
  destruct IH as [-> | Hin]; [by left | right; by right].
Qed.

Lemma encodable_splitSpace s :
  encodable rt s = true ->
  Forall (fun word => encodable rt word = true) (splitSpace s).
Proof.
  induction s as [|c r IH]; [by repeat constructor|]. simpl.
  intros H. apply andb_true_iff in H as [Hc Hr]. specialize (IH Hr).
  destruct (c =? 32)%N; [by constructor|].
  destruct (splitSpace r) as [|w ws]; [by repeat constructor; simpl; rewrite Hc|].
  inversion IH; subst. constructor; [simpl; by rewrite Hc | done].
Qed.

(** The loop completes on every comment the font encodes. *)
Lemma wrapWords_comment commentWidth fontSize comment :
  encodable rt comment = true ->
  exists st,
    wrapWords rt commentWidth fontSize (splitSpace comment) ([], []) = inr st.
Proof.
  intros Hc. destruct (splitSpace_cases comment) as [-> | Hsp].
  - simpl. rewrite Hc. eauto.
  - apply wrapWords_encodable; [|by apply encodable_splitSpace|done].
    unfold encodable in Hc. rewrite forallb_forall in Hc.
    apply Hc. by apply list_elem_of_In.
Qed.

(** The callout of a comment whose colour is accepted and whose wrap loop
    completes. *)
Lemma drawComment_completed page pdfDoc position comment color
    pageWidth pageHeight st :
  fillError color (orElseQ (color_a color) (8 # 10)) = None ->
  wrapWords rt 140 8 (splitSpace comment) ([], []) = inr st ->
  let r := drawComment rt page pdfDoc position comment color
             pageWidth pageHeight in
  let lines := wrapComment rt comment 140 8 in
  snd r = None
  /\ snd (fst r) = mkDocument (doc_pages pdfDoc) (S (doc_fonts pdfDoc))
  /\ textsOnPage (fst (fst r)) = textsOnPage page ++ take 5 lines
  /\ length (page_ops (fst (fst r)))
     = (length (page_ops page) + 2 + Nat.min 5 (length lines))%nat.
Proof.
  intros Hfill Hwrap. unfold drawComment. rewrite Hfill, Hwrap.
  apply wrapWords_completed in Hwrap.
  assert (Hlines : (if nonEmpty (snd st) then fst st ++ [snd st] else fst st)
                   = wrapComment rt comment 140 8).
  { unfold wrapComment. rewrite <- Hwrap. by destruct st. }
  destruct st as [lines0 currentLine]. cbn [fst snd] in *.
  rewrite Hlines, take_min_length.
  split; [done|]. split; [done|]. split.
  - rewrite textsOnPage_drawLines, !textsOnPage_drawOn. simpl.
    by rewrite !app_nil_r.
  - rewrite length_ops_drawLines. simpl. rewrite !length_app, length_take.
    simpl. lia.
Qed.

(** The callout of a comment whose colour is accepted and whose wrap loop
    throws: the box and the connector are on the page, the font is in the
    document, and no text is drawn. *)
Lemma drawComment_interrupted page pdfDoc position comment color
    pageWidth pageHeight e :
  fillError color (orElseQ (color_a color) (8 # 10)) = None ->
  wrapWords rt 140 8 (splitSpace comment) ([], []) = inl e ->
  let r := drawComment rt page pdfDoc position comment color
             pageWidth pageHeight in
  snd r = Some e
  /\ snd (fst r) = mkDocument (doc_pages pdfDoc) (S (doc_fonts pdfDoc))
  /\ textsOnPage (fst (fst r)) = textsOnPage page
  /\ length (page_ops (fst (fst r))) = (length (page_ops page) + 2)%nat.
Proof.
  intros Hfill Hwrap. unfold drawComment. rewrite Hfill, Hwrap. simpl.
  split; [done|]. split; [done|]. split.
  - rewrite !textsOnPage_drawOn. simpl. by rewrite !app_nil_r.
  - rewrite !length_app. simpl. lia.
Qed.

(** A colour that is rejected leaves everything as it was. *)
Lemma drawComment_rejected page pdfDoc position comment color
    pageWidth pageHeight e :
  fillError color (orElseQ (color_a color) (8 # 10)) = Some e ->
  drawComment rt page pdfDoc position comment color pageWidth pageHeight
  = (page, pdfDoc, Some e).
Proof. intros Hfill. unfold drawComment. by rewrite Hfill. Qed.

Lemma doc_pages_drawComment page pdfDoc position comment color w h :
  doc_pages (snd (fst (drawComment rt page pdfDoc position comment color w h)))
  = doc_pages pdfDoc.
Proof.
  unfold drawComment. destruct (fillError _ _); [done|].
  by destruct (wrapWords _ _ _ _ _) as [e|[lines0 currentLine]].
Qed.

Lemma getPage_putPage pdfDoc pdfDoc' index page page' :
  doc_pages pdfDoc' = doc_pages pdfDoc ->
  getPage pdfDoc index = Some page ->
  getPage (putPage pdfDoc' index page') index = Some page'.
Proof.
  unfold getPage, putPage. simpl. intros ->.
  destruct ((0 <=? index) && (index <? Z.of_nat (length (doc_pages pdfDoc))))
    eqn:Hr; [|done].
  intros _. rewrite length_insert, Hr.
  apply andb_true_iff in Hr as [H0 H1].
  apply Z.leb_le in H0. apply Z.ltb_lt in H1.
  apply list_lookup_insert_eq. lia.
Qed.

Lemma commentOrDefault_missing comment :
  comment = None \/ comment = Some [] -> commentOrDefault comment = str "Comment".
Proof. by intros [-> | ->]. Qed.

Lemma searchPages_withComment instruction options comment ps :
  searchPages rt (withComment instruction comment) options ps
  = searchPages rt instruction options ps.
Proof.
  induction ps as [|page rest IH]; [done|].
  simpl. rewrite IH.
  by change (searchPage rt (withComment instruction comment) options page)
    with (searchPage rt instruction options page).
Qed.

Lemma findTextPosition_withComment extractedText instruction options comment :
  findTextPosition rt extractedText (withComment instruction comment) options
  = findTextPosition rt extractedText instruction options.
Proof.
  unfold findTextPosition, findMatch.
  change (pagesToSearch extractedText (withComment instruction comment))
    with (pagesToSearch extractedText instruction).
  by rewrite searchPages_withComment.
Qed.

End Callouts.

(** C4, as the code has it.  A Comment instruction whose body is missing or
    empty is not rejected: when its snippet is found on a page the document
    has, the engine proceeds exactly as for the same instruction with the
    explicit body 'Comment' (same document, same success flag, same error).
    When pdf-lib accepts the colour (channels and opacity within [0, 1], as
    for the default colour) and the font encodes 'Comment', the callout is
    drawn with the text 'Comment' on that page and success is reported
    without an error. *)
Theorem missing_comment_body_is_defaulted
    rt pdfDoc extractedText instruction options position page :
  instr_type instruction = COMMENT ->
  instr_comment instruction = None \/ instr_comment instruction = Some [] ->
  findTextPosition rt extractedText instruction options = Some position ->
  getPage pdfDoc (tp_pageNumber position - 1) = Some page ->
  let outcome := applyAnnotation rt pdfDoc extractedText instruction options in
  let explicit :=
    applyAnnotation rt pdfDoc extractedText
      (withComment instruction (Some (str "Comment"))) options in
  let color :=
    default (mkColor 0 (1 # 2) 1 (Some (8 # 10)%Q)) (instr_color instruction) in
  fst outcome = fst explicit
  /\ res_success (snd outcome) = res_success (snd explicit)
  /\ res_error (snd outcome) = res_error (snd explicit)
  /\ (fillError color (orElseQ (color_a color) (8 # 10)) = None ->
      encodable rt (str "Comment") = true ->
      res_success (snd outcome) = true
      /\ res_error (snd outcome) = None
      /\ exists page',
           getPage (fst outcome) (tp_pageNumber position - 1) = Some page'
           /\ textsOnPage page' = textsOnPage page ++ [str "Comment"]).
Proof.
  intros Htype Hbody Hfound Hpage outcome explicit color.
  subst outcome explicit. unfold applyAnnotation.
  rewrite findTextPosition_withComment, Hfound, Hpage.
  cbn [withComment instr_type instr_color instr_comment].
  rewrite Htype, (commentOrDefault_missing _ Hbody).
  change (commentOrDefault (Some (str "Comment"))) with (str "Comment").
  assert (Hcolor : match instr_color instruction with
                   | Some c => Some c
                   | None => DEFAULT_COLORS COMMENT
                   end = Some color).
  { subst color. by destruct (instr_color instruction). }
  rewrite Hcolor. clear Hcolor. clearbody color.
  pose proof (doc_pages_drawComment rt page pdfDoc position (str "Comment")
                color (page_width page) (page_height page)) as Hpages.
  pose proof (fun st => drawComment_completed rt page pdfDoc position
                (str "Comment") color (page_width page) (page_height page) st)
    as Hdone.
  destruct (drawComment rt page pdfDoc position (str "Comment") color
              (page_width page) (page_height page))
    as [[page' pdfDoc'] exception].
  cbn [fst snd] in Hpages, Hdone.
  split; [by destruct exception|]. split; [by destruct exception|].
  split; [by destruct exception|].
  intros Hfill Henc.
  destruct (wrapWords_comment rt 140 8 (str "Comment") Henc) as [st Hst].
  destruct (Hdone st Hfill Hst) as (-> & _ & Htexts & _).
  rewrite wrapComment_default in Htexts.
  cbn [fst snd res_success res_error].
  split; [done|]. split; [done|].
  exists page'. split; [by apply (getPage_putPage pdfDoc _ _ page)|done].
Qed.

Lemma missing_comment_body_is_defaulted_witness :
  let instruction := mkInstruction COMMENT (str "nothing") None None None None in
  let outcome :=
    applyAnnotation sampleRuntime fourPageDoc fourPages instruction
      DEFAULT_ANNOTATION_OPTIONS in
  fst outcome
  = fst (applyAnnotation sampleRuntime fourPageDoc fourPages
           (withComment instruction (Some (str "Comment")))
           DEFAULT_ANNOTATION_OPTIONS)
  /\ res_success (snd outcome) = true
  /\ res_error (snd outcome) = None
  /\ exists page',
       getPage (fst outcome) (1 - 1) = Some page'
       /\ textsOnPage page' = textsOnPage letterPage ++ [str "Comment"].
Proof.
  destruct (missing_comment_body_is_defaulted sampleRuntime fourPageDoc fourPages
              (mkInstruction COMMENT (str "nothing") None None None None)
              DEFAULT_ANNOTATION_OPTIONS
              (createTextPosition 1 (str "nothing") 0 (str "nothing")) letterPage
              eq_refl (or_introl eq_refl)
              ltac:(vm_compute; reflexivity) eq_refl)
    as (Hsame & _ & _ & Hdrawn).
  split; [exact Hsame|].
  apply Hdrawn; vm_compute; reflexivity.
Defined.

(** A Comment instruction without a body succeeds, and the callout reads
    'Comment'. *)
Lemma comment_without_body_is_drawn :
  let instruction := mkInstruction COMMENT (str "nothing") None None None None in
  let outcome :=
    applyAnnotation sampleRuntime fourPageDoc fourPages instruction
      DEFAULT_ANNOTATION_OPTIONS in
  res_success (snd outcome) = true
  /\ res_error (snd outcome) = None
  /\ (textsOnPage <$> getPage (fst outcome) 0) = Some [str "Comment"]
  /\ ~ reportsInvalidSpec (snd outcome).
Proof.
  repeat split; try by vm_compute.
  intros [H _]. by vm_compute in H.
Qed.

(** ** The instruction loop *)

Section Orchestrator.

Context (rt : Runtime).

(** Case analysis on the outcome of the drawing call of the goal. *)
Ltac destruct_draws :=
  repeat match goal with
         | |- context [drawHighlight ?p ?t ?c ?w ?h] =>
             destruct (drawHighlight p t c w h)
         | |- context [drawUnderline ?p ?t ?c ?w ?h] =>
             destruct (drawUnderline p t c w h)
         | |- context [drawComment ?r ?p ?d ?t ?m ?c ?w ?h] =>
             destruct (drawComment r p d t m c w h) as [[? ?] [?|]]
         end.

(** Every result names the instruction it answers. *)
Lemma applyAnnotation_instruction pdfDoc extractedText instruction options :
  res_instruction
    (snd (applyAnnotation rt pdfDoc extractedText instruction options))
  = instruction.
Proof.
  unfold applyAnnotation.
  destruct (findTextPosition rt extractedText instruction options)
    as [position|]; [|done].
  destruct (getPage pdfDoc (tp_pageNumber position - 1)) as [page|]; [|done].
  destruct (instr_type instruction);
    destruct (instr_color instruction); cbn [DEFAULT_COLORS];
    destruct_draws; reflexivity.
Qed.



End Orchestrator.


(** When every instruction fails the flag is false, yet all results and the
    buffer are returned. *)
Lemma annotatePDF_all_failed :
  let response :=
    annotatePDF sampleRuntime fourPageDoc fourPages
      (mkRequest [highlightOf "zebra"; highlightOf "total revenue";
                  highlightOf "quagga"] None) in
  resp_success response = false
  /\ map res_success (resp_results response) = [false; false; false]
  /\ resp_pdfBuffer response = Some fourPageDoc.
Proof. by vm_compute. Qed.

(** A failure in the middle does not stop the later instructions. *)
Lemma annotatePDF_failure_isolated :
  let response :=
    annotatePDF sampleRuntime fourPageDoc fourPages
      (mkRequest [highlightOf "nothing"; highlightOf "zebra";
                  mkInstruction COMMENT (str "interest") None None
                    (Some (str "check this")) None] None) in
  resp_success response = true
  /\ map res_success (resp_results response) = [true; false; true].
Proof. by vm_compute. Qed.

(** * Further properties of the engine *)

(** ** The normal form of a text *)

Section NormalForm.

Lemma replaceWsRuns_whitespace b x c :
  c ∈ replaceWsRuns b x -> isWhitespace c = true -> c = 32%N.
Proof.
  revert b. induction x as [|d r IH]; intros b Hc Hws; [by apply elem_of_nil in Hc|].
  simpl in Hc. destruct (isWhitespace d) eqn:Hd.
  - destruct b; [by apply (IH true)|].
    apply elem_of_cons in Hc as [->|Hc]; [done | by apply (IH true)].
  - apply elem_of_cons in Hc as [->|Hc]; [congruence | by apply (IH false)].
Qed.

Lemma replaceWsRuns_true_head x a r :
  replaceWsRuns true x = a :: r -> isWhitespace a = false.
Proof.
  intros H. apply (trimStart_head (replaceWsRuns true x) a r).
  by rewrite replaceWsRuns_true_trimmed.
Qed.

Lemma replaceWsRuns_no_adjacent x : forall b u a c v,
  replaceWsRuns b x = u ++ a :: c :: v ->
  isWhitespace a = true -> isWhitespace c = true -> False.
Proof.
  induction x as [|d r IH]; intros b u a c v H Ha Hc.
  - by destruct u.
  - simpl in H. destruct (isWhitespace d) eqn:Hd.
    + destruct b; [by eapply IH|].
      destruct u as [|e u]; simpl in H; injection H as <- H.
      * apply replaceWsRuns_true_head in H. congruence.
      * by eapply IH.
    + destruct u as [|e u]; simpl in H; injection H as <- H.
      * congruence.
      * by eapply IH.
Qed.

Lemma elem_of_trimStart x c : c ∈ trimStart x -> c ∈ x.
Proof.
  destruct (trimStart_split x) as [w Hw]. intros Hc.
  rewrite Hw. apply elem_of_app. by right.
Qed.

Lemma elem_of_trimEnd x c : c ∈ trimEnd x -> c ∈ x.
Proof.
  destruct (trimEnd_split x) as [w Hw]. intros Hc.
  rewrite Hw. apply elem_of_app. by left.
Qed.

Lemma trim_infix x : exists w1 w2, x = w1 ++ trim x ++ w2.
Proof.
  destruct (trimStart_split x) as [w1 H1].
  destruct (trimEnd_split (trimStart x)) as [w2 H2].
  exists w1, w2. unfold trim. by rewrite <- H2.
Qed.

Lemma trimEnd_last x r c : trimEnd x = r ++ [c] -> isWhitespace c = false.
Proof.
  revert r. induction x as [|d x IH]; intros r H; [by destruct r|].
  destruct (decide (trimEnd x = [])) as [He|Hne].
  - rewrite trimEnd_cons_empty in H by done.
    destruct (isWhitespace d) eqn:Hd; [by destruct r|].
    destruct r as [|e r]; [by injection H as <-|].
    injection H as _ H. by destruct r.
  - rewrite trimEnd_cons_nonempty in H by done.
    destruct r as [|e r].
    + injection H as _ H. done.
    + injection H as _ H. by apply (IH r).
Qed.

Lemma trimStart_keeps_end x r c :
  trimEnd x = x -> trimStart x = r ++ [c] -> isWhitespace c = false.
Proof.
  intros Hx Hr. apply (trimEnd_last (trimStart x) r).
  by rewrite <- trimStart_trimEnd, Hx.
Qed.

End NormalForm.

(** X1.  Normalizing a normalized text changes nothing. *)
Theorem normalizeText_is_idempotent (x : jsstring) :
  normalizeText (normalizeText x) = normalizeText x.
Proof. apply normalizeText_idempotent. Qed.

(** X2.  The shape of every normalized text: its only whitespace is the
    ASCII space, never two in a row and never at either end, and it holds
    no en dash and no em dash. *)
Theorem normalizeText_normal_form (x : jsstring) :
  let y := normalizeText x in
  (forall c, c ∈ y -> isWhitespace c = true -> c = 32%N)
  /\ (forall u a c v, y = u ++ a :: c :: v ->
        ~ (isWhitespace a = true /\ isWhitespace c = true))
  /\ (forall c r, y = c :: r -> isWhitespace c = false)
  /\ (forall r c, y = r ++ [c] -> isWhitespace c = false)
  /\ (forall c, c ∈ y -> c <> 8211%N /\ c <> 8212%N).
Proof.
  intros y. subst y. rewrite normalizeText_trim_first.
  set (t := trim x).
  assert (Hmap : forall c, c ∈ map normChar (replaceWsRuns false t) ->
            exists c', c = normChar c' /\ c' ∈ replaceWsRuns false t).
  { intros c Hc. apply list_elem_of_In, in_map_iff in Hc as (c' & <- & Hc').
    exists c'. split; [done | by apply list_elem_of_In]. }
  split; [|split; [|split; [|split]]].
  - intros c Hc Hws. destruct (Hmap c Hc) as (c' & -> & Hc').
    rewrite normChar_whitespace in Hws.
    by rewrite (replaceWsRuns_whitespace _ _ _ Hc' Hws).
  - intros u a c v Hy [Ha Hc].
    apply map_eq_app in Hy as (u' & r' & Hr & _ & Hy).
    destruct r' as [|a' [|c' v']]; try discriminate.
    simpl in Hy. injection Hy as <- <- _.
    rewrite normChar_whitespace in Ha, Hc.
    by apply (replaceWsRuns_no_adjacent _ _ _ _ _ _ Hr).
  - intros c r Hy.
    assert (Hts : trimStart (map normChar (replaceWsRuns false t))
                  = map normChar (replaceWsRuns false t)).
    { rewrite trimStart_map, <- replaceWsRuns_trimStart. unfold t, trim.
      by rewrite trimStart_trimEnd, trimStart_idem. }
    rewrite Hy in Hts. by apply trimStart_head in Hts.
  - intros r c Hy.
    assert (Hte : trimEnd (map normChar (replaceWsRuns false t))
                  = map normChar (replaceWsRuns false t)).
    { rewrite trimEnd_map, <- replaceWsRuns_trimEnd. unfold t, trim.
      by rewrite trimEnd_idem. }
    rewrite Hy in Hte. by apply trimEnd_last in Hte.
  - intros c Hc. destruct (Hmap c Hc) as (c' & -> & _).
    destruct (normChar_cases c') as [[_ ->]|(H1 & H2 & ->)]; [done|done].
Qed.

(** ** Whitespace layout does not matter *)

Section WhitespaceLayout.

Lemma replaceWsRuns_skip_run w v :
  Forall (fun c => isWhitespace c = true) w ->
  replaceWsRuns true (w ++ v) = replaceWsRuns true v.
Proof.
  induction 1 as [|c w Hc _ IH]; [done|]. simpl. by rewrite Hc.
Qed.

Lemma replaceWsRuns_run w v b :
  w <> [] -> Forall (fun c => isWhitespace c = true) w ->
  replaceWsRuns b (w ++ v) = replaceWsRuns b (32%N :: v).
Proof.
  intros Hne Hw. destruct Hw as [|c w Hc Hw]; [done|].
  simpl. rewrite Hc. change (isWhitespace 32) with true. cbn iota.
  by rewrite (replaceWsRuns_skip_run w v Hw).
Qed.

Lemma replaceWsRuns_app_congr u y y' :
  (forall b, replaceWsRuns b y = replaceWsRuns b y') ->
  forall b, replaceWsRuns b (u ++ y) = replaceWsRuns b (u ++ y').
Proof.
  intros Hy. induction u as [|c u IH]; intros b; [apply Hy|].
  simpl. destruct (isWhitespace c); [destruct b|]; by rewrite IH.
Qed.

Lemma normalizeText_congr y y' :
  replaceWsRuns false y = replaceWsRuns false y' ->
  normalizeText y = normalizeText y'.
Proof. intros H. by rewrite !normalizeText_unfold, H. Qed.

End WhitespaceLayout.

(** X3.  Any non-empty run of whitespace (spaces, tabs, line breaks) inside
    a text can be replaced by one space without changing its normalized
    form: a sentence broken over lines normalizes like the sentence on one
    line. *)
Theorem normalizeText_ignores_layout (u w v : jsstring) :
  w <> [] ->
  Forall (fun c => isWhitespace c = true) w ->
  normalizeText (u ++ w ++ v) = normalizeText (u ++ [32%N] ++ v).
Proof.
  intros Hne Hw. apply normalizeText_congr, replaceWsRuns_app_congr.
  intros b. by apply replaceWsRuns_run.
Qed.

Lemma normalizeText_ignores_layout_witness :
  normalizeText (str "was split" ++ [13; 10; 9]%N ++ str "across lines")
  = normalizeText (str "was split" ++ [32%N] ++ str "across lines").
Proof.
  apply (normalizeText_ignores_layout (str "was split") [13; 10; 9]%N
           (str "across lines")).
  - discriminate.
  - repeat constructor.
Defined.

(** ** The edit distance as a distance *)

Section EditDistance.

Lemma lev_refl s : lev s s = 0%nat.
Proof. induction s as [|a s IH]; [done|]. by rewrite lev_keep. Qed.

Lemma edits_zero s t n : edits s t n -> n = 0%nat -> s = t.
Proof.
  induction 1 as [|a s t n _ IH| | |]; intros Hn; try discriminate; [done|].
  by rewrite IH.
Qed.

Lemma lev_zero s t : lev s t = 0%nat -> s = t.
Proof. intros H. apply (edits_zero s t (lev s t)); [apply lev_attained | done]. Qed.

Lemma edits_lengths s t n :
  edits s t n -> (length s <= length t + n /\ length t <= length s + n)%nat.
Proof. induction 1; simpl; lia. Qed.

Lemma lev_upper s : forall t, (lev s t <= Nat.max (length s) (length t))%nat.
Proof.
  induction s as [|a s IH]; intros t; [simpl; lia|].
  destruct t as [|b t]; [rewrite lev_nil_r; lia|].
  pose proof (lev_subst_le a b s t). specialize (IH t). simpl length. lia.
Qed.

(** Edit scripts compose: going through [t] costs at least the distance. *)
Lemma lev_through s t n :
  edits s t n -> forall u m, edits t u m -> (lev s u <= n + m)%nat.
Proof.
  induction 1 as [|a s t n _ IH|a b s t n _ IH|a s t n _ IH|b s t n _ IH];
    intros u m H2.
  - by apply lev_lower_bound in H2.
  - remember (a :: t) as t0 eqn:Ht0. revert Ht0.
    induction H2 as [|c t1 u n2 H2 _|c d t1 u n2 H2 _|c t1 u n2 H2 _|d t1 u n2 H2 IH2];
      intros Ht0; try discriminate.
    + injection Ht0 as -> ->. rewrite lev_keep. by apply IH.
    + injection Ht0 as -> ->. pose proof (lev_subst_le a d s u).
      specialize (IH _ _ H2). lia.
    + injection Ht0 as -> ->. pose proof (lev_delete_le a s u).
      specialize (IH _ _ H2). lia.
    + specialize (IH2 Ht0). pose proof (lev_insert_le d (a :: s) u). lia.
  - remember (b :: t) as t0 eqn:Ht0. revert Ht0.
    induction H2 as [|c t1 u n2 H2 _|c d t1 u n2 H2 _|c t1 u n2 H2 _|d t1 u n2 H2 IH2];
      intros Ht0; try discriminate.
    + injection Ht0 as -> ->. pose proof (lev_subst_le a b s u).
      specialize (IH _ _ H2). lia.
    + injection Ht0 as -> ->. pose proof (lev_subst_le a d s u).
      specialize (IH _ _ H2). lia.
    + injection Ht0 as -> ->. pose proof (lev_delete_le a s u).
      specialize (IH _ _ H2). lia.
    + specialize (IH2 Ht0). pose proof (lev_insert_le d (a :: s) u). lia.
  - pose proof (lev_delete_le a s u). specialize (IH _ _ H2). lia.
  - remember (b :: t) as t0 eqn:Ht0. revert Ht0.
    induction H2 as [|c t1 u n2 H2 _|c d t1 u n2 H2 _|c t1 u n2 H2 _|d t1 u n2 H2 IH2];
      intros Ht0; try discriminate.
    + injection Ht0 as -> ->. pose proof (lev_insert_le b s u).
      specialize (IH _ _ H2). lia.
    + injection Ht0 as -> ->. pose proof (lev_insert_le d s u).
      specialize (IH _ _ H2). lia.
    + injection Ht0 as -> ->. specialize (IH _ _ H2). lia.
    + specialize (IH2 Ht0). pose proof (lev_insert_le d s u). lia.
Qed.

Lemma lev_triangle s t u : (lev s u <= lev s t + lev t u)%nat.
Proof. apply (lev_through s t); apply lev_attained. Qed.

End EditDistance.

(** X4.  [levenshteinDistance] always returns a number, and that number is
    the least number of single-character insertions, deletions and
    substitutions that turn one string into the other; it lies between the
    difference of the two lengths and the greater length. *)
Theorem levenshteinDistance_least_edits (str1 str2 : jsstring) :
  exists d, levenshteinDistance str1 str2 = Some d
    /\ isLevenshtein str1 str2 d
    /\ (length str1 <= length str2 + d)%nat
    /\ (length str2 <= length str1 + d)%nat
    /\ (d <= Nat.max (length str1) (length str2))%nat.
Proof.
  exists (lev str1 str2). split; [apply levenshteinDistance_lev|].
  split; [apply lev_isLevenshtein|].
  pose proof (edits_lengths _ _ _ (lev_attained str1 str2)).
  pose proof (lev_upper str1 str2). lia.
Qed.

(** X5.  [levenshteinDistance] is a metric on strings: it is symmetric, it
    is zero exactly for equal strings, and the distance from a first string
    to a third is at most the sum of the distances through a second. *)
Theorem levenshteinDistance_metric (s t u : jsstring) :
  levenshteinDistance t s = levenshteinDistance s t
  /\ (levenshteinDistance s t = Some 0%nat <-> s = t)
  /\ exists dst dtu dsu,
       levenshteinDistance s t = Some dst
       /\ levenshteinDistance t u = Some dtu
       /\ levenshteinDistance s u = Some dsu
       /\ (dsu <= dst + dtu)%nat.
Proof.
  rewrite !levenshteinDistance_lev. split; [by rewrite lev_sym|]. split.
  - split.
    + intros [= H]. by apply lev_zero.
    + intros ->. by rewrite lev_refl.
  - exists (lev s t), (lev t u), (lev s u).
    repeat split. apply lev_triangle.
Qed.

(** ** What the fuzzy scan finds *)

Section FuzzyOutcome.

Variables text pattern : jsstring.
Variable maxDistance : Floored.

Lemma fuzzyScan_outcome n : forall i best,
  0 <= i ->
  scannedBest text pattern maxDistance i best ->
  scanOutcome text pattern maxDistance (i + Z.of_nat n - 1)
    (fuzzyScan text pattern maxDistance n i best).
Proof.
  induction n as [|n IH]; intros i best Hi Hbest.
  - simpl. destruct Hbest as [(H1 & _ & H3)|(d & H1 & H2 & H3 & H4 & H5 & H6 & H7)].
    + left. split; [done|]. intros k Hk. apply H3. lia.
    + right. exists d.
      split; [done|]. split; [lia|]. split; [done|]. split; [done|].
      split; [done|]. intros _ k Hk. apply H7. lia.
  - cbn [fuzzyScan]. rewrite levenshteinDistance_lev.
    set (w := substring text i (i + len pattern)).
    set (di := lev w pattern).
    replace (i + Z.of_nat (S n) - 1) with (i + 1 + Z.of_nat n - 1) by lia.
    destruct (leFloored di maxDistance) eqn:Hle.
    + assert (Hbefore : ltDistance di (fm_distance best) = true ->
                forall k, 0 <= k < i ->
                  (di < lev (substring text k (k + len pattern)) pattern)%nat).
      { intros Hlt k Hk.
        destruct Hbest as [(_ & _ & H3)|(d & H1 & _ & _ & _ & _ & _ & H7)].
        - specialize (H3 k Hk). by apply (leFloored_lt maxDistance).
        - rewrite H1 in Hlt. simpl in Hlt. apply Nat.ltb_lt in Hlt.
          specialize (H7 k Hk). lia. }
      destruct (Nat.leb_spec di 2) as [H2|H2].
      * destruct (ltDistance di (fm_distance best)) eqn:Hlt.
        -- right. exists di. simpl.
           split; [done|]. split; [lia|]. split; [done|]. split; [done|].
           split; [by apply Hbefore | intros; lia].
        -- destruct Hbest as [(_ & H1 & _)|(d & H1 & _ & _ & _ & H5 & _)];
             rewrite H1 in Hlt; simpl in Hlt; [done|].
           apply Nat.ltb_ge in Hlt. lia.
      * apply IH; [lia|].
        destruct (ltDistance di (fm_distance best)) eqn:Hlt.
        -- right. exists di. simpl.
           split; [done|]. split; [lia|]. split; [done|]. split; [done|].
           split; [done|]. split; [by apply Hbefore|].
           intros k Hk. destruct (decide (k = i)) as [->|Hne]; [done|].
           specialize (Hbefore eq_refl k ltac:(lia)). lia.
        -- destruct Hbest as [(_ & H1 & _)|(d & H1 & Hr & H3 & H4 & H5 & H6 & H7)];
             rewrite H1 in Hlt; simpl in Hlt; [done|].
           apply Nat.ltb_ge in Hlt.
           right. exists d.
           split; [done|]. split; [lia|]. split; [done|]. split; [done|].
           split; [done|]. split; [done|].
           intros k Hk. destruct (decide (k = i)) as [->|Hne]; [done|].
           apply H7. lia.
    + apply IH; [lia|].
      destruct Hbest as [(H1 & H2 & H3)|(d & H1 & Hr & H3 & H4 & H5 & H6 & H7)].
      * left. split; [done|]. split; [done|].
        intros k Hk. destruct (decide (k = i)) as [->|Hne]; [done|].
        apply H3. lia.
      * right. exists d.
        split; [done|]. split; [lia|]. split; [done|]. split; [done|].
        split; [done|]. split; [done|].
        intros k Hk. destruct (decide (k = i)) as [->|Hne]; [|apply H7; lia].
        fold w di. by apply Nat.lt_le_incl, (leFloored_lt maxDistance).
Qed.

End FuzzyOutcome.

Lemma fuzzySearch_outcome text pattern tolerance :
  0 <= scanBound text pattern ->
  scanOutcome text pattern (maxDistanceOf pattern tolerance)
    (scanBound text pattern)
    (fuzzySearchWithNormalization text pattern tolerance).
Proof.
  intros Hb. unfold fuzzySearchWithNormalization.
  pose proof (fuzzyScan_outcome text pattern (maxDistanceOf pattern tolerance)
                (Z.to_nat (scanBound text pattern + 1)) 0 noFuzzyMatch
                ltac:(lia)) as H.
  replace (0 + Z.of_nat (Z.to_nat (scanBound text pattern + 1)) - 1)
    with (scanBound text pattern) in H by lia.
  apply H. left. repeat split. intros k Hk. lia.
Qed.

(** X6.  The fuzzy search misses nothing inside its scan: if some window at
    an offset between 0 and the scan bound is within the bound the code
    computes, [Math.floor(pattern.length * tolerance)] on the binary64
    product, a candidate is returned. *)
Theorem fuzzySearch_finds_qualifying_window
    (text pattern : jsstring) (tolerance : Q) (k : Z) (d : nat) :
  0 <= k <= scanBound text pattern ->
  levenshteinDistance (substring text k (k + len pattern)) pattern = Some d ->
  leFloored d (floorOfProduct (len pattern) tolerance) = true ->
  fm_index (fuzzySearchWithNormalization text pattern tolerance) <> -1.
Proof.
  intros Hk Hd Hle. rewrite levenshteinDistance_lev in Hd. injection Hd as <-.
  destruct (fuzzySearch_outcome text pattern tolerance ltac:(lia))
    as [[_ Hall]|(d & _ & Hr & _)]; [|lia].
  specialize (Hall k Hk). unfold maxDistanceOf in Hall. congruence.
Qed.

Lemma fuzzySearch_finds_qualifying_window_witness :
  fm_index
    (fuzzySearchWithNormalization (str "the important findings")
       (str "importent") (2 # 10)) <> -1.
Proof.
  apply (fuzzySearch_finds_qualifying_window (str "the important findings")
           (str "importent") (2 # 10) 4 1).
  - vm_compute. split; discriminate.
  - vm_compute. reflexivity.
  - vm_compute. reflexivity.
Defined.



(** ** What each strategy reports *)

Section StrategyReports.

Context (rt : Runtime).

Lemma substring_inside s a b :
  0 <= a <= b -> b <= len s ->
  substring s a b = take (Z.to_nat (b - a)) (drop (Z.to_nat a) s).
Proof.
  intros Ha Hb. unfold substring, clampIndex.
  replace (Z.max 0 (Z.min a (len s))) with a by lia.
  replace (Z.max 0 (Z.min b (len s))) with b by lia.
  replace (Z.min a b) with a by lia. by replace (Z.max a b) with b by lia.
Qed.

Lemma substring_of_infix (u p v : jsstring) :
  substring (u ++ p ++ v) (len u) (len u + len p) = p.
Proof.
  pose proof (len_nonneg u). pose proof (len_nonneg p). pose proof (len_nonneg v).
  rewrite substring_inside by (rewrite ?len_app; lia).
  unfold len. replace (Z.of_nat (length u) + Z.of_nat (length p) - Z.of_nat (length u))
    with (Z.of_nat (length p)) by lia.
  rewrite !Nat2Z.id, drop_app_length. apply take_app_length.
Qed.

Lemma substring_split s a b :
  0 <= a <= b -> b <= len s ->
  s = take (Z.to_nat a) s ++ substring s a b ++ drop (Z.to_nat b) s.
Proof.
  intros Ha Hb. rewrite substring_inside by done.
  rewrite <- (take_drop (Z.to_nat a) s) at 1. f_equal.
  rewrite <- (take_drop (Z.to_nat (b - a)) (drop (Z.to_nat a) s)) at 1.
  f_equal. rewrite drop_drop. f_equal. lia.
Qed.

Lemma indexOfFrom_leftmost p u v : forall t i,
  t = u ++ p ++ v -> indexOfFrom t p i <= i + len u.
Proof.
  induction u as [|c u IH]; intros t i ->.
  - destruct (p ++ v) eqn:E; simpl;
      (replace (startsWith p _) with true; [unfold len; simpl; lia|]);
      symmetry; apply startsWith_prefix; exists v; by rewrite <- E.
  - simpl. unfold len. simpl length.
    destruct (startsWith p (c :: u ++ p ++ v)); [lia|].
    specialize (IH (u ++ p ++ v) (i + 1) eq_refl). unfold len in IH. lia.
Qed.

Lemma indexOf_leftmost u p v : 0 <= indexOf (u ++ p ++ v) p <= len u.
Proof.
  unfold indexOf.
  pose proof (indexOfFrom_infix p u v (u ++ p ++ v) 0 eq_refl).
  pose proof (indexOfFrom_leftmost p u v (u ++ p ++ v) 0 eq_refl). lia.
Qed.

Lemma indexOf_occurrence t p :
  indexOf t p <> -1 -> substring t (indexOf t p) (indexOf t p + len p) = p.
Proof.
  unfold indexOf. intros Hne.
  destruct (indexOfFrom_result p t 0) as [|(u & v & -> & Hr)]; [done|].
  rewrite Hr, Z.add_0_l. apply substring_of_infix.
Qed.

(** Any strategy after the first answers only when the first has failed. *)
Lemma searchPage_exact_failed instruction options page c :
  searchPage rt instruction options page = Some c ->
  mc_strategy c <> Exact ->
  indexOf (normalizeText (foldCase rt instruction (text page)))
    (normalizeText (foldCase rt instruction (instr_text instruction))) = -1.
Proof.
  unfold searchPage. intros Hc Hs.
  destruct (indexOf _ _ =? -1) eqn:E0; simpl in Hc.
  - by apply Z.eqb_eq in E0.
  - injection Hc as <-. done.
Qed.

End StrategyReports.

(** X8.  When the normalized pattern occurs in the page's normalized text,
    the page is answered by the Exact strategy, at the leftmost occurrence:
    the offset is at most that of any occurrence, and the pattern fits
    there. *)
Theorem exact_match_is_leftmost rt instruction options page (u v : jsstring) :
  let ns := normalizeText (foldCase rt instruction (instr_text instruction)) in
  let np := normalizeText (foldCase rt instruction (text page)) in
  np = u ++ ns ++ v ->
  exists offset,
    searchPage rt instruction options page
    = Some (mkCandidate Exact page offset ns None)
    /\ 0 <= offset <= len u
    /\ substring np offset (offset + len ns) = ns.
Proof.
  intros ns np Hnp. exists (indexOf np ns).
  assert (Hne : indexOf np ns <> -1) by (rewrite Hnp; apply indexOf_of_infix).
  split; [|split].
  - unfold searchPage. fold ns np.
    apply Z.eqb_neq in Hne. by rewrite Hne.
  - rewrite Hnp. apply indexOf_leftmost.
  - by apply indexOf_occurrence.
Qed.

Lemma exact_match_is_leftmost_witness :
  let instruction := highlightOf "Total  Revenue" in
  let page := mkPageText 2 (str "total revenue, again total revenue") in
  exists offset,
    searchPage sampleRuntime instruction DEFAULT_ANNOTATION_OPTIONS page
    = Some (mkCandidate Exact page offset (str "total revenue") None)
    /\ 0 <= offset <= len (str "total revenue, again ")
    /\ substring (str "total revenue, again total revenue") offset
         (offset + len (str "total revenue")) = str "total revenue".
Proof.
  apply (exact_match_is_leftmost sampleRuntime (highlightOf "Total  Revenue")
           DEFAULT_ANNOTATION_OPTIONS
           (mkPageText 2 (str "total revenue, again total revenue"))
           (str "total revenue, again ") []).
  vm_compute. reflexivity.
Defined.

(** X9.  Whatever strategy answers, the matched substring it reports is
    exactly what the page's normalized text holds at the reported offset. *)
Theorem matched_substring_is_in_page rt instruction options page c :
  searchPage rt instruction options page = Some c ->
  substring (normalizeText (foldCase rt instruction (text page)))
    (mc_charOffset c) (mc_charOffset c + len (mc_matchedSubstring c))
  = mc_matchedSubstring c.
Proof.
  intros Hc. apply searchPage_cases in Hc as (_ & [H|[H|[H|H]]]).
  - destruct H as (_ & -> & -> & Hi & _). by apply indexOf_occurrence.
  - destruct H as (_ & _ & -> & -> & Hi & _). by apply indexOf_occurrence.
  - destruct H as (_ & _ & -> & -> & Hi & _). by apply indexOf_occurrence.
  - destruct H as (_ & _ & -> & -> & Hi & _).
    set (np := normalizeText (foldCase rt instruction (text page))) in *.
    set (ns := normalizeText (foldCase rt instruction (instr_text instruction))) in *.
    destruct (fuzzySearch_reports np ns (matchTolerance options))
      as [|(d & _ & _ & _ & Hm & Hlo & Hhi)]; [done|].
    pose proof (scanBound_fits np ns). pose proof (len_nonneg ns).
    rewrite Hm at 1 2. rewrite len_substring by lia.
    by replace (fm_index (fuzzySearchWithNormalization np ns (matchTolerance options))
             + (fm_index (fuzzySearchWithNormalization np ns (matchTolerance options))
                + len ns
                - fm_index (fuzzySearchWithNormalization np ns (matchTolerance options))))
      with (fm_index (fuzzySearchWithNormalization np ns (matchTolerance options))
            + len ns) by lia.
Qed.

Lemma matched_substring_is_in_page_witness :
  let page := mkPageText 1 (str "The Important Findings") in
  let c := mkCandidate Fuzzy page 4 (str "important") (Some 1%nat) in
  substring (normalizeText (foldCase sampleRuntime (highlightOf "importent") (text page)))
    (mc_charOffset c) (mc_charOffset c + len (mc_matchedSubstring c))
  = mc_matchedSubstring c.
Proof.
  apply (matched_substring_is_in_page sampleRuntime (highlightOf "importent")
           (mkOptions (2 # 10) true true true)
           (mkPageText 1 (str "The Important Findings"))).
  vm_compute. reflexivity.
Defined.

(** X10.  The last strategy, the search of the un-normalized text, never
    answers: a page whose raw text holds the raw pattern is answered by the
    Exact strategy, so no candidate ever comes from the raw fallback. *)
Theorem raw_fallback_never_answers rt instruction options page :
  (forall c, searchPage rt instruction options page = Some c ->
             mc_strategy c <> RawFallback)
  /\ (indexOf (foldCase rt instruction (text page))
        (foldCase rt instruction (instr_text instruction)) <> -1 ->
      exists c, searchPage rt instruction options page = Some c
                /\ mc_strategy c = Exact).
Proof.
  split.
  - intros c Hc. by apply (searchPage_not_raw rt instruction options page).
  - intros Hraw. apply raw_match_is_exact_match in Hraw.
    unfold searchPage. apply Z.eqb_neq in Hraw. rewrite Hraw. simpl. eauto.
Qed.

Lemma raw_fallback_never_answers_witness :
  exists c,
    searchPage sampleRuntime (highlightOf " Grew ") DEFAULT_ANNOTATION_OPTIONS
      (mkPageText 2 (str "the total revenue  grew  fast")) = Some c
    /\ mc_strategy c = Exact.
Proof.
  apply (proj2 (raw_fallback_never_answers sampleRuntime (highlightOf " Grew ")
                  DEFAULT_ANNOTATION_OPTIONS
                  (mkPageText 2 (str "the total revenue  grew  fast")))).
  vm_compute. discriminate.
Defined.

(** X11.  The head-truncated strategies: a Partial50 candidate is the first
    50 characters of a normalized pattern longer than 50, a Partial30
    candidate the first 30 of one longer than 30, and either answers only
    when the full pattern is nowhere in the page; so the estimated width of
    such a match is 300 or 180 points whatever the pattern's length. *)
Theorem partial_match_is_pattern_head rt instruction options page c :
  searchPage rt instruction options page = Some c ->
  let ns := normalizeText (foldCase rt instruction (instr_text instruction)) in
  let np := normalizeText (foldCase rt instruction (text page)) in
  let width :=
    tp_width (createTextPosition (pageNumber page) (instr_text instruction)
                (mc_charOffset c) (mc_matchedSubstring c)) in
  (mc_strategy c = Partial50 ->
     50 < len ns /\ mc_matchedSubstring c = take 50 ns /\ width = 300
     /\ indexOf np ns = -1)
  /\ (mc_strategy c = Partial30 ->
        30 < len ns /\ mc_matchedSubstring c = take 30 ns /\ width = 180
        /\ indexOf np ns = -1).
Proof.
  intros Hc ns np width. subst width. simpl.
  pose proof (searchPage_exact_failed rt _ _ _ _ Hc) as Hfail.
  fold ns np in Hfail.
  apply searchPage_cases in Hc as (_ & Hcases). fold ns in Hcases.
  assert (Htake : forall n, 0 <= n < len ns ->
            substring ns 0 n = take (Z.to_nat n) ns
            /\ len (substring ns 0 n) = n).
  { intros n Hn. split; [|rewrite len_substring; lia].
    rewrite substring_inside by lia. by rewrite Z.sub_0_r. }
  split; intros Hs;
    destruct Hcases as [H|[H|[H|H]]]; destruct H as (Hs' & H);
    rewrite Hs in Hs'; try discriminate.
  - destruct H as (H50 & -> & _).
    destruct (Htake 50 ltac:(lia)) as [Ht Hlen]. rewrite Hlen.
    split; [done|]. split; [by rewrite Ht|]. split; [done|].
    apply Hfail. by rewrite Hs.
  - destruct H as (H30 & -> & _).
    destruct (Htake 30 ltac:(lia)) as [Ht Hlen]. rewrite Hlen.
    split; [done|]. split; [by rewrite Ht|]. split; [done|].
    apply Hfail. by rewrite Hs.
Qed.

Lemma partial_match_is_pattern_head_witness :
  let page := mkPageText 1 (str "the quick brown fox jumps over") in
  let instruction := highlightOf "the quick brown fox jumps over the lazy dog" in
  let c := mkCandidate Partial30 page 0 (str "the quick brown fox jumps over") None in
  let ns := normalizeText (foldCase sampleRuntime instruction (instr_text instruction)) in
  let np := normalizeText (foldCase sampleRuntime instruction (text page)) in
  let width :=
    tp_width (createTextPosition (pageNumber page) (instr_text instruction)
                (mc_charOffset c) (mc_matchedSubstring c)) in
  (mc_strategy c = Partial50 ->
     50 < len ns /\ mc_matchedSubstring c = take 50 ns /\ width = 300
     /\ indexOf np ns = -1)
  /\ (mc_strategy c = Partial30 ->
        30 < len ns /\ mc_matchedSubstring c = take 30 ns /\ width = 180
        /\ indexOf np ns = -1).
Proof.
  apply (partial_match_is_pattern_head sampleRuntime
           (highlightOf "the quick brown fox jumps over the lazy dog")
           DEFAULT_ANNOTATION_OPTIONS
           (mkPageText 1 (str "the quick brown fox jumps over"))).
  vm_compute. reflexivity.
Defined.

(** X12.  A Fuzzy candidate always differs from the pattern: its edit
    distance is at least 1.  Hence the Fuzzy strategy answers only for
    patterns for which the code's bound,
    [Math.floor(pattern.length * tolerance)], is at least 1; at the default
    tolerance 0.1, a pattern of fewer than 10 normalized characters is
    matched exactly or not at all. *)
Theorem fuzzy_needs_room rt instruction options page c :
  searchPage rt instruction options page = Some c ->
  mc_strategy c = Fuzzy ->
  let ns := normalizeText (foldCase rt instruction (instr_text instruction)) in
  (exists d, mc_editDistance c = Some d /\ (1 <= d)%nat)
  /\ leFloored 1 (floorOfProduct (len ns) (matchTolerance options)) = true
  /\ (matchTolerance options = matchTolerance DEFAULT_ANNOTATION_OPTIONS ->
      10 <= len ns).
Proof.
  intros Hc Hs ns.
  pose proof (searchPage_exact_failed rt _ _ _ _ Hc ltac:(by rewrite Hs)) as Hfail.
  fold ns in Hfail.
  apply searchPage_cases in Hc as (_ & [H|[H|[H|H]]]);
    try (destruct H as (Hs' & _); congruence).
  destruct H as (_ & _ & Hm & Hoff & Hi & Hd). fold ns in Hm, Hoff, Hi, Hd.
  set (np := normalizeText (foldCase rt instruction (text page))) in *.
  destruct (fuzzySearch_reports np ns (matchTolerance options))
    as [|(d & Hd' & [Hed _] & Hle & Hw & Hlo & Hhi)]; [done|].
  assert (Hpos : (1 <= d)%nat).
  { destruct d as [|d]; [|lia]. exfalso.
    apply edits_zero in Hed; [|done].
    pose proof (scanBound_fits np ns). pose proof (len_nonneg ns).
    rewrite (substring_split np
               (fm_index (fuzzySearchWithNormalization np ns (matchTolerance options)))
               (fm_index (fuzzySearchWithNormalization np ns (matchTolerance options))
                + len ns)) in Hfail by lia.
    rewrite <- Hw, Hed in Hfail. by apply indexOf_of_infix in Hfail. }
  assert (Hone : leFloored 1 (floorOfProduct (len ns) (matchTolerance options))
                 = true)
    by (by apply (leFloored_le _ 1 d)).
  split; [exists d; by rewrite Hd, Hd'|]. split; [done|].
  intros Htol. rewrite Htol in Hone.
  pose proof (len_nonneg ns).
  destruct (Z.lt_ge_cases (len ns) 10) as [Hlt|]; [exfalso|done].
  assert (Hcases : len ns = 0 \/ len ns = 1 \/ len ns = 2 \/ len ns = 3
                   \/ len ns = 4 \/ len ns = 5 \/ len ns = 6 \/ len ns = 7
                   \/ len ns = 8 \/ len ns = 9) by lia.
  destruct Hcases as [E|[E|[E|[E|[E|[E|[E|[E|[E|E]]]]]]]]];
    rewrite E in Hone; by vm_compute in Hone.
Qed.

(** At the default tolerance, a misspelling in a pattern of 18 characters
    is within the bound, floor(18 * 0.1) = 1. *)
Lemma fuzzy_needs_room_witness :
  let c := mkCandidate Fuzzy (mkPageText 1 (str "The Important Findings")) 4
             (str "important findings") (Some 1%nat) in
  let ns := normalizeText (foldCase sampleRuntime (highlightOf "importent findings")
                             (instr_text (highlightOf "importent findings"))) in
  (exists d, mc_editDistance c = Some d /\ (1 <= d)%nat)
  /\ leFloored 1 (floorOfProduct (len ns) (1 # 10)) = true
  /\ 10 <= len ns.
Proof.
  destruct (fuzzy_needs_room sampleRuntime (highlightOf "importent findings")
              DEFAULT_ANNOTATION_OPTIONS
              (mkPageText 1 (str "The Important Findings"))
              (mkCandidate Fuzzy (mkPageText 1 (str "The Important Findings")) 4
                 (str "important findings") (Some 1%nat))
              ltac:(vm_compute; reflexivity) eq_refl)
    as (Hd & Hbound & Hlen).
  split; [exact Hd|]. split; [exact Hbound|]. exact (Hlen eq_refl).
Defined.

(** ** Which page is reported *)

Section ReportedPage.

Context (rt : Runtime).

Lemma searchPages_first_match instruction options ps c :
  firstMatchOnly options = false ->
  searchPages rt instruction options ps = Some c ->
  exists before after,
    ps = before ++ mc_page c :: after
    /\ Forall (fun page => searchPage rt instruction options page = None) before
    /\ searchPage rt instruction options (mc_page c) = Some c.
Proof.
  intros Hf. induction ps as [|page rest IH]; [done|]. simpl.
  destruct (searchPage rt instruction options page) as [c'|] eqn:Hp.
  - intros [= ->]. pose proof (searchPage_cases rt _ _ _ _ Hp) as [Hpage _].
    exists [], rest. rewrite Hpage. by repeat split.
  - rewrite Hf. intros H. destruct (IH H) as (before & after & -> & Hb & Hc).
    exists (page :: before), after. repeat split; [by constructor | done].
Qed.

Lemma searchPages_none_iff instruction options ps :
  firstMatchOnly options = false ->
  searchPages rt instruction options ps = None
  <-> Forall (fun page => searchPage rt instruction options page = None) ps.
Proof.
  intros Hf. induction ps as [|page rest IH]; [by split|]. simpl.
  destruct (searchPage rt instruction options page) eqn:Hp.
  - split; [done|]. intros H. inversion H; congruence.
  - rewrite Hf, IH. split; [by constructor|].
    intros H. by inversion H.
Qed.

End ReportedPage.

(** X13.  A search restricted to a page (a nonzero [pageNumber] in the
    instruction) never reports another page: any position found bears the
    requested page number. *)
Theorem restricted_search_reports_requested_page
    rt extractedText instruction options n position :
  instr_pageNumber instruction = Some n ->
  n <> 0 ->
  findTextPosition rt extractedText instruction options = Some position ->
  tp_pageNumber position = n.
Proof.
  intros Hn Hnz. unfold findTextPosition, findMatch.
  destruct (searchPages rt instruction options
              (pagesToSearch extractedText instruction)) as [c|] eqn:Hc; [|done].
  simpl. intros [= <-]. simpl.
  apply searchPages_found in Hc as (page & Hin & Hc).
  pose proof (searchPage_cases rt _ _ _ _ Hc) as [-> _].
  unfold pagesToSearch in Hin. rewrite Hn in Hin. simpl in Hin.
  destruct (Z.eqb_spec n 0) as [|_]; [done|]. simpl in Hin.
  apply list_elem_of_filter in Hin as [Heq _]. by injection Heq.
Qed.

Lemma restricted_search_reports_requested_page_witness :
  tp_pageNumber (createTextPosition 4 (str "total revenue") 6 (str "total revenue"))
  = 4.
Proof.
  apply (restricted_search_reports_requested_page sampleRuntime fourPages
           (mkInstruction HIGHLIGHT (str "total revenue") (Some 4) None None None)
           DEFAULT_ANNOTATION_OPTIONS 4).
  - reflexivity.
  - discriminate.
  - vm_compute. reflexivity.
Defined.

(** X14.  With [firstMatchOnly = false] the pages to search are tried in
    their order and the first one on which some strategy succeeds answers:
    every page before the reported one has failed; and nothing is found
    exactly when every page to search fails. *)
Theorem all_pages_search_reports_first_match
    rt extractedText instruction options :
  firstMatchOnly options = false ->
  (forall c, findMatch rt extractedText instruction options = Some c ->
     exists before after,
       pagesToSearch extractedText instruction = before ++ mc_page c :: after
       /\ Forall (fun page => searchPage rt instruction options page = None)
            before
       /\ searchPage rt instruction options (mc_page c) = Some c)
  /\ (findMatch rt extractedText instruction options = None
      <-> Forall (fun page => searchPage rt instruction options page = None)
            (pagesToSearch extractedText instruction)).
Proof.
  intros Hf. split.
  - intros c Hc. by apply searchPages_first_match.
  - by apply searchPages_none_iff.
Qed.

Lemma all_pages_search_reports_first_match_witness :
  let options := mkOptions (1 # 10) false true true in
  let instruction := highlightOf "total revenue" in
  findMatch sampleRuntime fourPages instruction options = None
  <-> Forall (fun page => searchPage sampleRuntime instruction options page = None)
        (pagesToSearch fourPages instruction).
Proof.
  apply (proj2 (all_pages_search_reports_first_match sampleRuntime fourPages
                  (highlightOf "total revenue")
                  (mkOptions (1 # 10) false true true) eq_refl)).
Defined.

(** ** What an instruction does to the document *)

Section DocumentEffects.

Context (rt : Runtime).

Lemma extendsPage_refl page : extendsPage page page.
Proof. repeat split. exists []. by rewrite app_nil_r. Qed.

Lemma extendsPage_trans p1 p2 p3 :
  extendsPage p1 p2 -> extendsPage p2 p3 -> extendsPage p1 p3.
Proof.
  intros (W1 & H1 & o1 & O1) (W2 & H2 & o2 & O2).
  split; [congruence|]. split; [congruence|].
  exists (o1 ++ o2). by rewrite O2, O1, app_assoc.
Qed.

Lemma extendsPage_drawOn page op : extendsPage page (drawOn page op).
Proof. repeat split. by exists [op]. Qed.

Lemma extendsPage_drawLines lines : forall page i x y h fs,
  extendsPage page (drawLines page lines i x y h fs).
Proof.
  induction lines as [|line rest IH]; intros; simpl; [apply extendsPage_refl|].
  eapply extendsPage_trans; [apply extendsPage_drawOn | apply IH].
Qed.

Lemma extendsPage_drawComment page pdfDoc position comment color w h :
  extendsPage page
    (fst (fst (drawComment rt page pdfDoc position comment color w h))).
Proof.
  unfold drawComment.
  destruct (fillError _ _); [apply extendsPage_refl|].
  destruct (wrapWords _ _ _ _ _) as [e|[lines0 currentLine]]; cbn [fst];
    (eapply extendsPage_trans; [apply extendsPage_drawOn|]);
    (eapply extendsPage_trans; [apply extendsPage_drawOn|]);
    [apply extendsPage_refl | apply extendsPage_drawLines].
Qed.

Lemma doc_fonts_drawComment page pdfDoc position comment color w h :
  (doc_fonts pdfDoc
   <= doc_fonts (snd (fst (drawComment rt page pdfDoc position comment color
                             w h))))%nat.
Proof.
  unfold drawComment. destruct (fillError _ _); [done|].
  destruct (wrapWords _ _ _ _ _) as [e|[lines0 currentLine]]; simpl; lia.
Qed.

Lemma drawHighlight_extends page position color w h page' :
  drawHighlight page position color w h = inr page' -> extendsPage page page'.
Proof.
  unfold drawHighlight. destruct (fillError _ _); [done|].
  intros [= <-]. apply extendsPage_drawOn.
Qed.

Lemma drawUnderline_extends page position color w h page' :
  drawUnderline page position color w h = inr page' -> extendsPage page page'.
Proof.
  unfold drawUnderline. destruct (fillError _ _); [done|].
  intros [= <-]. apply extendsPage_drawOn.
Qed.

Lemma extendsDocument_refl pdfDoc : extendsDocument pdfDoc pdfDoc.
Proof.
  split; [done|]. split; [done|]. intros k page Hk.
  exists page. split; [done | apply extendsPage_refl].
Qed.

Lemma extendsDocument_trans d1 d2 d3 :
  extendsDocument d1 d2 -> extendsDocument d2 d3 -> extendsDocument d1 d3.
Proof.
  intros (L1 & F1 & P1) (L2 & F2 & P2).
  split; [congruence|]. split; [lia|]. intros k page Hk.
  destruct (P1 k page Hk) as (p2 & Hk2 & E2).
  destruct (P2 k p2 Hk2) as (p3 & Hk3 & E3).
  exists p3. split; [done | by eapply extendsPage_trans].
Qed.

(** Replacing a page by an extension of it extends the document. *)
Lemma extendsDocument_putPage pdfDoc pages' fonts' index page page' :
  pages' = doc_pages pdfDoc ->
  (doc_fonts pdfDoc <= fonts')%nat ->
  getPage pdfDoc index = Some page ->
  extendsPage page page' ->
  extendsDocument pdfDoc (putPage (mkDocument pages' fonts') index page').
Proof.
  intros -> Hf Hget Hext. unfold getPage in Hget.
  destruct ((0 <=? index) && (index <? Z.of_nat (length (doc_pages pdfDoc))))
    eqn:Hr; [|done].
  unfold extendsDocument, putPage. simpl.
  split; [by rewrite length_insert|]. split; [done|].
  intros k p Hk. destruct (decide (k = Z.to_nat index)) as [->|Hne].
  - exists page'. rewrite list_lookup_insert_eq by (by eapply lookup_lt_Some).
    split; [done|]. congruence.
  - exists p. rewrite list_lookup_insert_ne by done.
    split; [done | apply extendsPage_refl].
Qed.

Lemma putPage_other_pages pdfDoc index page k :
  0 <= index -> Z.of_nat k <> index ->
  doc_pages (putPage pdfDoc index page) !! k = doc_pages pdfDoc !! k.
Proof.
  intros Hi Hk. unfold putPage. simpl.
  apply list_lookup_insert_ne. lia.
Qed.

Lemma getPage_index pdfDoc index page :
  getPage pdfDoc index = Some page -> 0 <= index.
Proof.
  unfold getPage. destruct (0 <=? index) eqn:H0; [|done].
  intros _. by apply Z.leb_le.
Qed.

(** Putting back a page as it was changes nothing. *)
Lemma putPage_same pdfDoc index page :
  getPage pdfDoc index = Some page -> putPage pdfDoc index page = pdfDoc.
Proof.
  unfold getPage, putPage.
  destruct ((0 <=? index) && (index <? Z.of_nat (length (doc_pages pdfDoc))));
    [|done].
  intros Hget. rewrite list_insert_id by done. by destruct pdfDoc.
Qed.

(** The ways an instruction can end: the document untouched and a failure;
    or the matched page drawn on, with a success or (a comment interrupted
    by an exception) a failure. *)
Lemma applyAnnotation_outcome pdfDoc extractedText instruction options :
  let outcome := applyAnnotation rt pdfDoc extractedText instruction options in
  (fst outcome = pdfDoc
   /\ exists error, snd outcome = failure instruction error)
  \/ (exists position page page' fonts',
        findTextPosition rt extractedText instruction options = Some position
        /\ getPage pdfDoc (tp_pageNumber position - 1) = Some page
        /\ fst outcome
           = putPage (mkDocument (doc_pages pdfDoc) fonts')
               (tp_pageNumber position - 1) page'
        /\ (snd outcome
            = mkResult instruction true (Some (instr_text instruction))
                (Some position) None
            \/ instr_type instruction = COMMENT
               /\ exists error, snd outcome = failure instruction error)
        /\ extendsPage page page'
        /\ (doc_fonts pdfDoc <= fonts')%nat).
Proof.
  unfold applyAnnotation.
  destruct (findTextPosition rt extractedText instruction options)
    as [position|] eqn:Hfind; [|left; eauto].
  assert (Htext : tp_text position = instr_text instruction).
  { unfold findTextPosition in Hfind.
    destruct (findMatch rt extractedText instruction options); [|done].
    simpl in Hfind. by injection Hfind as <-. }
  destruct (getPage pdfDoc (tp_pageNumber position - 1)) as [page|] eqn:Hget;
    [|left; eauto].
  assert (Hdoc : pdfDoc = mkDocument (doc_pages pdfDoc) (doc_fonts pdfDoc))
    by (by destruct pdfDoc).
  destruct (instr_type instruction) eqn:Htype;
    destruct (instr_color instruction) as [color|] eqn:Hcolor;
    cbn [DEFAULT_COLORS]; try (left; eauto; fail).
  1,2: destruct (drawHighlight _ _ _ _ _) as [e|page'] eqn:Hdraw;
    [left; eauto|]; apply drawHighlight_extends in Hdraw.
  3,4: destruct (drawUnderline _ _ _ _ _) as [e|page'] eqn:Hdraw;
    [left; eauto|]; apply drawUnderline_extends in Hdraw.
  1-4: right; exists position, page, page', (doc_fonts pdfDoc);
    rewrite Htext, <- Hdoc; cbn [fst snd]; auto 10.
  all: match goal with
       | |- context [drawComment rt ?pg ?dc ?ps ?m ?c ?w ?h] =>
           pose proof (doc_pages_drawComment rt pg dc ps m c w h) as Hpages;
           pose proof (doc_fonts_drawComment pg dc ps m c w h) as Hfonts;
           pose proof (extendsPage_drawComment pg dc ps m c w h) as Hext;
           destruct (drawComment rt pg dc ps m c w h)
             as [[page' [pages' fonts']] exception];
           cbn [fst snd doc_pages doc_fonts] in Hpages, Hfonts, Hext;
           subst pages';
           right; exists ps, pg, page', fonts'; rewrite Htext;
           destruct exception; cbn [fst snd]; eauto 10
       end.
Qed.

Lemma applyAnnotation_extends pdfDoc extractedText instruction options :
  extendsDocument pdfDoc
    (fst (applyAnnotation rt pdfDoc extractedText instruction options)).
Proof.
  destruct (applyAnnotation_outcome pdfDoc extractedText instruction options)
    as [[-> _]|(position & page & page' & fonts' & _ & Hget & -> & _ & Hext & Hf)].
  - apply extendsDocument_refl.
  - by eapply extendsDocument_putPage.
Qed.

Lemma processInstructions_extends extractedText options instructions :
  forall pdfDoc results warnings,
  extendsDocument pdfDoc
    (fst (fst (processInstructions rt extractedText options instructions
                 (pdfDoc, results, warnings)))).
Proof.
  induction instructions as [|instruction rest IH]; intros pdfDoc results warnings.
  - apply extendsDocument_refl.
  - simpl.
    pose proof (applyAnnotation_extends pdfDoc extractedText instruction options)
      as Hstep.
    destruct (applyAnnotation rt pdfDoc extractedText instruction options)
      as [pdfDoc' result].
    eapply extendsDocument_trans; [exact Hstep | apply IH].
Qed.

(** A failed instruction that is not a comment has drawn nothing. *)
Lemma applyAnnotation_failed_mark pdfDoc extractedText instruction options :
  instr_type instruction <> COMMENT ->
  res_success (snd (applyAnnotation rt pdfDoc extractedText instruction options))
  = false ->
  fst (applyAnnotation rt pdfDoc extractedText instruction options) = pdfDoc.
Proof.
  intros Htype.
  destruct (applyAnnotation_outcome pdfDoc extractedText instruction options)
    as [[Hdoc _]|(position & page & page' & fonts' & _ & _ & _ & Hres & _)];
    [done|].
  by destruct Hres as [-> | [? _]].
Qed.

(** A comment instruction that fails has either drawn nothing or embedded
    its font. *)
Lemma applyAnnotation_failed_comment pdfDoc extractedText instruction options :
  res_success (snd (applyAnnotation rt pdfDoc extractedText instruction options))
  = false ->
  fst (applyAnnotation rt pdfDoc extractedText instruction options) = pdfDoc
  \/ doc_fonts (fst (applyAnnotation rt pdfDoc extractedText instruction
                       options))
     = S (doc_fonts pdfDoc).
Proof.
  unfold applyAnnotation.
  destruct (findTextPosition rt extractedText instruction options)
    as [position|]; [|by left].
  destruct (getPage pdfDoc (tp_pageNumber position - 1)) as [page|] eqn:Hget;
    [|by left].
  destruct (instr_type instruction);
    destruct (instr_color instruction) as [color|];
    cbn [DEFAULT_COLORS];
    try match goal with
        | |- context [mkColor ?r ?g ?b ?a] =>
            generalize (mkColor r g b a); intros color
        end;
    try (by left).
  1,2: by destruct (drawHighlight _ _ _ _ _); [left|].
  1,2: by destruct (drawUnderline _ _ _ _ _); [left|].
  all: unfold drawComment;
    (destruct (fillError _ _);
     [intros _; left; by apply putPage_same|]);
    destruct (wrapWords _ _ _ _ _) as [e|[lines0 currentLine]];
    cbn [fst snd res_success]; [by right | done].
Qed.

End DocumentEffects.

(** X15.  What an instruction can change.  Only the matched page (page
    number minus one, counted from zero) is ever drawn on: every other page
    is untouched, whether the instruction succeeds or fails.  A failed
    highlight or underline leaves the document exactly as it was.  A failed
    comment does so too unless its text could not be measured, in which
    case the font has been embedded (and the box and the connector
    drawn) before the failure. *)
Theorem instruction_touches_only_reported_page
    rt pdfDoc extractedText instruction options :
  let outcome := applyAnnotation rt pdfDoc extractedText instruction options in
  (forall position k,
     findTextPosition rt extractedText instruction options = Some position ->
     Z.of_nat k <> tp_pageNumber position - 1 ->
     doc_pages (fst outcome) !! k = doc_pages pdfDoc !! k)
  /\ (findTextPosition rt extractedText instruction options = None ->
      fst outcome = pdfDoc)
  /\ (res_success (snd outcome) = false ->
      instr_type instruction <> COMMENT -> fst outcome = pdfDoc)
  /\ (res_success (snd outcome) = false ->
      fst outcome = pdfDoc
      \/ doc_fonts (fst outcome) = S (doc_fonts pdfDoc)).
Proof.
  intros outcome. subst outcome. split; [|split; [|split]].
  - intros pos k Hpos Hk.
    destruct (applyAnnotation_outcome rt pdfDoc extractedText instruction options)
      as [[-> _]
         |(position & page & page' & fonts' & Hfind & Hget & -> & _)]; [done|].
    rewrite Hpos in Hfind. injection Hfind as <-.
    apply list_lookup_insert_ne. apply getPage_index in Hget. lia.
  - intros Hnone. unfold applyAnnotation. by rewrite Hnone.
  - intros Hfail Htype. by apply applyAnnotation_failed_mark.
  - apply applyAnnotation_failed_comment.
Qed.

Lemma instruction_touches_only_reported_page_witness :
  let instruction :=
    mkInstruction HIGHLIGHT (str "nothing") None
      (Some (mkColor 2 0 0 None)) None None in
  let outcome :=
    applyAnnotation sampleRuntime fourPageDoc fourPages instruction
      DEFAULT_ANNOTATION_OPTIONS in
  res_success (snd outcome) = false /\ fst outcome = fourPageDoc.
Proof.
  split; [by vm_compute|].
  apply (proj1 (proj2 (proj2
           (instruction_touches_only_reported_page sampleRuntime fourPageDoc
              fourPages
              (mkInstruction HIGHLIGHT (str "nothing") None
                 (Some (mkColor 2 0 0 None)) None None)
              DEFAULT_ANNOTATION_OPTIONS)))).
  - vm_compute. reflexivity.
  - discriminate.
Defined.

(** X16.  Annotating never removes anything: the returned document has the
    same number of pages as the loaded one, every page keeps its size, and
    the drawing calls already on a page are kept, in order, before the new
    ones; embedded fonts only accumulate. *)
Theorem annotatePDF_only_adds rt pdfDoc extractedText request :
  exists pdfDoc',
    resp_pdfBuffer (annotatePDF rt pdfDoc extractedText request) = Some pdfDoc'
    /\ extendsDocument pdfDoc pdfDoc'.
Proof.
  unfold annotatePDF.
  pose proof (processInstructions_extends rt extractedText
                (mergeOptions (req_options request)) (req_instructions request)
                pdfDoc [] []) as Hext.
  destruct (processInstructions rt extractedText
              (mergeOptions (req_options request)) (req_instructions request)
              (pdfDoc, [], [])) as [[pdfDoc' results] warnings].
  simpl in *. eauto.
Qed.

(** X17.  A result carries either a position or an error, never both: a
    successful one has the position found by [findTextPosition], no error,
    and as matched text the instruction's own text (not the substring that
    matched); a failed one has an error and neither position nor matched
    text. *)
Theorem result_is_position_or_error
    rt pdfDoc extractedText instruction options :
  let result :=
    snd (applyAnnotation rt pdfDoc extractedText instruction options) in
  (res_success result = true
   /\ res_error result = None
   /\ res_matchedText result = Some (instr_text instruction)
   /\ exists position,
        res_position result = Some position
        /\ findTextPosition rt extractedText instruction options = Some position
        /\ tp_text position = instr_text instruction)
  \/ (res_success result = false
      /\ res_position result = None
      /\ res_matchedText result = None
      /\ exists error, res_error result = Some error).
Proof.
  intros result. subst result.
  destruct (applyAnnotation_outcome rt pdfDoc extractedText instruction options)
    as [[_ [error Hres]]
       |(position & page & page' & fonts' & Hfind & _ & _
         & [Hres|[_ [error Hres]]] & _)];
    rewrite Hres; simpl.
  - right. eauto.
  - left. repeat split. exists position. repeat split; [done|].
    unfold findTextPosition in Hfind.
    destruct (findMatch rt extractedText instruction options); [|done].
    simpl in Hfind. by injection Hfind as <-.
  - right. eauto.
Qed.

(** ** The comment callout *)

Section CalloutText.

Context (rt : Runtime).

Lemma splitSpace_nonempty s : splitSpace s <> [].
Proof.
  destruct s as [|c r]; [done|]. simpl.
  destruct (c =? 32)%N; [done|]. by destruct (splitSpace r).
Qed.

Lemma joinWith_cons sep p rest :
  rest <> [] -> joinWith sep (p :: rest) = p ++ sep ++ joinWith sep rest.
Proof. by destruct rest. Qed.

(** [split] then [join] gives the text back. *)
Lemma joinWith_splitSpace s : joinWith [32%N] (splitSpace s) = s.
Proof.
  induction s as [|c r IH]; [done|]. simpl.
  destruct (c =? 32)%N eqn:Hc.
  - apply N.eqb_eq in Hc as ->.
    rewrite joinWith_cons by apply splitSpace_nonempty. by rewrite IH.
  - destruct (splitSpace r) as [|w ws] eqn:Hs; [by apply splitSpace_nonempty in Hs|].
    rewrite <- IH. by destruct ws.
Qed.

Lemma joinWith_merge sep x y : forall before after,
  joinWith sep (before ++ (x ++ sep ++ y) :: after)
  = joinWith sep (before ++ x :: y :: after).
Proof.
  induction before as [|b before IH]; intros after.
  - simpl. destruct after; [done|]. by rewrite <- !app_assoc.
  - simpl app.
    rewrite !joinWith_cons by (by destruct before). by rewrite IH.
Qed.

Lemma wrap_fold_keeps_text commentWidth fontSize words : forall lines cur,
  Forall (fun w => w <> []) words -> cur <> [] ->
  exists lines' cur',
    fold_left (wrapStep rt commentWidth fontSize) words (lines, cur)
    = (lines', cur')
    /\ cur' <> []
    /\ joinWith [32%N] (lines' ++ [cur'])
       = joinWith [32%N] (lines ++ cur :: words).
Proof.
  induction words as [|w rest IH]; intros lines cur Hw Hcur.
  - exists lines, cur. by repeat split.
  - inversion Hw as [|? ? Hw1 Hrest]; subst. simpl.
    destruct cur as [|c cur']; [done|]. cbn [nonEmpty].
    destruct (negb (Qle_bool (commentWidth - 10)
                      (widthOfTextAtSize rt ((c :: cur') ++ 32%N :: w) fontSize))).
    + destruct (IH lines ((c :: cur') ++ 32%N :: w) Hrest ltac:(done))
        as (lines' & cur'' & -> & Hne & Hjoin).
      exists lines', cur''. split; [done|]. split; [done|].
      rewrite Hjoin.
      apply (joinWith_merge [32%N] (c :: cur') w lines rest).
    + destruct (IH (lines ++ [c :: cur']) w Hrest Hw1)
        as (lines' & cur'' & -> & Hne & Hjoin).
      exists lines', cur''. split; [done|]. split; [done|].
      by rewrite Hjoin, <- app_assoc.
Qed.

Lemma wrap_fold_lines_fit commentWidth fontSize (allWords : list jsstring) words :
  forall lines cur,
  let ok line :=
    line <> []
    /\ ((widthOfTextAtSize rt line fontSize < commentWidth - 10)%Q
        \/ line ∈ allWords) in
  (forall w, w ∈ words -> w ∈ allWords) ->
  Forall ok lines -> (cur = [] \/ ok cur) ->
  let st := fold_left (wrapStep rt commentWidth fontSize) words (lines, cur) in
  Forall ok (fst st) /\ (snd st = [] \/ ok (snd st)).
Proof.
  induction words as [|w rest IH]; intros lines cur ok Hsub Hlines Hcur;
    [by split|].
  simpl. set (testLine := if nonEmpty cur then cur ++ 32%N :: w else w).
  assert (Hw : w ∈ allWords) by (apply Hsub; left).
  assert (Hrest : forall w', w' ∈ rest -> w' ∈ allWords)
    by (intros w' Hw'; apply Hsub; by right).
  destruct (negb (Qle_bool (commentWidth - 10)
                    (widthOfTextAtSize rt testLine fontSize))) eqn:Hfit.
  - apply IH; [done|done|].
    destruct testLine as [|c t] eqn:Ht; [by left|]. right.
    split; [done|]. left.
    apply negb_true_iff in Hfit. apply Qnot_le_lt. intros Hle.
    apply Qle_bool_iff in Hle. congruence.
  - apply IH; [done| |].
    + destruct cur as [|c cur']; [done|]. cbn [nonEmpty].
      apply Forall_app. split; [done|]. constructor; [|constructor].
      by destruct Hcur.
    + destruct w as [|c w']; [by left|]. right. split; [done|]. by right.
Qed.

End CalloutText.

(** X18.  What a comment callout leaves behind.  When pdf-lib rejects the
    colour, nothing is drawn and nothing embedded.  When it accepts the
    colour, one font is embedded and the page gains one box and one
    connector line; if the wrap loop completes, which it does whenever the
    font encodes the comment, the first five lines of the wrapped comment
    follow, in order, and lines beyond the fifth are dropped; if measuring
    throws, no text at all is drawn and the box and connector stay. *)
Theorem callout_shows_first_five_lines
    rt page pdfDoc position comment color pageWidth pageHeight :
  let outcome :=
    drawComment rt page pdfDoc position comment color pageWidth pageHeight in
  let page' := fst (fst outcome) in
  let pdfDoc' := snd (fst outcome) in
  let exception := snd outcome in
  let lines := wrapComment rt comment 140 8 in
  let accepted := fillError color (orElseQ (color_a color) (8 # 10)) = None in
  (~ accepted -> page' = page /\ pdfDoc' = pdfDoc /\ exception <> None)
  /\ (accepted ->
      doc_fonts pdfDoc' = S (doc_fonts pdfDoc)
      /\ doc_pages pdfDoc' = doc_pages pdfDoc)
  /\ (accepted -> exception = None ->
      textsOnPage page' = textsOnPage page ++ take 5 lines
      /\ length (page_ops page')
         = (length (page_ops page) + 2 + Nat.min 5 (length lines))%nat)
  /\ (accepted -> exception <> None ->
      textsOnPage page' = textsOnPage page
      /\ length (page_ops page') = (length (page_ops page) + 2)%nat
      /\ encodable rt comment = false)
  /\ (accepted -> encodable rt comment = true -> exception = None).
Proof.
  intros outcome page' pdfDoc' exception lines accepted.
  subst accepted page' pdfDoc' exception outcome lines.
  destruct (fillError color (orElseQ (color_a color) (8 # 10)))
    as [e|] eqn:Hfill.
  - rewrite (drawComment_rejected rt page pdfDoc position comment color
               pageWidth pageHeight e Hfill).
    cbn [fst snd]. repeat split; intros; done.
  - destruct (wrapWords rt 140 8 (splitSpace comment) ([], []))
      as [e|st] eqn:Hwrap.
    + destruct (drawComment_interrupted rt page pdfDoc position comment color
                  pageWidth pageHeight e Hfill Hwrap)
        as (Hex & Hdoc & Htexts & Hlen).
      rewrite Hex, Hdoc, Htexts, Hlen. cbn [doc_fonts doc_pages].
      assert (Henc : encodable rt comment = false).
      { destruct (encodable rt comment) eqn:Henc; [|done].
        destruct (wrapWords_comment rt 140 8 comment Henc) as [st Hst].
        congruence. }
      repeat split; intros; try done. congruence.
    + destruct (drawComment_completed rt page pdfDoc position comment color
                  pageWidth pageHeight st Hfill Hwrap)
        as (Hex & Hdoc & Htexts & Hlen).
      rewrite Hex, Hdoc, Htexts, Hlen. cbn [doc_fonts doc_pages].
      repeat split; intros; done.
Qed.

(** A comment with a line break, which WinAnsi does not encode: the box and
    the connector are drawn and the font embedded, then measuring throws;
    no text is drawn and the instruction fails. *)
Lemma callout_interrupted_example :
  let instruction :=
    mkInstruction COMMENT (str "nothing") None None
      (Some (str "first" ++ [10%N] ++ str "second")) None in
  let outcome :=
    applyAnnotation sampleRuntime fourPageDoc fourPages instruction
      DEFAULT_ANNOTATION_OPTIONS in
  res_success (snd outcome) = false
  /\ res_error (snd outcome) = Some (str "cannot encode text")
  /\ doc_fonts (fst outcome) = 1%nat
  /\ (length <$> (page_ops <$> getPage (fst outcome) 0)) = Some 2%nat
  /\ (textsOnPage <$> getPage (fst outcome) 0) = Some [].
Proof. by vm_compute. Qed.

(** X19.  Wrapping loses no text and splits no word: for a comment whose
    words are separated by single spaces (no leading, trailing or doubled
    space), the wrapped lines joined by single spaces give the comment
    back. *)
Theorem wrapComment_keeps_text rt comment commentWidth fontSize :
  Forall (fun w => w <> []) (splitSpace comment) ->
  joinWith [32%N] (wrapComment rt comment commentWidth fontSize) = comment.
Proof.
  intros Hwords. unfold wrapComment.
  destruct (splitSpace comment) as [|w rest] eqn:Hs;
    [by apply splitSpace_nonempty in Hs|].
  inversion Hwords as [|? ? Hw Hrest]; subst.
  assert (Hfirst : wrapStep rt commentWidth fontSize ([], []) w = ([], w)).
  { unfold wrapStep. cbn [nonEmpty].
    by destruct (negb (Qle_bool (commentWidth - 10)
                        (widthOfTextAtSize rt w fontSize))). }
  cbn [fold_left]. rewrite Hfirst.
  destruct (wrap_fold_keeps_text rt commentWidth fontSize rest [] w Hrest Hw)
    as (lines' & cur' & -> & Hne & Hjoin).
  destruct cur' as [|c cur']; [done|]. cbn [nonEmpty].
  rewrite Hjoin. simpl app. rewrite <- Hs. apply joinWith_splitSpace.
Qed.

Lemma wrapComment_keeps_text_witness :
  joinWith [32%N]
    (wrapComment sampleRuntime
       (str "this paragraph needs a closer look by the whole review team") 140 8)
  = str "this paragraph needs a closer look by the whole review team".
Proof.
  apply (wrapComment_keeps_text sampleRuntime
           (str "this paragraph needs a closer look by the whole review team")
           140 8).
  vm_compute. repeat (constructor; [discriminate|]). constructor.
Defined.

(** X20.  Every wrapped line is non-empty, and it is narrower than the
    callout's inner width (the comment width less 10 points) unless it is a
    single word of the comment, the one case in which a line can
    overflow. *)
Theorem wrapComment_lines_fit rt comment commentWidth fontSize line :
  line ∈ wrapComment rt comment commentWidth fontSize ->
  line <> []
  /\ ((widthOfTextAtSize rt line fontSize < commentWidth - 10)%Q
      \/ line ∈ splitSpace comment).
Proof.
  unfold wrapComment.
  pose proof (wrap_fold_lines_fit rt commentWidth fontSize (splitSpace comment)
                (splitSpace comment) [] [] ltac:(done) ltac:(constructor)
                ltac:(by left)) as [Hlines Hcur].
  destruct (fold_left (wrapStep rt commentWidth fontSize) (splitSpace comment)
              ([], [])) as [lines cur].
  simpl in Hlines, Hcur. intros Hin.
  assert (Hall : Forall (fun l =>
            l <> [] /\ ((widthOfTextAtSize rt l fontSize < commentWidth - 10)%Q
                        \/ l ∈ splitSpace comment))
            (if nonEmpty cur then lines ++ [cur] else lines)).
  { destruct cur as [|c cur']; [done|]. cbn [nonEmpty].
    apply Forall_app. split; [done|]. constructor; [|constructor].
    by destruct Hcur. }
  rewrite Forall_forall in Hall. apply Hall. by apply list_elem_of_In.
Qed.

Lemma wrapComment_lines_fit_witness :
  str "this paragraph needs a closer" <> []
  /\ ((widthOfTextAtSize sampleRuntime (str "this paragraph needs a closer") 8
       < 140 - 10)%Q
      \/ str "this paragraph needs a closer"
         ∈ splitSpace
             (str "this paragraph needs a closer look by the whole review team")).
Proof.
  apply (wrapComment_lines_fit sampleRuntime
           (str "this paragraph needs a closer look by the whole review team")
           140 8).
  vm_compute. left.
Defined.

(** ** Warnings *)

Section Warnings.

Context (rt : Runtime).

(** The warnings the loop adds: one per failed result when failures are
    logged and not skipped, none otherwise. *)
Lemma processInstructions_warnings extractedText options instructions :
  forall pdfDoc results warnings,
  exists new,
    snd (fst (processInstructions rt extractedText options instructions
                (pdfDoc, results, warnings)))
    = results ++ new
    /\ snd (processInstructions rt extractedText options instructions
              (pdfDoc, results, warnings))
       = warnings
         ++ (if logNotFound options && negb (skipNotFound options)
             then map (fun r => warningMessage (res_instruction r) r)
                    (filter (fun r => res_success r = false) new)
             else []).
Proof.
  induction instructions as [|instruction rest IH]; intros pdfDoc results warnings.
  - exists []. simpl. rewrite app_nil_r. split; [done|].
    destruct (logNotFound options && negb (skipNotFound options));
      by rewrite ?filter_nil, app_nil_r.
  - simpl.
    pose proof (applyAnnotation_instruction rt pdfDoc extractedText instruction
                  options) as Hi.
    destruct (applyAnnotation rt pdfDoc extractedText instruction options)
      as [pdfDoc' result]. simpl in Hi.
    match goal with
    | |- context [processInstructions _ _ _ rest (pdfDoc', ?rs, ?ws)] =>
        destruct (IH pdfDoc' rs ws) as (new & Hnew & Hws)
    end.
    exists (result :: new). rewrite Hnew, Hws, <- app_assoc. split; [done|].
    destruct (res_success result) eqn:Hs; simpl.
    + rewrite filter_cons_False by (rewrite Hs; done). done.
    + rewrite filter_cons_True by done.
      destruct (logNotFound options && negb (skipNotFound options)); simpl.
      * rewrite <- app_assoc. simpl. by rewrite Hi.
      * done.
Qed.

End Warnings.

(** X21.  The warnings of a response: when failures are logged and not
    skipped ([logNotFound] true, [skipNotFound] false) there is one warning
    per failed result, in order, naming the annotation type, the text and
    the error; otherwise, and whenever no instruction failed, the response
    has no warnings.  With the default options no warning is ever
    returned. *)
Theorem annotatePDF_warnings rt pdfDoc extractedText request :
  let options := mergeOptions (req_options request) in
  let response := annotatePDF rt pdfDoc extractedText request in
  let failed := filter (fun r => res_success r = false) (resp_results response) in
  resp_warnings response
  = (if logNotFound options && negb (skipNotFound options) && nonEmpty' failed
     then Some (map (fun r => warningMessage (res_instruction r) r) failed)
     else None)
  /\ (req_options request = None -> resp_warnings response = None).
Proof.
  intros options response failed. subst failed response.
  unfold annotatePDF. fold options.
  destruct (processInstructions_warnings rt extractedText options
              (req_instructions request) pdfDoc [] []) as (new & Hnew & Hws).
  destruct (processInstructions rt extractedText options
              (req_instructions request) (pdfDoc, [], []))
    as [[pdfDoc' results] warnings].
  simpl in Hnew, Hws. subst results warnings. simpl.
  assert (Hmain :
    (if nonEmpty'
          (if logNotFound options && negb (skipNotFound options)
           then map (fun r => warningMessage (res_instruction r) r)
                  (filter (fun r => res_success r = false) new)
           else [])
     then Some (if logNotFound options && negb (skipNotFound options)
                then map (fun r => warningMessage (res_instruction r) r)
                       (filter (fun r => res_success r = false) new)
                else [])
     else None)
    = (if logNotFound options && negb (skipNotFound options)
          && nonEmpty' (filter (fun r => res_success r = false) new)
       then Some (map (fun r => warningMessage (res_instruction r) r)
                    (filter (fun r => res_success r = false) new))
       else None)).
  { destruct (logNotFound options && negb (skipNotFound options)); [|done].
    by destruct (filter (fun r => res_success r = false) new). }
  split; [exact Hmain|].
  intros Hnone. rewrite Hmain. unfold options. by rewrite Hnone.
Qed.

Lemma annotatePDF_warnings_witness :
  resp_warnings
    (annotatePDF sampleRuntime fourPageDoc fourPages
       (mkRequest [highlightOf "zebra"] None)) = None.
Proof.
  apply (proj2 (annotatePDF_warnings sampleRuntime fourPageDoc fourPages
                  (mkRequest [highlightOf "zebra"] None))).
  reflexivity.
Defined.

(** With [skipNotFound = false] the failed instruction is reported. *)
Lemma annotatePDF_warning_example :
  resp_warnings
    (annotatePDF sampleRuntime fourPageDoc fourPages
       (mkRequest [highlightOf "zebra"]
          (Some (mkAnnotationOptions None None (Some false) None))))
  = Some [str "Failed to apply highlight annotation for text " ++ [34%N]
          ++ str "zebra" ++ [34%N] ++ str ": Text not found in document"].
Proof. by vm_compute. Qed.

(** ** Text extraction *)

Section Extraction.

Lemma extractPages_lookup contents : forall i k items,
  contents !! k = Some items ->
  extractPages contents i !! k
  = Some (mkPageText (i + Z.of_nat k) (trim (pageTextOf items))).
Proof.
  induction contents as [|c rest IH]; intros i k items Hk; [done|].
  destruct k as [|k].
  - simpl in *. injection Hk as ->. by rewrite Z.add_0_r.
  - change ((c :: rest) !! S k) with (rest !! k) in Hk.
    change (extractPages (c :: rest) i !! S k)
      with (extractPages rest (i + 1) !! k).
    rewrite (IH (i + 1) k items Hk). do 2 f_equal. lia.
Qed.

Lemma length_extractPages contents : forall i,
  length (extractPages contents i) = length contents.
Proof. induction contents as [|c rest IH]; intros i; simpl; [done|]. by rewrite IH. Qed.

Lemma extractPages_numbers contents : forall i page,
  page ∈ extractPages contents i ->
  i <= pageNumber page < i + Z.of_nat (length contents)
  /\ trim (text page) = text page.
Proof.
  induction contents as [|c rest IH]; intros i page Hin;
    [by apply elem_of_nil in Hin|].
  simpl in Hin. apply elem_of_cons in Hin as [->|Hin].
  - simpl. split; [lia | apply trim_idem].
  - destruct (IH (i + 1) page Hin) as [Hr Ht]. simpl length. split; [lia|done].
Qed.

(** [z === n] for a number [n] that is the integer [m]. *)
Lemma eqNumber_integer z m q :
  (q == inject_Z m)%Q -> eqNumber z (Finite q) = (z =? m).
Proof.
  intros Hq. simpl. destruct (Z.eqb_spec z m) as [->|Hne].
  - apply Qeq_bool_iff. by symmetry.
  - apply not_true_is_false. intros H. apply Qeq_bool_iff in H.
    rewrite Hq in H. by apply (proj1 (inject_Z_injective z m)) in H.
Qed.

Lemma find_extractPages contents q : forall i k items,
  contents !! k = Some items ->
  (q == inject_Z (i + Z.of_nat k))%Q ->
  List.find (fun p => eqNumber (pageNumber p) (Finite q)) (extractPages contents i)
  = Some (mkPageText (i + Z.of_nat k) (trim (pageTextOf items))).
Proof.
  induction contents as [|c rest IH]; intros i k items Hk Hq; [done|].
  cbn [extractPages List.find pageNumber].
  rewrite (eqNumber_integer _ _ _ Hq).
  destruct k as [|k].
  - simpl in Hk. injection Hk as ->. by rewrite Z.add_0_r, Z.eqb_refl.
  - change ((c :: rest) !! S k) with (rest !! k) in Hk.
    destruct (Z.eqb_spec i (i + Z.of_nat (S k))) as [Heq|_]; [lia|].
    replace (i + Z.of_nat (S k)) with (i + 1 + Z.of_nat k) in * by lia.
    by apply IH.
Qed.

(** No page bears a number that is not an integer. *)
Lemma find_no_page (n : JsNumber) (ps : list PageText) :
  (forall z, eqNumber z n = false) ->
  List.find (fun p => eqNumber (pageNumber p) n) ps = None.
Proof.
  intros Hn. induction ps as [|p ps IH]; [done|]. simpl. by rewrite Hn.
Qed.

End Extraction.

(** X22.  [extractTextFromPDF] numbers the pages 1, 2, ... in document
    order, one per page of the document, and reports their count as
    [totalPages]; the text of each page is the text assembled from its
    items with leading and trailing whitespace removed. *)
Theorem extraction_numbers_pages (contents : list (list TextItem)) :
  let extracted := extractTextFromPDF contents in
  length (pages extracted) = length contents
  /\ totalPages extracted = Z.of_nat (length contents)
  /\ (forall k items, contents !! k = Some items ->
        pages extracted !! k
        = Some (mkPageText (Z.of_nat k + 1) (trim (pageTextOf items))))
  /\ Forall (fun page =>
               1 <= pageNumber page <= totalPages extracted
               /\ trim (text page) = text page)
       (pages extracted).
Proof.
  simpl. split; [apply length_extractPages|]. split; [done|]. split.
  - intros k items Hk. rewrite (extractPages_lookup contents 1 k items Hk).
    do 2 f_equal. lia.
  - apply Forall_forall. intros page Hin. apply list_elem_of_In in Hin.
    destruct (extractPages_numbers contents 1 page Hin) as [Hr Ht].
    split; [lia | done].
Qed.

(** X23.  [extractTextFromPage] on an extracted document, for any number:
    an integer from 1 to the number of pages gives that page, which bears
    the number asked for; a number below 1 or above the number of pages
    (the infinities included) is rejected as an invalid page number; a number
    within the range that is not an integer, and NaN, pass the range test
    and are answered by the second error, 'Could not extract text'. *)
Theorem extractTextFromPage_validates
    (contents : list (list TextItem)) (n : JsNumber) :
  let extracted := extractTextFromPDF contents in
  let total := Z.of_nat (length contents) in
  (forall q z, n = Finite q -> (q == inject_Z z)%Q -> 1 <= z <= total ->
     exists items,
       contents !! Z.to_nat (z - 1) = Some items
       /\ extractTextFromPage extracted n
          = inl (mkPageText z (trim (pageTextOf items))))
  /\ (ltNumber n 1 = true \/ gtNumber n total = true ->
      extractTextFromPage extracted n = inr (InvalidPageNumber n total))
  /\ (forall q, n = Finite q ->
        (1 <= q)%Q -> (q <= inject_Z total)%Q ->
        (forall z, ~ (q == inject_Z z)%Q) ->
        extractTextFromPage extracted n = inr (CouldNotExtract n))
  /\ (n = NaN -> extractTextFromPage extracted n = inr (CouldNotExtract n)).
Proof.
  intros extracted total. subst extracted total.
  unfold extractTextFromPage. cbn [extractTextFromPDF pages totalPages].
  split; [|split; [|split]].
  - intros q z -> Hq Hz.
    destruct (lookup_lt_is_Some_2 contents (Z.to_nat (z - 1)) ltac:(lia))
      as [items Hitems].
    exists items. split; [done|].
    assert (H1 : ltNumber (Finite q) 1 = false).
    { simpl. apply negb_false_iff, Qle_bool_iff. rewrite Hq, <- Zle_Qle. lia. }
    assert (H2 : gtNumber (Finite q) (Z.of_nat (length contents)) = false).
    { simpl. apply negb_false_iff, Qle_bool_iff. rewrite Hq, <- Zle_Qle. lia. }
    rewrite H1, H2. cbn [orb].
    rewrite (find_extractPages contents q 1 (Z.to_nat (z - 1)) items Hitems)
      by (rewrite Hq; f_equiv; lia).
    do 2 f_equal. lia.
  - intros Hout. by apply orb_true_iff in Hout as ->.
  - intros q -> Hlo Hhi Hfrac.
    assert (H1 : ltNumber (Finite q) 1 = false)
      by (by apply negb_false_iff, Qle_bool_iff).
    assert (H2 : gtNumber (Finite q) (Z.of_nat (length contents)) = false)
      by (by apply negb_false_iff, Qle_bool_iff).
    rewrite H1, H2. cbn [orb]. rewrite find_no_page; [done|].
    intros z. apply not_true_is_false. intros H. apply Qeq_bool_iff in H.
    apply (Hfrac z). by symmetry.
  - intros ->. cbn [ltNumber gtNumber orb]. by rewrite find_no_page.
Qed.

Lemma extractTextFromPage_validates_witness :
  let contents :=
    [[mkTextItem (Some (str "first page")) None];
     [mkTextItem (Some (str "second")) (Some 700%Q);
      mkTextItem (Some (str "page")) (Some 680%Q)]] in
  (exists items,
     contents !! Z.to_nat (2 - 1) = Some items
     /\ extractTextFromPage (extractTextFromPDF contents) (Finite 2)
        = inl (mkPageText 2 (trim (pageTextOf items))))
  /\ extractTextFromPage (extractTextFromPDF contents) (Finite (3 # 2))
     = inr (CouldNotExtract (Finite (3 # 2))).
Proof.
  split.
  - apply (proj1 (extractTextFromPage_validates
                    [[mkTextItem (Some (str "first page")) None];
                     [mkTextItem (Some (str "second")) (Some 700%Q);
                      mkTextItem (Some (str "page")) (Some 680%Q)]]
                    (Finite 2)) 2%Q 2); [reflexivity | reflexivity | simpl; lia].
  - apply (proj1 (proj2 (proj2 (extractTextFromPage_validates
                    [[mkTextItem (Some (str "first page")) None];
                     [mkTextItem (Some (str "second")) (Some 700%Q);
                      mkTextItem (Some (str "page")) (Some 680%Q)]]
                    (Finite (3 # 2))))) (3 # 2)%Q);
      [reflexivity | by vm_compute | by vm_compute |].
    intros z Hz. unfold Qeq in Hz. simpl in Hz. lia.
Defined.

(** ** Searching the extracted pages *)

Section PageSearch.

Context (rt : Runtime).

Lemma includes_infix t s : includes t s = true <-> exists u v, t = u ++ s ++ v.
Proof.
  unfold includes. rewrite negb_true_iff, Z.eqb_neq. split.
  - apply indexOf_found.
  - intros (u & v & ->). apply indexOf_of_infix.
Qed.

Lemma findTextInPages_elem extracted searchText caseSensitive n :
  n ∈ findTextInPages rt extracted searchText caseSensitive
  <-> exists page,
        page ∈ pages extracted /\ pageNumber page = n
        /\ includes
             (if caseSensitive then text page else toLowerCase rt (text page))
             (if caseSensitive then searchText else toLowerCase rt searchText)
           = true.
Proof.
  unfold findTextInPages. rewrite list_elem_of_In, in_map_iff. split.
  - intros (page & Hn & Hin). apply list_elem_of_In in Hin.
    apply list_elem_of_filter in Hin as [Hinc Hin]. eauto.
  - intros (page & Hin & Hn & Hinc). exists page. split; [done|].
    apply list_elem_of_In. by apply list_elem_of_filter.
Qed.

End PageSearch.

(** X24.  Every page [findTextInPages] reports for a text is a page on which
    the annotator finds that text with its first strategy: an instruction
    with the same text and case sensitivity gets an Exact candidate on that
    page. *)
Theorem found_pages_are_exact_matches rt extracted instruction options n :
  n ∈ findTextInPages rt extracted (instr_text instruction)
        (truthyBool (instr_caseSensitive instruction)) ->
  exists page c,
    page ∈ pages extracted
    /\ pageNumber page = n
    /\ searchPage rt instruction options page = Some c
    /\ mc_strategy c = Exact.
Proof.
  intros Hn. apply findTextInPages_elem in Hn as (page & Hin & Hnum & Hinc).
  exists page.
  assert (Hraw : indexOf (foldCase rt instruction (text page))
                   (foldCase rt instruction (instr_text instruction)) <> -1).
  { unfold foldCase, includes in *.
    apply negb_true_iff, Z.eqb_neq in Hinc.
    by destruct (truthyBool (instr_caseSensitive instruction)). }
  apply raw_match_is_exact_match in Hraw.
  unfold searchPage. apply Z.eqb_neq in Hraw. rewrite Hraw. simpl.
  eexists. by repeat split.
Qed.

Lemma found_pages_are_exact_matches_witness :
  exists page c,
    page ∈ pages fourPages
    /\ pageNumber page = 4
    /\ searchPage sampleRuntime (highlightOf "Total Revenue")
         DEFAULT_ANNOTATION_OPTIONS page = Some c
    /\ mc_strategy c = Exact.
Proof.
  apply (found_pages_are_exact_matches sampleRuntime fourPages
           (highlightOf "Total Revenue") DEFAULT_ANNOTATION_OPTIONS 4).
  vm_compute. right. left.
Defined.

(** X25.  [findTextInPages] lists page numbers in document order; a
    case-sensitive search for the empty text lists every page; and a
    case-sensitive search for a part of a text finds at least the pages
    found for the whole text. *)
Theorem findTextInPages_properties rt extracted :
  (forall searchText caseSensitive,
     sublist (findTextInPages rt extracted searchText caseSensitive)
       (map pageNumber (pages extracted)))
  /\ findTextInPages rt extracted [] true = map pageNumber (pages extracted)
  /\ (forall before part after n,
        n ∈ findTextInPages rt extracted (before ++ part ++ after) true ->
        n ∈ findTextInPages rt extracted part true).
Proof.
  split; [|split].
  - intros searchText caseSensitive. unfold findTextInPages.
    apply (fmap_sublist pageNumber), sublist_filter.
  - unfold findTextInPages. f_equal.
    induction (pages extracted) as [|page rest IH]; [done|].
    rewrite filter_cons_True; [by rewrite IH|].
    unfold includes. by rewrite indexOf_empty.
  - intros before part after n Hn.
    apply findTextInPages_elem in Hn as (page & Hin & Hnum & Hinc).
    apply findTextInPages_elem. exists page. split; [done|]. split; [done|].
    apply includes_infix in Hinc as (u & v & Ht). apply includes_infix.
    exists (u ++ before), (after ++ v). rewrite Ht. by rewrite <- !app_assoc.
Qed.

(** ** Item separators and the normalizer *)

Section ItemSeparators.

Lemma sameLayout_refl x : sameLayout x x.
Proof. by intros b tail. Qed.

Lemma sameLayout_sym x y : sameLayout x y -> sameLayout y x.
Proof. intros H b tail. by rewrite H. Qed.

Lemma sameLayout_trans x y z : sameLayout x y -> sameLayout y z -> sameLayout x z.
Proof. intros H1 H2 b tail. by rewrite H1, H2. Qed.

Lemma sameLayout_app_r x y z : sameLayout x y -> sameLayout (x ++ z) (y ++ z).
Proof. intros H b tail. by rewrite <- !app_assoc, H. Qed.

Lemma sameLayout_app_l x y z : sameLayout x y -> sameLayout (z ++ x) (z ++ y).
Proof.
  intros H b tail. rewrite <- !app_assoc.
  apply replaceWsRuns_app_congr. intros b'. apply H.
Qed.

Lemma sameLayout_run w :
  w <> [] -> Forall (fun c => isWhitespace c = true) w -> sameLayout w [32%N].
Proof. intros Hne Hw b tail. by apply replaceWsRuns_run. Qed.

Lemma lastChar_snoc x c : lastChar x = Some c -> exists x', x = x' ++ [c].
Proof.
  induction x as [|d x IH]; [done|]. destruct x as [|e x].
  - intros [= ->]. by exists [].
  - intros H. destruct (IH H) as [x' Hx']. exists (d :: x'). simpl. by rewrite <- Hx'.
Qed.

Lemma lastChar_app x y : y <> [] -> lastChar (x ++ y) = lastChar y.
Proof.
  intros Hy. induction x as [|d x IH]; [done|].
  simpl app. destruct (x ++ y) eqn:E; [by destruct x, y|]. by rewrite <- IH.
Qed.

(** After a text that ends in whitespace a further space changes nothing. *)
Lemma sameLayout_after_whitespace x c :
  lastChar x = Some c -> isWhitespace c = true -> sameLayout x (x ++ [32%N]).
Proof.
  intros Hx Hc. apply lastChar_snoc in Hx as [x' ->].
  rewrite <- app_assoc. apply sameLayout_app_l.
  eapply sameLayout_trans.
  - apply (sameLayout_run [c]); [done | by repeat constructor].
  - apply sameLayout_sym, (sameLayout_run [c; 32%N]); [done | by repeat constructor].
Qed.

Lemma endsWith_whitespace x :
  endsWith x 32 = true \/ endsWith x 10 = true ->
  exists c, lastChar x = Some c /\ isWhitespace c = true.
Proof.
  unfold endsWith. destruct (lastChar x) as [c|]; [|by intros [|]].
  intros [H|H]; apply N.eqb_eq in H as ->; eauto.
Qed.

Lemma addItem_skip st index item :
  item_str item = None \/ item_str item = Some [] ->
  addItem st index item = st.
Proof. destruct st. unfold addItem. by intros [-> | ->]. Qed.

(** What separates an item from the text before it. *)
Lemma addItem_string pageText lastY index item c r :
  item_str item = Some (c :: r) ->
  exists separator,
    addItem (pageText, lastY) index item
    = (pageText ++ separator ++ c :: r, default 0%Q (item_y item))
    /\ (separator = [10%N] \/ separator = [32%N]
        \/ separator = []
           /\ (index = 0%nat \/ endsWith pageText 32 = true
               \/ endsWith pageText 10 = true)).
Proof.
  intros Hs. unfold addItem. rewrite Hs.
  destruct (negb (Qeq_bool lastY (-1))
            && negb (Qle_bool (Qabs (default 0%Q (item_y item) - lastY)) 5)).
  - exists [10%N]. split; [reflexivity|]. by left.
  - destruct index as [|index].
    + exists []. split; [reflexivity|]. right. right. split; [done|]. by left.
    + change (0 <? S index)%nat with true. cbn [andb].
      destruct (endsWith pageText 32) eqn:H32; cbn [negb andb].
      * exists []. split; [reflexivity|]. right. right. split; [done|]. auto.
      * destruct (endsWith pageText 10) eqn:H10; cbn [negb andb].
        -- exists []. split; [reflexivity|]. right. right. split; [done|]. auto.
        -- exists [32%N]. split; [reflexivity|]. right. by left.
Qed.

Lemma joinWith_snoc sep parts s :
  parts <> [] -> joinWith sep (parts ++ [s]) = joinWith sep parts ++ sep ++ s.
Proof.
  induction parts as [|p parts IH]; [done|]. intros _.
  destruct parts as [|q parts]; [done|].
  change (joinWith sep ((p :: q :: parts) ++ [s]))
    with (p ++ sep ++ joinWith sep ((q :: parts) ++ [s])).
  rewrite IH by done. simpl. by rewrite <- !app_assoc.
Qed.

Lemma itemStrings_cons item rest :
  itemStrings (item :: rest)
  = match item_str item with
    | Some (c :: r) => (c :: r) :: itemStrings rest
    | _ => itemStrings rest
    end.
Proof. unfold itemStrings. simpl. by destruct (item_str item) as [[|c r]|]. Qed.

(** The text built so far is some leading whitespace followed by a body
    that collapses like the strings joined by single spaces. *)
Lemma addItems_layout items : forall index lead body lastY strs,
  Forall (fun c => isWhitespace c = true) lead ->
  sameLayout body (joinWith [32%N] strs) ->
  (strs = [] -> body = []) ->
  (strs <> [] -> body <> [] /\ (0 < index)%nat) ->
  exists lead' body',
    fst (addItems items index (lead ++ body, lastY)) = lead' ++ body'
    /\ Forall (fun c => isWhitespace c = true) lead'
    /\ sameLayout body' (joinWith [32%N] (strs ++ itemStrings items)).
Proof.
  induction items as [|item rest IH]; intros index lead body lastY strs Hlead Hbody H0 H1.
  - exists lead, body. simpl. by rewrite app_nil_r.
  - cbn [addItems]. rewrite itemStrings_cons.
    destruct (item_str item) as [[|c r]|] eqn:Hs.
    + rewrite addItem_skip by auto.
      apply IH; try done. intros Hne. destruct (H1 Hne). split; [done|lia].
    + destruct (addItem_string (lead ++ body) lastY index item c r Hs)
        as (sep & -> & Hsep).
      assert (Hws : Forall (fun c => isWhitespace c = true) sep).
      { destruct Hsep as [->|[->|[-> _]]]; by repeat constructor. }
      destruct strs as [|s0 strs'].
      * rewrite (H0 eq_refl), app_nil_r.
        replace (lead ++ sep ++ c :: r) with ((lead ++ sep) ++ (c :: r))
          by (by rewrite <- app_assoc).
        apply (IH (S index) (lead ++ sep) (c :: r) _ [c :: r]).
        -- by apply Forall_app.
        -- apply sameLayout_refl.
        -- done.
        -- intros _. split; [done|lia].
      * destruct (H1 ltac:(done)) as [Hne Hidx].
        replace ((s0 :: strs') ++ (c :: r) :: itemStrings rest)
          with (((s0 :: strs') ++ [c :: r]) ++ itemStrings rest)
          by (by rewrite <- app_assoc).
        replace ((lead ++ body) ++ sep ++ c :: r)
          with (lead ++ (body ++ sep ++ c :: r))
          by (by rewrite <- app_assoc).
        apply IH.
        -- done.
        -- rewrite joinWith_snoc by done.
           eapply sameLayout_trans;
             [|apply (sameLayout_app_r _ _ ([32%N] ++ c :: r) Hbody)].
           rewrite !app_assoc. apply sameLayout_app_r.
           destruct Hsep as [->|[->|[-> Hend]]].
           ++ apply sameLayout_app_l, sameLayout_run; [done | by repeat constructor].
           ++ apply sameLayout_refl.
           ++ rewrite app_nil_r.
              destruct Hend as [->|Hend]; [lia|].
              apply endsWith_whitespace in Hend as (d & Hd & Hdws).
              rewrite lastChar_app in Hd by done.
              by apply (sameLayout_after_whitespace body d).
        -- intros Habs. by destruct strs'.
        -- intros _. split; [by destruct body | lia].
    + rewrite addItem_skip by auto.
      apply IH; try done. intros Hne. destruct (H1 Hne). split; [done|lia].
Qed.

Lemma trimStart_leading lead x :
  Forall (fun c => isWhitespace c = true) lead ->
  trimStart (lead ++ x) = trimStart x.
Proof. induction 1 as [|c lead Hc _ IH]; [done|]. simpl. by rewrite Hc. Qed.

Lemma normalizeText_leading lead x :
  Forall (fun c => isWhitespace c = true) lead ->
  normalizeText (lead ++ x) = normalizeText x.
Proof.
  intros Hlead. rewrite !normalizeText_trim_first. unfold trim.
  by rewrite trimStart_leading.
Qed.

Lemma normalizeText_trim x : normalizeText (trim x) = normalizeText x.
Proof. by rewrite !normalizeText_trim_first, trim_idem. Qed.

Lemma normalizeText_pageTextOf items :
  normalizeText (pageTextOf items)
  = normalizeText (joinWith [32%N] (itemStrings items)).
Proof.
  unfold pageTextOf.
  destruct (addItems_layout items 0 [] [] (-1)%Q [] ltac:(constructor)
              (sameLayout_refl []) ltac:(done) ltac:(done))
    as (lead & body & Hpt & Hlead & Hbody).
  simpl in Hpt, Hbody. rewrite Hpt, normalizeText_leading by done.
  apply normalizeText_congr.
  specialize (Hbody false []). by rewrite !app_nil_r in Hbody.
Qed.

End ItemSeparators.

(** X26.  How the extractor separates the items of a page (a line break, a
    space, or nothing after text that already ends in a space or a line
    break) is invisible to the matcher: the normalized text of every
    extracted page is the normalized text of the page's non-empty item
    strings joined by single spaces. *)
Theorem extracted_text_normalizes_like_joined_items
    (contents : list (list TextItem)) (k : nat) (items : list TextItem) :
  contents !! k = Some items ->
  exists page,
    pages (extractTextFromPDF contents) !! k = Some page
    /\ pageNumber page = Z.of_nat k + 1
    /\ normalizeText (text page)
       = normalizeText (joinWith [32%N] (itemStrings items)).
Proof.
  intros Hk. eexists. split.
  - simpl. apply (extractPages_lookup contents 1 k items Hk).
  - simpl. split; [lia|].
    by rewrite normalizeText_trim, normalizeText_pageTextOf.
Qed.

Lemma extracted_text_normalizes_like_joined_items_witness :
  let items :=
    [mkTextItem None None;
     mkTextItem (Some (str "was split ")) (Some 700%Q);
     mkTextItem (Some (str "across")) (Some 700%Q);
     mkTextItem (Some []) (Some 690%Q);
     mkTextItem (Some (str "two lines")) (Some 680%Q)] in
  exists page,
    pages (extractTextFromPDF [items]) !! 0%nat = Some page
    /\ pageNumber page = Z.of_nat 0 + 1
    /\ normalizeText (text page)
       = normalizeText (joinWith [32%N] (itemStrings items)).
Proof.
  apply (extracted_text_normalizes_like_joined_items
           [[mkTextItem None None;
             mkTextItem (Some (str "was split ")) (Some 700%Q);
             mkTextItem (Some (str "across")) (Some 700%Q);
             mkTextItem (Some []) (Some 690%Q);
             mkTextItem (Some (str "two lines")) (Some 680%Q)]] 0).
  reflexivity.
Defined.

(** ** Where a highlight is drawn *)

Lemma orElseZ_row row d :
  orElseZ (700 - row * 20) d
  = if (row =? 35)%Z then d else inject_Z (700 - row * 20).
Proof.
  unfold orElseZ.
  destruct (Z.eqb_spec (700 - row * 20) 0), (Z.eqb_spec row 35); try lia; done.
Qed.

Lemma orElseZ_width n d :
  orElseZ (n * 6) d = if (n =? 0)%Z then d else inject_Z (n * 6).
Proof.
  unfold orElseZ.
  destruct (Z.eqb_spec (n * 6) 0), (Z.eqb_spec n 0); try lia; done.
Qed.

(** X27.  The rectangle of a highlight, in terms of the match.  When
    pdf-lib accepts the colour (channels and opacity within [0, 1]) the
    instruction succeeds and one rectangle is appended to the matched page,
    2 units around the estimated box: x = 48, height = 16, width = 6 per
    matched character plus 4 and y = 698 - 20 * floor(offset / 100).  Two
    estimates are falsy and replaced: an offset in the 36th row (y estimate
    0) puts the rectangle at pageHeight - 102, although the result still
    reports y = 0, and an empty match (width 0) gets the width 104.  When
    pdf-lib rejects the colour, nothing is drawn and the instruction fails
    with pdf-lib's message. *)
Theorem highlight_rectangle_geometry rt pdfDoc extractedText instruction options
    c page :
  instr_type instruction = HIGHLIGHT ->
  findMatch rt extractedText instruction options = Some c ->
  getPage pdfDoc (pageNumber (mc_page c) - 1) = Some page ->
  let outcome := applyAnnotation rt pdfDoc extractedText instruction options in
  let color :=
    default (mkColor 1 1 0 (Some (3 # 10)%Q)) (instr_color instruction) in
  let opacity := orElseQ (color_a color) (3 # 10) in
  let row := (mc_charOffset c / 100)%Z in
  let n := len (mc_matchedSubstring c) in
  let y :=
    if (row =? 35)%Z then (page_height page - 100)%Q
    else inject_Z (700 - row * 20) in
  let width := if (n =? 0)%Z then 100%Q else inject_Z (n * 6) in
  (fillError color opacity = None ->
   getPage (fst outcome) (pageNumber (mc_page c) - 1)
   = Some (drawOn page
             (DrawRectangle 48%Q (y - 2)%Q (width + 4)%Q 16%Q (rgbOf color)
                opacity None))
   /\ exists position,
        res_position (snd outcome) = Some position
        /\ tp_y position = (700 - row * 20)%Z)
  /\ (forall e, fillError color opacity = Some e ->
        outcome = (pdfDoc, failure instruction (drawErrorMessage rt e))).
Proof.
  intros Htype Hfind Hget outcome color opacity.
  subst outcome. unfold applyAnnotation, findTextPosition.
  rewrite Hfind. cbn [mbind option_bind createTextPosition tp_pageNumber].
  rewrite Hget, Htype.
  assert (Hcolor : match instr_color instruction with
                   | Some c => Some c
                   | None => DEFAULT_COLORS HIGHLIGHT
                   end = Some color).
  { subst color. by destruct (instr_color instruction). }
  rewrite Hcolor. subst opacity. clear Hcolor. clearbody color.
  unfold drawHighlight, createTextPosition. cbn [tp_x tp_y tp_width tp_height].
  rewrite orElseZ_row, orElseZ_width. split.
  - intros ->. cbn [fst snd res_position].
    split; [|eexists; split; reflexivity].
    by rewrite (getPage_putPage pdfDoc pdfDoc _ page _ eq_refl Hget).
  - by intros e ->.
Qed.

Lemma highlight_rectangle_geometry_witness :
  let outcome :=
    applyAnnotation sampleRuntime twoPageDoc twoShortPages (highlightOf "abc")
      DEFAULT_ANNOTATION_OPTIONS in
  getPage (fst outcome) 0
  = Some (drawOn letterPage
            (DrawRectangle 48%Q (inject_Z 700 - 2)%Q (inject_Z 18 + 4)%Q 16%Q
               (1, 1, 0)%Q (3 # 10)%Q None))
  /\ exists position,
       res_position (snd outcome) = Some position
       /\ tp_y position = 700%Z.
Proof.
  apply (proj1 (highlight_rectangle_geometry sampleRuntime twoPageDoc
                  twoShortPages (highlightOf "abc") DEFAULT_ANNOTATION_OPTIONS
                  (mkCandidate Exact (mkPageText 1 (str "abc")) 0 (str "abc") None)
                  letterPage eq_refl ltac:(vm_compute; reflexivity) eq_refl)).
  vm_compute. reflexivity.
Defined.

(** A highlight with the red channel 2 is refused by pdf-lib: the
    instruction fails and the page stays empty. *)
Lemma highlight_rejected_example :
  let instruction :=
    mkInstruction HIGHLIGHT (str "abc") None (Some (mkColor 2 0 0 None))
      None None in
  applyAnnotation sampleRuntime twoPageDoc twoShortPages instruction
    DEFAULT_ANNOTATION_OPTIONS
  = (twoPageDoc, failure instruction (str "colour channel out of range")).
Proof. by vm_compute. Qed.
